(** * LocalSocket: a shallow embedding of posix_translation/local_socket.cc

    The endpoint object of the in-process AF_UNIX emulation, embedded as
    state-passing functions over a store of endpoints.  Every endpoint
    (a C++ [LocalSocket] object) lives in a store keyed by an object
    identity; [peer_] and the entries of [connection_queue_] are such
    identities, so that the aliasing between the two ends of a connection
    is the one of the source.

    Collaborators whose code is not in local_socket.cc (the VFS
    descriptor table, the cmsg layout macros of the C library, the pointer
    checks of socket_util) are class parameters: every theorem holds for
    all of their implementations. *)

From Stdlib Require Import Strings.Ascii Strings.String Strings.Byte.
From stdpp Require Import base option numbers list strings gmap fin_maps.

Open Scope Z_scope.

(** ** Constants of the C library headers *)

Module Consts.
Definition AF_UNIX : Z := 1.
Definition SOL_SOCKET : Z := 1.
Definition SCM_RIGHTS : Z := 1.
Definition SCM_CREDENTIALS : Z := 2.
Definition SO_PASSCRED : Z := 16.
Definition SO_PEERCRED : Z := 17.
Definition MSG_TRUNC : Z := 32.
Definition MSG_CTRUNC : Z := 8.
Definition MSG_DONTWAIT : Z := 64.
Definition O_NONBLOCK : Z := 2048.
Definition POLLIN : Z := 1.
Definition POLLOUT : Z := 4.
Definition POLLERR : Z := 8.
Definition POLLHUP : Z := 16.
(** [offsetof(struct sockaddr_un, sun_path)]: [sa_family_t] is 16 bits. *)
Definition kSunPathOffset : Z := 2.
Definition sizeof_int : Z := 4.
Definition sizeof_ucred : Z := 12.
Definition sizeof_sa_family_t : Z := 2.
(** 224K is the default SO_SNDBUF/SO_RCVBUF in the linux kernel. *)
Definition kBufferSize : Z := 224 * 1024.
End Consts.
Import Consts.

(** ** Enumerations *)

Inductive SocketType := SOCK_STREAM | SOCK_DGRAM | SOCK_SEQPACKET.
Inductive ConnectState :=
  SOCKET_NEW | SOCKET_CONNECTING | SOCKET_CONNECTED | SOCKET_LISTENING.
Inductive StreamDir := READ_ONLY | WRITE_ONLY | READ_WRITE.

(** The errno values the endpoint sets itself; [EOTHER] carries an error
    code handed back by a collaborator. *)
Inductive Errno :=
  | EINVAL | EBADF | EAGAIN | ECONNREFUSED | ECONNRESET | EISCONN
  | ENOSYS | EOPNOTSUPP | EMFILE | ESPIPE | EADDRINUSE | EOTHER (code : Z).

(** What a call does for its caller: it returns a value, it returns -1
    with [errno] set, or the calling thread is parked in [sys->Wait()]
    (the VFS lock is released, other threads run). *)
Inductive Outcome :=
  | Ret (v : Z)
  | Err (e : Errno)
  | Suspended.

#[global] Instance SocketType_eq_dec : EqDecision SocketType.
Proof. solve_decision. Defined.
#[global] Instance ConnectState_eq_dec : EqDecision ConnectState.
Proof. solve_decision. Defined.
#[global] Instance StreamDir_eq_dec : EqDecision StreamDir.
Proof. solve_decision. Defined.
#[global] Instance Errno_eq_dec : EqDecision Errno.
Proof. solve_decision. Defined.
#[global] Instance Outcome_eq_dec : EqDecision Outcome.
Proof. solve_decision. Defined.

(** ** Plain data *)

Record ucred := mk_ucred { pid : Z; uid : Z; gid : Z }.

#[global] Instance ucred_eq_dec : EqDecision ucred.
Proof. solve_decision. Defined.

Record Datagram := mk_Datagram { cred_ : ucred; content_ : list byte }.

(** One control-message header together with the [int] array of its data
    area, as the [CMSG_FIRSTHDR]/[CMSG_NXTHDR] walk and [CMSG_DATA] present
    it. *)
Record cmsghdr := mk_cmsghdr {
  cmsg_len : Z;
  cmsg_level : Z;
  cmsg_type : Z;
  cmsg_data : list Z
}.

(** The [const struct msghdr*] given to sendmsg.  An iovec is the bytes it
    points to; its [iov_len] is their number. *)
Record send_msghdr := mk_send_msghdr {
  smsg_iov : list (list byte);
  smsg_control : list cmsghdr;
  smsg_controllen : Z
}.

(** The [struct msghdr*] given to recvmsg: the capacities of the iovecs and
    of the control buffer, and the flags word found there on entry. *)
Record recv_msghdr := mk_recv_msghdr {
  rmsg_iov : list nat;
  rmsg_controllen : Z;
  rmsg_flags : Z
}.

(** What recvmsg leaves in the caller's [msghdr]: the bytes stored through
    each iovec, the control messages built, and the two output fields. *)
Record recv_output := mk_recv_output {
  out_iov : list (list byte);
  out_control : list cmsghdr;
  out_controllen : Z;
  out_flags : Z
}.

Record sockaddr := mk_sockaddr { sa_family : Z; sun_path : list ascii }.

(** ** RingBuffer *)

(** Modelled from the spec: the byte ring behind [buffer_] (its class is not
    among the sources).  "A fixed-capacity byte ring supporting size,
    capacity, write(bytes) -> count actually written, and read(dst, n) ->
    count actually read.  Writes are partial when the ring is near-full and
    never block." *)
Module RingBuffer.
Record t := mk { capacity : Z; data : list byte }.

Definition empty : t := mk 0 [].
Definition size (b : t) : Z := Z.of_nat (length (data b)).
Definition set_capacity (n : Z) (b : t) : t := mk n (data b).

Definition write (bytes : list byte) (b : t) : t * Z :=
  let room := capacity b - size b in
  let n := Z.to_nat (Z.min room (Z.of_nat (length bytes))) in
  (mk (capacity b) (data b ++ take n bytes), Z.of_nat (length (take n bytes))).

Definition read (n : nat) (b : t) : t * list byte :=
  (mk (capacity b) (drop n (data b)), take n (data b)).
End RingBuffer.

(** ** The endpoint object *)

Abbreviation sock_id := nat (only parsing).

Record LocalSocket := mk_LocalSocket {
  (* SocketStream / FileStream base *)
  oflag_ : Z;
  closed_ : bool;
  (* LocalSocket *)
  socket_type_ : SocketType;
  connect_state_ : ConnectState;
  stream_dir_ : StreamDir;
  connection_backlog_ : Z;
  pass_cred_ : Z;
  my_cred_ : ucred;
  peer_cred_ : ucred;
  peer_ : option sock_id;
  abstract_name_ : string;
  logd_name_ : string;
  logd_target_name_ : string;
  connection_queue_ : list sock_id;
  buffer_ : RingBuffer.t;
  queue_ : list Datagram;
  cmsg_fd_queue_ : list (list Z)
}.

Definition set_closed_ (v : bool) (s : LocalSocket) : LocalSocket :=
  mk_LocalSocket (oflag_ s) v (socket_type_ s) (connect_state_ s)
    (stream_dir_ s) (connection_backlog_ s) (pass_cred_ s) (my_cred_ s)
    (peer_cred_ s) (peer_ s) (abstract_name_ s) (logd_name_ s)
    (logd_target_name_ s) (connection_queue_ s) (buffer_ s) (queue_ s)
    (cmsg_fd_queue_ s).
Definition set_connect_state_ (v : ConnectState) (s : LocalSocket) : LocalSocket :=
  mk_LocalSocket (oflag_ s) (closed_ s) (socket_type_ s) v
    (stream_dir_ s) (connection_backlog_ s) (pass_cred_ s) (my_cred_ s)
    (peer_cred_ s) (peer_ s) (abstract_name_ s) (logd_name_ s)
    (logd_target_name_ s) (connection_queue_ s) (buffer_ s) (queue_ s)
    (cmsg_fd_queue_ s).
Definition set_connection_backlog_ (v : Z) (s : LocalSocket) : LocalSocket :=
  mk_LocalSocket (oflag_ s) (closed_ s) (socket_type_ s) (connect_state_ s)
    (stream_dir_ s) v (pass_cred_ s) (my_cred_ s)
    (peer_cred_ s) (peer_ s) (abstract_name_ s) (logd_name_ s)
    (logd_target_name_ s) (connection_queue_ s) (buffer_ s) (queue_ s)
    (cmsg_fd_queue_ s).
Definition set_pass_cred_ (v : Z) (s : LocalSocket) : LocalSocket :=
  mk_LocalSocket (oflag_ s) (closed_ s) (socket_type_ s) (connect_state_ s)
    (stream_dir_ s) (connection_backlog_ s) v (my_cred_ s)
    (peer_cred_ s) (peer_ s) (abstract_name_ s) (logd_name_ s)
    (logd_target_name_ s) (connection_queue_ s) (buffer_ s) (queue_ s)
    (cmsg_fd_queue_ s).
Definition set_peer_cred_ (v : ucred) (s : LocalSocket) : LocalSocket :=
  mk_LocalSocket (oflag_ s) (closed_ s) (socket_type_ s) (connect_state_ s)
    (stream_dir_ s) (connection_backlog_ s) (pass_cred_ s) (my_cred_ s)
    v (peer_ s) (abstract_name_ s) (logd_name_ s)
    (logd_target_name_ s) (connection_queue_ s) (buffer_ s) (queue_ s)
    (cmsg_fd_queue_ s).
Definition set_peer_ (v : option sock_id) (s : LocalSocket) : LocalSocket :=
  mk_LocalSocket (oflag_ s) (closed_ s) (socket_type_ s) (connect_state_ s)
    (stream_dir_ s) (connection_backlog_ s) (pass_cred_ s) (my_cred_ s)
    (peer_cred_ s) v (abstract_name_ s) (logd_name_ s)
    (logd_target_name_ s) (connection_queue_ s) (buffer_ s) (queue_ s)
    (cmsg_fd_queue_ s).
Definition set_abstract_name_ (v : string) (s : LocalSocket) : LocalSocket :=
  mk_LocalSocket (oflag_ s) (closed_ s) (socket_type_ s) (connect_state_ s)
    (stream_dir_ s) (connection_backlog_ s) (pass_cred_ s) (my_cred_ s)
    (peer_cred_ s) (peer_ s) v (logd_name_ s)
    (logd_target_name_ s) (connection_queue_ s) (buffer_ s) (queue_ s)
    (cmsg_fd_queue_ s).
Definition set_logd_name_ (v : string) (s : LocalSocket) : LocalSocket :=
  mk_LocalSocket (oflag_ s) (closed_ s) (socket_type_ s) (connect_state_ s)
    (stream_dir_ s) (connection_backlog_ s) (pass_cred_ s) (my_cred_ s)
    (peer_cred_ s) (peer_ s) (abstract_name_ s) v
    (logd_target_name_ s) (connection_queue_ s) (buffer_ s) (queue_ s)
    (cmsg_fd_queue_ s).
Definition set_logd_target_name_ (v : string) (s : LocalSocket) : LocalSocket :=
  mk_LocalSocket (oflag_ s) (closed_ s) (socket_type_ s) (connect_state_ s)
    (stream_dir_ s) (connection_backlog_ s) (pass_cred_ s) (my_cred_ s)
    (peer_cred_ s) (peer_ s) (abstract_name_ s) (logd_name_ s)
    v (connection_queue_ s) (buffer_ s) (queue_ s)
    (cmsg_fd_queue_ s).
Definition set_connection_queue_ (v : list sock_id) (s : LocalSocket) : LocalSocket :=
  mk_LocalSocket (oflag_ s) (closed_ s) (socket_type_ s) (connect_state_ s)
    (stream_dir_ s) (connection_backlog_ s) (pass_cred_ s) (my_cred_ s)
    (peer_cred_ s) (peer_ s) (abstract_name_ s) (logd_name_ s)
    (logd_target_name_ s) v (buffer_ s) (queue_ s)
    (cmsg_fd_queue_ s).
Definition set_buffer_ (v : RingBuffer.t) (s : LocalSocket) : LocalSocket :=
  mk_LocalSocket (oflag_ s) (closed_ s) (socket_type_ s) (connect_state_ s)
    (stream_dir_ s) (connection_backlog_ s) (pass_cred_ s) (my_cred_ s)
    (peer_cred_ s) (peer_ s) (abstract_name_ s) (logd_name_ s)
    (logd_target_name_ s) (connection_queue_ s) v (queue_ s)
    (cmsg_fd_queue_ s).
Definition set_queue_ (v : list Datagram) (s : LocalSocket) : LocalSocket :=
  mk_LocalSocket (oflag_ s) (closed_ s) (socket_type_ s) (connect_state_ s)
    (stream_dir_ s) (connection_backlog_ s) (pass_cred_ s) (my_cred_ s)
    (peer_cred_ s) (peer_ s) (abstract_name_ s) (logd_name_ s)
    (logd_target_name_ s) (connection_queue_ s) (buffer_ s) v
    (cmsg_fd_queue_ s).
Definition set_cmsg_fd_queue_ (v : list (list Z)) (s : LocalSocket) : LocalSocket :=
  mk_LocalSocket (oflag_ s) (closed_ s) (socket_type_ s) (connect_state_ s)
    (stream_dir_ s) (connection_backlog_ s) (pass_cred_ s) (my_cred_ s)
    (peer_cred_ s) (peer_ s) (abstract_name_ s) (logd_name_ s)
    (logd_target_name_ s) (connection_queue_ s) (buffer_ s) (queue_ s)
    v.

(** [std::string::empty()]. *)
Definition str_empty (s : string) : bool :=
  match s with EmptyString => true | String _ _ => false end.

(** Modelled from the spec: [FileStream::is_block()], of the base class that
    is not among the sources ("flags: blocking vs non-blocking"): the
    endpoint blocks unless O_NONBLOCK is set in its open flags. *)
Definition is_block (s : LocalSocket) : bool :=
  Z.land (oflag_ s) O_NONBLOCK =? 0.

(** Modelled from the spec: [FileStream::IsClosed()], true once the last
    descriptor of the endpoint has been released. *)
Definition IsClosed (s : LocalSocket) : bool := closed_ s.

(** These values are empirically what SO_PEERCRED returns when there has
    never been a peer to the socket. *)
Definition no_peer_cred : ucred := mk_ucred 0 (-1) (-1).

(** [LocalSocket::LocalSocket(oflag, socket_type, stream_dir)]; [getpid] and
    [getuid] are the answers of [arc::ProcessEmulator::GetPid/GetUid] at the
    time of the call. *)
Definition LocalSocket_new (oflag : Z) (socket_type : SocketType)
    (stream_dir : StreamDir) (getpid getuid : Z) : LocalSocket :=
  let buffer :=
    if bool_decide (socket_type = SOCK_STREAM ∧ stream_dir ≠ WRITE_ONLY)
    then RingBuffer.set_capacity kBufferSize RingBuffer.empty
    else RingBuffer.empty in
  mk_LocalSocket oflag false socket_type SOCKET_NEW stream_dir 0 0
    (mk_ucred getpid getuid getuid) no_peer_cred None
    EmptyString EmptyString EmptyString [] buffer [] [].

(** ** Collaborators *)

(** The cmsg layout macros of <sys/socket.h> and the width of [size_t]. *)
Class CmsgLayout := {
  size_t_bits : Z;
  CMSG_LEN : Z → Z;
  CMSG_SPACE : Z → Z
}.

(** The narrow surface of the VFS descriptor table the endpoint consumes.
    [AddFileStreamLocked] answers a descriptor, or a negative number when
    the table is full; [DupLocked fd hint] answers the new descriptor. *)
Class VirtualFileSystem (FdTable : Type) := {
  AddFileStreamLocked : FdTable → sock_id → Z * FdTable;
  DupLocked : FdTable → Z → Z → Z * FdTable;
  CloseLocked : FdTable → Z → FdTable
}.

(** The checks of caller-supplied pointers in socket_util: each answers 0 or
    an errno value.  A pointer is seen through whether it is non-null and,
    for a length pointer, the length it points to. *)
Class SocketUtil := {
  VerifyGetSocketOption : bool → option Z → Z;
  VerifySetSocketOption : bool → Z → Z → Z;
  VerifyOutputSocketAddress : bool → option Z → Z
}.

(** Calls that only signal other threads or the descriptor table. *)
Inductive Effect :=
  | Broadcast
  | NotifyListeners (s : sock_id)
  | CloseLockedCall (fd : Z)
  | DupLockedCall (fd : Z).

#[global] Instance Effect_eq_dec : EqDecision Effect.
Proof. solve_decision. Defined.

(** ** The store *)

Record World {FdTable : Type} := mk_World {
  sockets : gmap nat LocalSocket;
  next_id : nat;
  abstract_ns : gmap string nat;
  logd_ns : gmap string nat;
  fd_table : FdTable;
  effects : list Effect
}.
Arguments World : clear implicits.
Arguments mk_World {FdTable}.

(** Modelled from the spec: the two name registries (AbstractSocketNamespace
    and LogdSocketNamespace are not among the sources).  "Bind(name,
    endpoint) associates name -> endpoint; fails with EADDRINUSE if the name
    is taken by a live endpoint; passing a null endpoint clears the binding.
    Lookup(name) -> endpoint | null." *)
Module NameRegistry.
Definition Bind (name : string) (endpoint : option sock_id)
    (ns : gmap string nat) : gmap string nat * Outcome :=
  match endpoint with
  | None => (delete name ns, Ret 0)
  | Some e =>
      match ns !! name with
      | Some _ => (ns, Err EADDRINUSE)
      | None => (<[name := e]> ns, Ret 0)
      end
  end.

Definition GetByName (name : string) (ns : gmap string nat) : option sock_id :=
  ns !! name.
End NameRegistry.

Section Store.
Context {FdTable : Type}.
Implicit Types w : World FdTable.

Definition set_sockets (v : gmap nat LocalSocket) w : World FdTable :=
  mk_World v (next_id w) (abstract_ns w) (logd_ns w) (fd_table w) (effects w).
Definition set_next_id (v : nat) w : World FdTable :=
  mk_World (sockets w) v (abstract_ns w) (logd_ns w) (fd_table w) (effects w).
Definition set_abstract_ns (v : gmap string nat) w : World FdTable :=
  mk_World (sockets w) (next_id w) v (logd_ns w) (fd_table w) (effects w).
Definition set_logd_ns (v : gmap string nat) w : World FdTable :=
  mk_World (sockets w) (next_id w) (abstract_ns w) v (fd_table w) (effects w).
Definition set_fd_table (v : FdTable) w : World FdTable :=
  mk_World (sockets w) (next_id w) (abstract_ns w) (logd_ns w) v (effects w).
Definition set_effects (v : list Effect) w : World FdTable :=
  mk_World (sockets w) (next_id w) (abstract_ns w) (logd_ns w) (fd_table w) v.

(** Append to the log of signalling calls. *)
Definition emit (es : list Effect) w : World FdTable :=
  set_effects (effects w ++ es) w.

(** Store an endpoint object back under its identity. *)
Definition put (s : sock_id) (obj : LocalSocket) w : World FdTable :=
  set_sockets (<[s := obj]> (sockets w)) w.

Definition get (s : sock_id) w : option LocalSocket := sockets w !! s.

(** [new LocalSocket(...)] held by a descriptor: a fresh identity. *)
Definition alloc (obj : LocalSocket) w : sock_id * World FdTable :=
  (next_id w, set_next_id (S (next_id w)) (put (next_id w) obj w)).
End Store.

(** ** LocalSocket::set_peer and LocalSocket::OnLastFileRef *)

Section Pairing.
Context {FdTable : Type}.
Implicit Types w : World FdTable.

(** [void LocalSocket::set_peer(scoped_refptr<LocalSocket> peer)] *)
Definition set_peer (self peer : sock_id) w : option (World FdTable) :=
  this ← get self w;
  peer_obj ← get peer w;
  Some (put self
          (set_peer_cred_ (my_cred_ peer_obj)
             (set_connect_state_ SOCKET_CONNECTED
                (set_peer_ (Some peer) this))) w).

(** [void LocalSocket::OnLastFileRef()] *)
Definition OnLastFileRef (self : sock_id) w : option (World FdTable) :=
  this ← get self w;
  w1 ← match peer_ this with
       | Some p =>
           peer_obj ← get p w;
           let w' := put p (set_peer_ None peer_obj) w in
           this' ← get self w';
           Some (emit [Broadcast] (put self (set_peer_ None this') w'))
       | None => Some w
       end;
  let w2 :=
    if str_empty (abstract_name_ this) then w1
    else set_abstract_ns
           (NameRegistry.Bind (abstract_name_ this) None (abstract_ns w1)).1 w1 in
  let w3 :=
    if str_empty (logd_name_ this) then w2
    else set_logd_ns
           (NameRegistry.Bind (logd_name_ this) None (logd_ns w2)).1 w2 in
  Some w3.

(** Modelled from the spec: the VFS releasing the last descriptor of an
    endpoint ("its name bindings are released when the last FD reference
    drops"): the stream is marked closed and its hook runs. *)
Definition close (self : sock_id) w : option (World FdTable) :=
  this ← get self w;
  OnLastFileRef self (put self (set_closed_ true this) w).

(** Modelled from the spec: the pairing done by the VFS for socketpair()
    and pipe() ("set_peer: always called by VirtualFileSystem"). *)
Definition pair_up (a b : sock_id) w : option (World FdTable) :=
  w1 ← set_peer a b w;
  set_peer b a w1.
End Pairing.

(** ** Socket addresses *)

(** [sun_path] is the memory behind the caller's pointer; bytes past the end
    of the list read as NUL. *)
Definition sun_path_at (i : nat) (addr : sockaddr) : ascii :=
  nth i (sun_path addr) Ascii.zero.

(** [bool LocalSocket::ValidateSockaddr(addr, addrlen)]: [None] when the
    address is acceptable, otherwise the errno it sets. *)
Definition ValidateSockaddr (addr : sockaddr) (addrlen : Z) : option Errno :=
  if negb (sa_family addr =? AF_UNIX) then Some EINVAL
  else if addrlen <? kSunPathOffset + 1 then Some EINVAL
  else None.

(** [strnlen(str, n)] followed by [assign(str, that)]: the characters before
    the first NUL among the first [n]. *)
Fixpoint strn_prefix (n : nat) (str : list ascii) : list ascii :=
  match n, str with
  | S n', c :: rest =>
      if Ascii.eqb c Ascii.zero then [] else c :: strn_prefix n' rest
  | _, _ => []
  end.

(** [bool LocalSocket::ConvertSockaddrToName(addr, addrlen, out_name)] *)
Definition ConvertSockaddrToName (addr : sockaddr) (addrlen : Z) : option string :=
  if Ascii.eqb (sun_path_at 0 addr) Ascii.zero then None
  else
    let sun_path_length := addrlen - kSunPathOffset in
    Some (string_of_list_ascii
            (strn_prefix (Z.to_nat sun_path_length) (sun_path addr))).

(** [bool LocalSocket::ConvertSockaddrToAbstractName(addr, addrlen, out_name)] *)
Definition ConvertSockaddrToAbstractName (addr : sockaddr) (addrlen : Z)
    : option string :=
  if negb (Ascii.eqb (sun_path_at 0 addr) Ascii.zero) then None
  else
    let sun_path_length := addrlen - kSunPathOffset in
    let n := Z.to_nat (sun_path_length - 1) in
    Some (string_of_list_ascii
            (take n (drop 1 (sun_path addr) ++ replicate n Ascii.zero))).

(** ** Little-endian images of the structures copied out by memcpy *)

Definition byte_of_Z (z : Z) : byte :=
  default x00 (Byte.of_N (Z.to_N (z `mod` 256))).

Definition le32 (z : Z) : list byte :=
  [byte_of_Z z; byte_of_Z (z ≫ 8); byte_of_Z (z ≫ 16); byte_of_Z (z ≫ 24)].

Definition ucred_bytes (c : ucred) : list byte :=
  le32 (pid c) ++ le32 (uid c) ++ le32 (gid c).

(** Result of getsockopt/setsockopt: handled here, or handed to
    [SocketStream::getsockopt]/[setsockopt] of the base class. *)
Inductive SockoptResult :=
  | OptDone (r : Outcome) (optval : list byte) (optlen : Z)
  | OptFailed (e : Errno)
  | OptBase.

Section Operations.
Context {FdTable : Type} `{!VirtualFileSystem FdTable}
        `{!CmsgLayout} `{!SocketUtil}.
Implicit Types w : World FdTable.

(** Conversion of an [int] or [socklen_t] to [size_t]. *)
Definition to_size_t (z : Z) : Z := z `mod` 2 ^ size_t_bits.
(** Conversion to [socklen_t] (32 bits). *)
Definition to_socklen_t (z : Z) : Z := z `mod` 2 ^ 32.

(** *** bind, listen *)

(** [int LocalSocket::bind(const sockaddr* addr, socklen_t addrlen)] *)
Definition bind (self : sock_id) (addr : sockaddr) (addrlen : Z) w
    : option (World FdTable * Outcome) :=
  this ← get self w;
  match ValidateSockaddr addr addrlen with
  | Some e => Some (w, Err e)
  | None =>
    if negb (str_empty (abstract_name_ this)) || negb (str_empty (logd_name_ this))
    then (* Trying to bind a second name to a single socket fails. *)
      Some (w, Err EINVAL)
    else
      match ConvertSockaddrToName addr addrlen with
      | Some name =>
          let '(ns, result) := NameRegistry.Bind name (Some self) (logd_ns w) in
          let w1 := set_logd_ns ns w in
          match result with
          | Ret 0 => Some (put self (set_logd_name_ name this) w1, result)
          | _ => Some (w1, result)
          end
      | None =>
        match ConvertSockaddrToAbstractName addr addrlen with
        | Some name =>
            let '(ns, result) := NameRegistry.Bind name (Some self) (abstract_ns w) in
            let w1 := set_abstract_ns ns w in
            match result with
            | Ret 0 => Some (put self (set_abstract_name_ name this) w1, result)
            | _ => Some (w1, result)
            end
        | None => Some (w, Err ENOSYS)
        end
      end
  end.

(** [int LocalSocket::listen(int backlog)] *)
Definition listen (self : sock_id) (backlog : Z) w
    : option (World FdTable * Outcome) :=
  this ← get self w;
  if bool_decide (socket_type_ this = SOCK_DGRAM) then Some (w, Err EOPNOTSUPP)
  else if str_empty (abstract_name_ this) && str_empty (logd_name_ this)
  then Some (w, Err EINVAL)
  else
    Some (put self
            (set_connection_backlog_ backlog
               (set_connect_state_ SOCKET_LISTENING this)) w,
          Ret 0).

(** *** getsockopt, setsockopt *)

(** [int LocalSocket::getsockopt(level, optname, optval, optlen)];
    [optval] is seen through being non-null, [optlen] through the length
    it points to. *)
Definition getsockopt (self : sock_id) (level optname : Z)
    (optval : bool) (optlen : option Z) w : option SockoptResult :=
  this ← get self w;
  if (level =? SOL_SOCKET) && (optname =? SO_PEERCRED) then
    let error := VerifyGetSocketOption optval optlen in
    if negb (error =? 0) then Some (OptFailed (EOTHER error))
    else
      len ← optlen;
      let len' := Z.min len sizeof_ucred in
      Some (OptDone (Ret 0)
              (take (Z.to_nat len') (ucred_bytes (peer_cred_ this))) len')
  else if (level =? SOL_SOCKET) && (optname =? SO_PASSCRED) then
    let error := VerifyGetSocketOption optval optlen in
    if negb (error =? 0) then Some (OptFailed (EOTHER error))
    else
      len ← optlen;
      let len' := Z.min len sizeof_int in
      Some (OptDone (Ret 0)
              (take (Z.to_nat len') (le32 (pass_cred_ this))) len')
  else Some OptBase.

(** [int LocalSocket::setsockopt(level, optname, optval, optlen)];
    [optval] is the [int] behind the pointer, if it is non-null. *)
Definition setsockopt (self : sock_id) (level optname : Z)
    (optval : option Z) (optlen : Z) w
    : option (World FdTable * SockoptResult) :=
  this ← get self w;
  if (level =? SOL_SOCKET) && (optname =? SO_PASSCRED) then
    let error := VerifySetSocketOption (bool_decide (is_Some optval)) optlen sizeof_int in
    if negb (error =? 0) then Some (w, OptFailed (EOTHER error))
    else
      v ← optval;
      Some (put self (set_pass_cred_ v this) w, OptDone (Ret 0) [] optlen)
  else Some (w, OptBase).

(** *** connect *)

(** [bool LocalSocket::HandleConnectLocked(LocalSocket* bound_socket)],
    run on the endpoint found under the name ([self]) with the connecting
    endpoint as argument. *)
Definition HandleConnectLocked (self bound_socket : sock_id) w
    : option (World FdTable * bool) :=
  this ← get self w;
  if bool_decide (socket_type_ this = SOCK_STREAM ∨ socket_type_ this = SOCK_SEQPACKET)
  then
    if negb (bool_decide (connect_state_ this = SOCKET_LISTENING))
    then Some (w, false)
    else if to_size_t (connection_backlog_ this)
            =? Z.of_nat (length (connection_queue_ this))
    then Some (w, false)
    else
      let q := connection_queue_ this ++ [bound_socket] in
      let w1 := put self (set_connection_queue_ q this) w in
      if (length q =? 1)%nat
      then (* wake a blocked accept and notify polls/selects *)
        Some (emit [Broadcast; NotifyListeners self] w1, true)
      else Some (w1, true)
  else Some (w, true).

(** [void LocalSocket::WaitForLocalSocketConnect()]: up to the first
    [sys->Wait()].  The state is CONNECTING when the loop condition is
    first read, so a stream or seqpacket caller always parks. *)
Definition WaitForLocalSocketConnect (self : sock_id) w
    : option (World FdTable * bool) :=
  this ← get self w;
  if bool_decide (socket_type_ this = SOCK_STREAM ∨ socket_type_ this = SOCK_SEQPACKET)
  then Some (put self (set_connect_state_ SOCKET_CONNECTING this) w, true)
  else Some (w, false).

(** [int LocalSocket::connect(const sockaddr* addr, socklen_t addrlen)] *)
Definition connect (self : sock_id) (addr : sockaddr) (addrlen : Z) w
    : option (World FdTable * Outcome) :=
  this ← get self w;
  if bool_decide (connect_state_ this = SOCKET_CONNECTED
                  ∨ connect_state_ this = SOCKET_LISTENING)
  then Some (w, Err EISCONN)
  else if negb (bool_decide (socket_type_ this = SOCK_DGRAM)) && negb (is_block this)
  then Some (w, Err ENOSYS)
  else
    match ValidateSockaddr addr addrlen with
    | Some e => Some (w, Err e)
    | None =>
      let found : option (string * option sock_id) :=
        match ConvertSockaddrToName addr addrlen with
        | Some logd_name =>
            Some (logd_name, NameRegistry.GetByName logd_name (logd_ns w))
        | None =>
            match ConvertSockaddrToAbstractName addr addrlen with
            | Some abstract_name =>
                Some (EmptyString,
                      NameRegistry.GetByName abstract_name (abstract_ns w))
            | None => None
            end
        end in
      match found with
      | None => Some (w, Err ENOSYS)
      | Some (_, None) =>
          (* Connection to unbound abstract name returns ECONNREFUSED. *)
          Some (w, Err ECONNREFUSED)
      | Some (logd_name, Some bound_socket) =>
          bound ← get bound_socket w;
          if negb (bool_decide (socket_type_ bound = socket_type_ this))
          then Some (w, Err ECONNREFUSED)
          else
            '(w1, ok) ← HandleConnectLocked bound_socket self w;
            if negb (ok : bool) then Some (w1, Err ECONNREFUSED)
            else
              this1 ← get self w1;
              let w2 := put self (set_logd_target_name_ logd_name this1) w1 in
              '(w3, parked) ← WaitForLocalSocketConnect self w2;
              Some (w3, if (parked : bool) then Suspended else Ret 0)
      end
    end.

(** The caller of connect woken up inside [WaitForLocalSocketConnect]:
    the loop condition is read again. *)
Definition connect_wakeup (self : sock_id) w
    : option (World FdTable * Outcome) :=
  this ← get self w;
  if bool_decide (connect_state_ this = SOCKET_CONNECTING)
  then Some (w, Suspended)
  else Some (w, Ret 0).

(** *** accept *)

(** The inner loop of [WaitForOpenedConnectToAccept]: skip any queued
    connects which have since been closed. *)
Fixpoint skip_closed (q : list sock_id) w : option (list sock_id) :=
  match q with
  | [] => Some []
  | front :: rest =>
      obj ← get front w;
      if IsClosed obj then skip_closed rest w else Some q
  end.

(** [void LocalSocket::WaitForOpenedConnectToAccept()], one round of its
    do-while loop.  [timed_out] is the answer of [sys->WaitUntil], asked
    only when the queue is empty after the skip; the boolean result says
    that the caller is parked for another round. *)
Definition WaitForOpenedConnectToAccept (self : sock_id) (timed_out : bool) w
    : option (World FdTable * bool) :=
  this ← get self w;
  q ← skip_closed (connection_queue_ this) w;
  let w1 := put self (set_connection_queue_ q this) w in
  match q with
  | _ :: _ => Some (w1, false)
  | [] => Some (w1, negb timed_out)
  end.

(** [LocalSocket::accept] from the return of
    [WaitForOpenedConnectToAccept] on.  [getpid]/[getuid] are the
    ProcessEmulator's answers for the thread that constructs the server
    endpoint.  The [sockaddr_un] stored through [addr] lies in the
    caller's memory and is not part of the store. *)
Definition accept_paired (self : sock_id) (getpid getuid : Z) w
    : option (World FdTable * Outcome) :=
  this ← get self w;
  if IsClosed this then Some (w, Err EBADF)
  else
    match connection_queue_ this with
    | [] => Some (w, Err EAGAIN)
    | client_socket :: rest =>
        (* Create a peer server socket for the client socket at the head of
           the connection queue. *)
        let server_obj :=
          LocalSocket_new (oflag_ this) (socket_type_ this) READ_WRITE
            getpid getuid in
        let server_socket := next_id w in
        let '(accept_fd, tbl) := AddFileStreamLocked (fd_table w) server_socket in
        let w1 := set_fd_table tbl w in
        if accept_fd <? 0 then Some (w1, Err EMFILE)
        else
          let w2 := (alloc server_obj w1).2 in
          let w3 := put self (set_connection_queue_ rest this) w2 in
          w4 ← set_peer server_socket client_socket w3;
          w5 ← set_peer client_socket server_socket w4;
          Some (emit [Broadcast; NotifyListeners self] w5, Ret accept_fd)
    end.

(** [int LocalSocket::accept(sockaddr* addr, socklen_t* addrlen)] *)
Definition accept (self : sock_id) (addr : bool) (addrlen : option Z)
    (timed_out : bool) (getpid getuid : Z) w
    : option (World FdTable * Outcome) :=
  this ← get self w;
  if bool_decide (socket_type_ this = SOCK_DGRAM) then Some (w, Err EOPNOTSUPP)
  else
    let error := if addr then VerifyOutputSocketAddress addr addrlen else 0 in
    if negb (error =? 0) then Some (w, Err (EOTHER error))
    else if negb (bool_decide (connect_state_ this = SOCKET_LISTENING))
    then Some (w, Err EINVAL)
    else if negb (is_block this) then Some (w, Err ENOSYS)
    else
      '(w1, parked) ← WaitForOpenedConnectToAccept self timed_out w;
      if (parked : bool) then Some (w1, Suspended)
      else accept_paired self getpid getuid w1.

(** *** Poll events *)

(** [bool LocalSocket::CanRead() const] *)
Definition CanRead (this : LocalSocket) : bool :=
  if negb (bool_decide (socket_type_ this = SOCK_DGRAM))
     && bool_decide (peer_ this = None)
  then true
  else if bool_decide (socket_type_ this = SOCK_STREAM)
  then 0 <? RingBuffer.size (buffer_ this)
  else negb (bool_decide (queue_ this = [])).

(** [bool LocalSocket::CanWrite() const] *)
Definition CanWrite (this : LocalSocket) w : option bool :=
  match peer_ this with
  | None => Some true
  | Some p =>
      if bool_decide (socket_type_ this = SOCK_STREAM)
      then
        peer_obj ← get p w;
        Some (RingBuffer.size (buffer_ peer_obj)
              <? RingBuffer.capacity (buffer_ peer_obj))
      else Some true
  end.

Definition flag_if (b : bool) (bit : Z) : Z := if b then bit else 0.

(** [int16_t LocalSocket::GetPollEvents() const] *)
Definition GetPollEvents (this : LocalSocket) w : option Z :=
  match connect_state_ this with
  | SOCKET_NEW => Some (Z.lor POLLOUT POLLHUP)
  | SOCKET_CONNECTING => Some 0
  | SOCKET_CONNECTED =>
      match stream_dir_ this with
      | READ_ONLY =>
          Some (Z.lor
                  (flag_if (0 <? RingBuffer.size (buffer_ this)) POLLIN)
                  (flag_if (bool_decide (peer_ this = None)) POLLHUP))
      | WRITE_ONLY =>
          match peer_ this with
          | None => Some (Z.lor POLLOUT POLLERR)
          | Some p =>
              peer_obj ← get p w;
              Some (flag_if (RingBuffer.size (buffer_ peer_obj)
                             <? RingBuffer.capacity (buffer_ peer_obj))
                      POLLOUT)
          end
      | READ_WRITE =>
          can_write ← CanWrite this w;
          let events := 0 in
          let events := Z.lor events (flag_if (CanRead this) POLLIN) in
          let events := Z.lor events (flag_if can_write POLLOUT) in
          let events :=
            Z.lor events
              (flag_if (negb (bool_decide (socket_type_ this = SOCK_DGRAM))
                        && bool_decide (peer_ this = None)) POLLHUP) in
          Some events
      end
  | SOCKET_LISTENING =>
      if negb (bool_decide (connection_queue_ this = []))
      then Some (Z.lor POLLIN POLLOUT)
      else Some POLLOUT
  end.

(** [bool LocalSocket::IsSelectReadReady() const] *)
Definition IsSelectReadReady (this : LocalSocket) w : option bool :=
  events ← GetPollEvents this w;
  Some (negb (Z.land events (Z.lor POLLIN (Z.lor POLLHUP POLLERR)) =? 0)).

(** *** recvmsg *)

Definition blank_iov {A} (iov : list A) : list (list byte) :=
  map (λ _, []) iov.

(** The STREAM loop of recvmsg:
    [for (i = 0; i < msg_iovlen && buffer_.size() > 0; ++i)
       bytes_read += buffer_.read(iov[i].iov_base, iov[i].iov_len)]. *)
Fixpoint stream_read_loop (iov : list nat) (buffer : RingBuffer.t)
    : RingBuffer.t * list (list byte) * Z :=
  match iov with
  | [] => (buffer, [], 0)
  | iov_len :: rest =>
      if 0 <? RingBuffer.size buffer then
        let '(buffer1, bytes) := RingBuffer.read iov_len buffer in
        let '(buffer2, outs, n) := stream_read_loop rest buffer1 in
        (buffer2, bytes :: outs, Z.of_nat (length bytes) + n)
      else (buffer, blank_iov iov, 0)
  end.

(** The datagram loop of recvmsg:
    [for (i = 0; i < msg_iovlen && remaining > 0; ++i)
       { len = min(iov[i].iov_len, remaining); copy; remaining -= len; }];
    the second component is what [remaining] counts. *)
Fixpoint datagram_copy_loop (iov : list nat) (content : list byte)
    : list (list byte) * list byte :=
  match iov with
  | [] => ([], content)
  | iov_len :: rest =>
      if (0 <? length content)%nat then
        let len := Nat.min iov_len (length content) in
        let '(outs, remaining) := datagram_copy_loop rest (drop len content) in
        (take len content :: outs, remaining)
      else (blank_iov iov, content)
  end.

(** [socklen_t cmsg_len = CMSG_LEN(fds.size() * sizeof(int))] *)
Definition rights_cmsg_len (nfds : nat) : Z :=
  to_socklen_t (CMSG_LEN (to_size_t (Z.of_nat nfds * sizeof_int))).

(** The loop of recvmsg that closes the descriptors that do not fit:
    [while (CMSG_SPACE(cmsg_len) > msg->msg_controllen && !fds.empty())].
    The vector is held back to front ([fds.back()] is the head), so that
    [pop_back] is the tail. *)
Fixpoint drop_overflow (controllen : Z) (fds_back_first : list Z)
    (tbl : FdTable) (log : list Effect) (flags : Z)
    : list Z * FdTable * list Effect * Z :=
  match fds_back_first with
  | fd :: rest =>
      if CMSG_SPACE (rights_cmsg_len (length fds_back_first)) >? controllen
      then drop_overflow controllen rest (CloseLocked tbl fd)
             (log ++ [CloseLockedCall fd]) (Z.lor flags MSG_CTRUNC)
      else (fds_back_first, tbl, log, flags)
  | [] => ([], tbl, log, flags)
  end.

(** The control-message part of recvmsg, run when bytes were read. *)
Definition build_control (controllen : Z) (cred : ucred) (this : LocalSocket)
    (tbl : FdTable) (flags : Z)
    : LocalSocket * list cmsghdr * Z * FdTable * list Effect * Z :=
  let '(this1, control, msg_controllen, tbl1, log, flags1) :=
    match cmsg_fd_queue_ this with
    | [] => (this, [], 0, tbl, [], flags)
    | front :: rest =>
        let '(kept, tbl1, log, flags1) :=
          drop_overflow controllen (rev front) tbl [] flags in
        let fds := rev kept in
        let cmsg_len := rights_cmsg_len (length fds) in
        let this1 := set_cmsg_fd_queue_ rest this in
        if CMSG_SPACE cmsg_len >? controllen
        then (this1, [], 0, tbl1, log, flags1)
        else (this1, [mk_cmsghdr cmsg_len SOL_SOCKET SCM_RIGHTS fds],
              CMSG_SPACE cmsg_len, tbl1, log, flags1)
    end in
  if negb (pass_cred_ this =? 0)
     && (CMSG_SPACE sizeof_ucred + msg_controllen <=? controllen)
  then
    let cmsg :=
      mk_cmsghdr (CMSG_LEN sizeof_ucred) SOL_SOCKET SCM_CREDENTIALS
        [pid cred; uid cred; gid cred] in
    (this1, control ++ [cmsg], msg_controllen + cmsg_len cmsg, tbl1, log, flags1)
  else (this1, control, msg_controllen, tbl1, log, flags1).

(** The caller's [msghdr] as an error or a parked call leaves it. *)
Definition untouched (msg : recv_msghdr) : recv_output :=
  mk_recv_output (blank_iov (rmsg_iov msg)) [] (rmsg_controllen msg)
    (rmsg_flags msg).

(** The data part of recvmsg: the endpoint after the read, the bytes
    stored through each iovec, [bytes_read], [msg_flags] and [cred]. *)
Definition recv_data (this : LocalSocket) (msg : recv_msghdr)
    : LocalSocket * list (list byte) * Z * Z * ucred :=
  let flags0 := 0 in
  if bool_decide (socket_type_ this = SOCK_STREAM) then
    if 0 <? RingBuffer.size (buffer_ this) then
      let '(buffer, outs, n) := stream_read_loop (rmsg_iov msg) (buffer_ this) in
      (set_buffer_ buffer this, outs, n, flags0, peer_cred_ this)
    else (this, blank_iov (rmsg_iov msg), 0, flags0, peer_cred_ this)
  else
    match queue_ this with
    | datagram :: rest =>
        let '(outs, remaining) :=
          datagram_copy_loop (rmsg_iov msg) (content_ datagram) in
        let flags1 :=
          if (0 <? length remaining)%nat then Z.lor flags0 MSG_TRUNC
          else flags0 in
        (set_queue_ rest this, outs,
         Z.of_nat (length (content_ datagram)) - Z.of_nat (length remaining),
         flags1, cred_ datagram)
    | [] =>
        (* [cred] stays uninitialised; it is not read when no byte is *)
        (this, blank_iov (rmsg_iov msg), 0, flags0, peer_cred_ this)
    end.

(** [LocalSocket::recvmsg] once the wait loop has been left. *)
Definition recvmsg_ready (self : sock_id) (msg : recv_msghdr) w
    : option (World FdTable * Outcome * recv_output) :=
  this ← get self w;
  let '(this1, outs, bytes_read, flags1, cred) := recv_data this msg in
  (* If no bytes are read in recvmsg, control messages are not returned
     either. *)
  let '(this2, control, controllen, tbl, log, flags2) :=
    if bytes_read <=? 0 then (this1, [], 0, fd_table w, [], flags1)
    else build_control (rmsg_controllen msg) cred this1 (fd_table w) flags1 in
  let out := mk_recv_output outs control controllen flags2 in
  let w1 := emit log (set_fd_table tbl (put self this2 w)) in
  if 0 <? bytes_read then
    (* Notify any listeners waiting to write on the peer. *)
    let w2 :=
      match peer_ this with
      | Some p => emit [NotifyListeners p] w1
      | None => w1
      end in
    Some (w2, Ret bytes_read, out)
  else if bool_decide (peer_ this = None)
          && negb (bool_decide (socket_type_ this = SOCK_DGRAM))
  then (* The other end of the socketpair has been closed, returns EOF(0). *)
    Some (w1, Ret 0, out)
  else Some (w1, Err EAGAIN, out).

(** The wait loop of recvmsg, one reading of its condition:
    [if (is_block() && !(flags & MSG_DONTWAIT))
       while (peer_ && !IsSelectReadReady()) sys->Wait();] *)
Definition recvmsg_must_wait (this : LocalSocket) (flags : Z) w : option bool :=
  if is_block this && (Z.land flags MSG_DONTWAIT =? 0) then
    match peer_ this with
    | Some _ => ready ← IsSelectReadReady this w; Some (negb ready)
    | None => Some false
    end
  else Some false.

(** [int LocalSocket::recvmsg(struct msghdr* msg, int flags)] *)
Definition recvmsg (self : sock_id) (msg : recv_msghdr) (flags : Z) w
    : option (World FdTable * Outcome * recv_output) :=
  this ← get self w;
  if bool_decide (stream_dir_ this = WRITE_ONLY)
  then (* Reading from write socket of a pipe is not allowed. *)
    Some (w, Err EBADF, untouched msg)
  else if negb (bool_decide (socket_type_ this = SOCK_DGRAM))
          && negb (bool_decide (connect_state_ this = SOCKET_CONNECTED))
  then Some (w, Err EINVAL, untouched msg)
  else
    wait ← recvmsg_must_wait this flags w;
    if (wait : bool) then Some (w, Suspended, untouched msg)
    else recvmsg_ready self msg w.

(** [ssize_t LocalSocket::recvfrom(buf, len, flags, addr, addrlen)];
    the two pointers are seen through being non-null. *)
Definition recvfrom (self : sock_id) (len : nat) (flags : Z)
    (addr addrlen : bool) w
    : option (World FdTable * Outcome * list byte) :=
  if addr || addrlen then Some (w, Err EINVAL, [])
  else if (len =? 0)%nat then Some (w, Ret 0, [])
  else
    let msg := mk_recv_msghdr [len] 0 0 in
    '(w1, r, out) ← recvmsg self msg 0 w;
    Some (w1, r, concat (out_iov out)).

(** [ssize_t LocalSocket::recv(void* buf, size_t len, int flags)] *)
Definition recv (self : sock_id) (len : nat) (flags : Z) w :=
  recvfrom self len flags false false w.

(** [ssize_t LocalSocket::read(void* buf, size_t count)] *)
Definition read (self : sock_id) (count : nat) w := recv self count 0 w.

(** *** sendmsg *)

(** The STREAM loop of HandleSendmsgLocked: the ring after the writes,
    [bytes_attempted] and [bytes_sent]. *)
Fixpoint stream_write_loop (iov : list (list byte)) (buffer : RingBuffer.t)
    : RingBuffer.t * Z * Z :=
  match iov with
  | [] => (buffer, 0, 0)
  | bytes :: rest =>
      let '(buffer1, written) := RingBuffer.write bytes buffer in
      let '(buffer2, attempted, sent) := stream_write_loop rest buffer1 in
      (buffer2, Z.of_nat (length bytes) + attempted, written + sent)
  end.

(** [for (i = 0; i < wire_fds_len; ++i)
      fds.push_back(sys->DupLocked(wire_fds[i], -1))] *)
Fixpoint dup_fds (wire_fds : list Z) (fds : list Z) (tbl : FdTable)
    (log : list Effect) : list Z * FdTable * list Effect :=
  match wire_fds with
  | [] => (fds, tbl, log)
  | fd :: rest =>
      let '(new_fd, tbl1) := DupLocked tbl fd (-1) in
      dup_fds rest (fds ++ [new_fd]) tbl1 (log ++ [DupLockedCall fd])
  end.

(** The walk over the control headers of HandleSendmsgLocked.  We only
    support one control message, specifically of type SCM_RIGHTS to send
    file descriptors.  The data area of a well-formed header holds the
    [wire_fds_len] descriptors its [cmsg_len] announces. *)
Fixpoint collect_rights (control : list cmsghdr) (fds : list Z)
    (tbl : FdTable) (log : list Effect) : list Z * FdTable * list Effect :=
  match control with
  | [] => (fds, tbl, log)
  | cmsg :: rest =>
      if (cmsg_level cmsg =? SOL_SOCKET) && (cmsg_type cmsg =? SCM_RIGHTS)
         && (CMSG_LEN 0 <=? cmsg_len cmsg)
      then
        let payload_len := cmsg_len cmsg - CMSG_LEN 0 in
        let wire_fds_len := payload_len `div` sizeof_int in
        let wire_fds := take (Z.to_nat wire_fds_len) (cmsg_data cmsg) in
        let '(fds1, tbl1, log1) := dup_fds wire_fds fds tbl log in
        collect_rights rest fds1 tbl1 log1
      else collect_rights rest fds tbl log
  end.

(** The data part of HandleSendmsgLocked: the endpoint after the write,
    [bytes_attempted] and [bytes_sent]. *)
Definition send_data (this : LocalSocket) (msg : send_msghdr)
    (peer_cred : ucred) : LocalSocket * Z * Z :=
  let buf := smsg_iov msg in
  if (0 <? length buf)%nat then
    if bool_decide (socket_type_ this = SOCK_STREAM) then
      let '(buffer, attempted, sent) := stream_write_loop buf (buffer_ this) in
      (set_buffer_ buffer this, attempted, sent)
    else
      let datagram := mk_Datagram peer_cred (concat buf) in
      let n := Z.of_nat (length (concat buf)) in
      (set_queue_ (queue_ this ++ [datagram]) this, n, n)
  else (this, 0, 0).

(** [int LocalSocket::HandleSendmsgLocked(const struct msghdr* msg,
                                          const ucred& peer_cred)],
    run on the receiving endpoint.  Its [ALOG_ASSERT]s (on the credentials
    of a stream sender, on the level and type of each control header and
    on the length of its payload) are debug checks that compile to nothing
    in a release build; they are left out. *)
Definition HandleSendmsgLocked (self : sock_id) (msg : send_msghdr)
    (peer_cred : ucred) w : option (World FdTable * Outcome) :=
  this ← get self w;
  let '(this1, bytes_attempted, bytes_sent) := send_data this msg peer_cred in
  (* If we did not send any bytes, do not process any control messages
     either. *)
  let '(this2, tbl, log) :=
    if negb (bytes_sent =? 0) && (0 <? smsg_controllen msg) then
      let '(fds, tbl, log) := collect_rights (smsg_control msg) [] (fd_table w) [] in
      (set_cmsg_fd_queue_ (cmsg_fd_queue_ this1 ++ [fds]) this1, tbl, log)
    else (this1, fd_table w, []) in
  let w1 := emit log (set_fd_table tbl (put self this2 w)) in
  let w2 :=
    if 0 <? bytes_sent then emit [Broadcast; NotifyListeners self] w1 else w1 in
  if (bytes_sent =? 0) && negb (bytes_attempted =? 0)
  then Some (w2, Err EAGAIN)
  else Some (w2, Ret bytes_sent).

(** [int LocalSocket::sendmsg(const struct msghdr* msg, int flags)] *)
Definition sendmsg (self : sock_id) (msg : send_msghdr) (flags : Z) w
    : option (World FdTable * Outcome) :=
  this ← get self w;
  if bool_decide (stream_dir_ this = READ_ONLY) then Some (w, Err EBADF)
  else if negb (bool_decide (socket_type_ this = SOCK_DGRAM))
          && negb (bool_decide (connect_state_ this = SOCKET_CONNECTED))
  then Some (w, Err EINVAL)
  else
    match peer_ this with
    | Some p => HandleSendmsgLocked p msg (my_cred_ this) w
    | None =>
        if bool_decide (socket_type_ this = SOCK_DGRAM) then
          let bound_socket :=
            if negb (str_empty (logd_target_name_ this))
            then NameRegistry.GetByName (logd_target_name_ this) (logd_ns w)
            else None in
          match bound_socket with
          | Some b => HandleSendmsgLocked b msg (my_cred_ this) w
          | None => Some (w, Err ECONNREFUSED)
          end
        else Some (w, Err ECONNRESET)
    end.

(** [ssize_t LocalSocket::sendto(buf, len, flags, dest_addr, addrlen)];
    [dest_addr] is seen through being non-null. *)
Definition sendto (self : sock_id) (buf : list byte) (flags : Z)
    (dest_addr : bool) (addrlen : Z) w : option (World FdTable * Outcome) :=
  if dest_addr || negb (addrlen =? 0) then Some (w, Err EINVAL)
  else if (length buf =? 0)%nat then Some (w, Ret 0)
  else sendmsg self (mk_send_msghdr [buf] [] 0) 0 w.

(** [ssize_t LocalSocket::send(const void* buf, size_t len, int flags)] *)
Definition send (self : sock_id) (buf : list byte) (flags : Z) w :=
  sendto self buf flags false 0 w.

(** [ssize_t LocalSocket::write(const void* buf, size_t count)] *)
Definition write (self : sock_id) (buf : list byte) w := send self buf 0 w.

(** *** Construction *)

(** An endpoint made by the VFS for socket(), socketpair() or pipe():
    the constructor, with the object placed in the store. *)
Definition socket (oflag : Z) (socket_type : SocketType)
    (stream_dir : StreamDir) (getpid getuid : Z) w
    : sock_id * World FdTable :=
  alloc (LocalSocket_new oflag socket_type stream_dir getpid getuid) w.
End Operations.

(** ** The remaining entry points *)

(** The [FIONREAD] request of <sys/ioctl.h>. *)
Definition FIONREAD : Z := 21531.

(** Conversion of a [size_t] to [int] (32 bits, two's complement). *)
Definition to_int (z : Z) : Z := (z + 2 ^ 31) `mod` 2 ^ 32 - 2 ^ 31.

(** Result of ioctl: handled here, with the [int] stored through the
    argument pointer, or handed to [SocketStream::ioctl] of the base
    class. *)
Inductive IoctlResult :=
  | IoctlDone (r : Outcome) (out : Z)
  | IoctlBase.

Section MoreOperations.
Context {FdTable : Type} `{!VirtualFileSystem FdTable}
        `{!CmsgLayout} `{!SocketUtil}.
Implicit Types w : World FdTable.

(** [off64_t LocalSocket::lseek(off64_t offset, int whence)] *)
Definition lseek (self : sock_id) (offset whence : Z) w
    : World FdTable * Outcome :=
  (w, Err ESPIPE).

(** [int LocalSocket::ioctl(int request, va_list ap)] *)
Definition ioctl (self : sock_id) (request : Z) w : option IoctlResult :=
  this ← get self w;
  if request =? FIONREAD then
    if bool_decide (socket_type_ this = SOCK_STREAM)
    then Some (IoctlDone (Ret 0) (to_int (RingBuffer.size (buffer_ this))))
    else
      match queue_ this with
      | front :: _ =>
          Some (IoctlDone (Ret 0) (to_int (Z.of_nat (length (content_ front)))))
      | [] => Some (IoctlDone (Ret 0) 0)
      end
  else Some IoctlBase.


(** [bool LocalSocket::IsSelectExceptionReady() const]: exceptfds are
    actually out-of-band data, which we do not support. *)
Definition IsSelectExceptionReady (this : LocalSocket) : bool := false.
End MoreOperations.

(** ** Operation sequences *)

(** The calls that can be made on the store, one constructor per entry
    point; arguments as for the functions above. *)
Inductive Op :=
  | OSocket (oflag : Z) (socket_type : SocketType) (stream_dir : StreamDir)
            (getpid getuid : Z)
  | OPairUp (a b : sock_id)
  | OClose (s : sock_id)
  | OBind (s : sock_id) (addr : sockaddr) (addrlen : Z)
  | OListen (s : sock_id) (backlog : Z)
  | OConnect (s : sock_id) (addr : sockaddr) (addrlen : Z)
  | OAccept (s : sock_id) (addr : bool) (addrlen : option Z) (timed_out : bool)
            (getpid getuid : Z)
  | ORecvmsg (s : sock_id) (msg : recv_msghdr) (flags : Z)
  | ORecvfrom (s : sock_id) (len : nat) (flags : Z) (addr addrlen : bool)
  | OSendmsg (s : sock_id) (msg : send_msghdr) (flags : Z)
  | OSendto (s : sock_id) (buf : list byte) (flags : Z) (dest_addr : bool)
            (addrlen : Z)
  | OSetsockopt (s : sock_id) (level optname : Z) (optval : option Z)
                (optlen : Z).

Section Traces.
Context {FdTable : Type} `{!VirtualFileSystem FdTable}
        `{!CmsgLayout} `{!SocketUtil}.
Implicit Types w : World FdTable.

(** The store after one call.  A call on an identity that names no
    endpoint leaves the store as it is. *)
Definition step (op : Op) w : World FdTable :=
  match op with
  | OSocket oflag ty dir getpid getuid => (socket oflag ty dir getpid getuid w).2
  | OPairUp a b => default w (pair_up a b w)
  | OClose s => default w (close s w)
  | OBind s addr addrlen => default w (fst <$> bind s addr addrlen w)
  | OListen s backlog => default w (fst <$> listen s backlog w)
  | OConnect s addr addrlen => default w (fst <$> connect s addr addrlen w)
  | OAccept s addr addrlen timed_out getpid getuid =>
      default w (fst <$> accept s addr addrlen timed_out getpid getuid w)
  | ORecvmsg s msg flags => default w ((λ r, r.1.1) <$> recvmsg s msg flags w)
  | ORecvfrom s len flags addr addrlen =>
      default w ((λ r, r.1.1) <$> recvfrom s len flags addr addrlen w)
  | OSendmsg s msg flags => default w (fst <$> sendmsg s msg flags w)
  | OSendto s buf flags dest_addr addrlen =>
      default w (fst <$> sendto s buf flags dest_addr addrlen w)
  | OSetsockopt s level optname optval optlen =>
      default w (fst <$> setsockopt s level optname optval optlen w)
  end.

Definition run (ops : list Op) w : World FdTable :=
  foldl (λ w op, step op w) w ops.

(** An endpoint that has never been paired: its [peer_] is unset in the
    store the calls start from and after each of them. *)
Fixpoint never_paired (s : sock_id) (ops : list Op) w : Prop :=
  (∀ obj, get s w = Some obj → peer_ obj = None)
  ∧ match ops with
    | [] => True
    | op :: rest => never_paired s rest (step op w)
    end.

(** An endpoint that is not paired anew: each of the calls leaves its
    [peer_] as it was, or unset. *)
Fixpoint not_paired_anew (s : sock_id) (ops : list Op) w : Prop :=
  match ops with
  | [] => True
  | op :: rest =>
      match get s w, get s (step op w) with
      | Some o, Some o' => peer_ o' = peer_ o ∨ peer_ o' = None
      | _, _ => True
      end
      ∧ not_paired_anew s rest (step op w)
  end.

(** Identities are handed out in increasing order. *)
Definition ids_below_next w : Prop :=
  ∀ s, is_Some (get s w) → (s < next_id w)%nat.
End Traces.

(** ** A concrete platform

    The collaborators as they are on 32-bit Linux, used to run the
    scenarios of the design document: the cmsg macros of the C library, a
    descriptor table that hands out increasing numbers up to a bound, and
    pointer checks that refuse null pointers with EFAULT. *)
Module Linux32.
Definition CMSG_ALIGN (len : Z) : Z := Z.land (len + 3) (Z.lnot 3).
Definition sizeof_cmsghdr : Z := 12.

Definition layout : CmsgLayout := {|
  size_t_bits := 32;
  CMSG_LEN := λ len, CMSG_ALIGN sizeof_cmsghdr + len;
  CMSG_SPACE := λ len, CMSG_ALIGN len + CMSG_ALIGN sizeof_cmsghdr
|}.

Record FdTable := mk_FdTable { next_fd : Z; max_fd : Z }.

Definition take_fd (t : FdTable) : Z * FdTable :=
  if next_fd t <? max_fd t
  then (next_fd t, mk_FdTable (next_fd t + 1) (max_fd t))
  else (-1, t).

Definition vfs : VirtualFileSystem FdTable := {|
  AddFileStreamLocked := λ t _, take_fd t;
  DupLocked := λ t _ _, take_fd t;
  CloseLocked := λ t _, t
|}.

Definition EFAULT : Z := 14.

Definition checks : SocketUtil := {|
  VerifyGetSocketOption := λ optval optlen,
    if optval && bool_decide (is_Some optlen) then 0 else EFAULT;
  VerifySetSocketOption := λ optval optlen size,
    if optval then (if optlen <? size then 22 else 0) else EFAULT;
  VerifyOutputSocketAddress := λ addr addrlen,
    if addr && bool_decide (is_Some addrlen) then 0 else EFAULT
|}.

(** The store before any call, with room for [max_fd] descriptors. *)
Definition boot (max_fd : Z) : World FdTable :=
  mk_World ∅ 0%nat ∅ ∅ (mk_FdTable 3 max_fd) [].

Definition abstract_addr (name : string) : sockaddr * Z :=
  (mk_sockaddr AF_UNIX (Ascii.zero :: list_ascii_of_string name),
   kSunPathOffset + 1 + Z.of_nat (String.length name)).

Definition ascii_bytes (s : string) : list byte :=
  map byte_of_ascii (list_ascii_of_string s).
End Linux32.

(** ** Vocabulary of the properties *)

(** [flags & bit] is non-zero. *)
Definition flag_set (flags bit : Z) : bool := negb (Z.land flags bit =? 0).

(** A SOL_SOCKET/SCM_RIGHTS control header. *)
Definition is_rights (c : cmsghdr) : bool :=
  (cmsg_level c =? SOL_SOCKET) && (cmsg_type c =? SCM_RIGHTS).

(** The descriptors recvmsg handed to its caller: the data of the
    SCM_RIGHTS header it placed, none when it placed no such header. *)
Definition delivered_rights (out : recv_output) : list Z :=
  match filter (λ c, is_rights c = true) (out_control out) with
  | c :: _ => cmsg_data c
  | [] => []
  end.

(** The descriptors a control buffer carries for HandleSendmsgLocked: those
    of its SOL_SOCKET/SCM_RIGHTS headers whose [cmsg_len] is at least
    [CMSG_LEN(0)], in the order of the walk. *)
Definition wire_rights `{!CmsgLayout} (control : list cmsghdr) : list Z :=
  flat_map
    (λ cmsg,
       if is_rights cmsg && (CMSG_LEN 0 <=? cmsg_len cmsg)
       then take (Z.to_nat ((cmsg_len cmsg - CMSG_LEN 0) `div` sizeof_int))
              (cmsg_data cmsg)
       else [])
    control.

(** [fds] are the duplicates of the descriptors [wire], made one after the
    other and in their order: each is what [DupLocked(fd, -1)] answers on
    the table the duplications before it have left, and [tbl'] is the
    table after the last one. *)
Fixpoint duplicates {FdTable : Type} `{!VirtualFileSystem FdTable}
    (wire : list Z) (tbl : FdTable) (fds : list Z) (tbl' : FdTable) : Prop :=
  match wire, fds with
  | [], [] => tbl' = tbl
  | fd :: wire, new_fd :: fds =>
      ∃ tbl1, DupLocked tbl fd (-1) = (new_fd, tbl1)
              ∧ duplicates wire tbl1 fds tbl'
  | _, _ => False
  end.

(** The [int] held by four bytes in little-endian order. *)
Definition int_of_le32 (bytes : list byte) : Z :=
  to_int (foldr (λ b acc, Z.of_N (Byte.to_N b) + 256 * acc) 0 bytes).

(** The [struct ucred] a caller finds in the twelve bytes getsockopt has
    copied out: [pid], [uid] and [gid] in that order, each read as an
    [int], so that [(uid_t)-1] shows as -1. *)
Definition read_ucred (optval : list byte) : ucred :=
  mk_ucred (int_of_le32 (take 4 optval))
    (int_of_le32 (take 4 (drop 4 optval)))
    (int_of_le32 (take 4 (drop 8 optval))).

(** The credentials the caller of getsockopt(SO_PEERCRED) reads: the call
    has returned 0 and has filled a whole [struct ucred]. *)
Definition credentials_read (answer : option SockoptResult) : option ucred :=
  match answer with
  | Some (OptDone (Ret 0) optval optlen) =>
      if (optlen =? sizeof_ucred) && (length optval =? 12)%nat
      then Some (read_ucred optval) else None
  | _ => None
  end.

(** Process and user identities as the [int]s of a [struct ucred]. *)
Definition as_ints (c : ucred) : ucred :=
  mk_ucred (to_int (pid c)) (to_int (uid c)) (to_int (gid c)).

(** Nothing waits to be read on the endpoint. *)
Definition rx_empty (this : LocalSocket) : Prop :=
  RingBuffer.size (buffer_ this) = 0 ∧ queue_ this = [].

(** A queued client whose last descriptor has been released. *)
Definition closed_in {FdTable : Type} (w : World FdTable) (s : sock_id) : Prop :=
  ∃ obj, get s w = Some obj ∧ IsClosed obj = true.

(** *** How an endpoint may differ between two stores *)

(** Nothing about credentials or the peer link has changed. *)
Definition same_link (o o' : LocalSocket) : Prop :=
  my_cred_ o' = my_cred_ o ∧ peer_cred_ o' = peer_cred_ o ∧ peer_ o' = peer_ o.

(** The credentials are as they were (the peer link may have been cut). *)
Definition keeps_creds (o o' : LocalSocket) : Prop :=
  my_cred_ o' = my_cred_ o ∧ peer_cred_ o' = peer_cred_ o.

(** Own credentials are as they were; the peer's are too, unless the
    endpoint now has a peer. *)
Definition keeps_creds_or_paired (o o' : LocalSocket) : Prop :=
  my_cred_ o' = my_cred_ o
  ∧ ((peer_cred_ o' = peer_cred_ o ∧ peer_ o' = peer_ o) ∨ is_Some (peer_ o')).

(** What one call may do to an endpoint. *)
Definition keeps_creds_unless_paired (o o' : LocalSocket) : Prop :=
  my_cred_ o' = my_cred_ o
  ∧ (peer_cred_ o' = peer_cred_ o ∨ is_Some (peer_ o')).

(** An endpoint that appears in the store: it has the default peer
    credentials unless it has a peer. *)
Definition default_unless_paired (o : LocalSocket) : Prop :=
  peer_cred_ o = no_peer_cred ∨ is_Some (peer_ o).

(** What a call that pairs nobody may do to an endpoint: the credentials
    stay, and the peer link stays or is cut. *)
Definition calm (o o' : LocalSocket) : Prop :=
  my_cred_ o' = my_cred_ o ∧ peer_cred_ o' = peer_cred_ o
  ∧ (peer_ o' = peer_ o ∨ peer_ o' = None).

(** An endpoint without a peer. *)
Definition unlinked (o : LocalSocket) : Prop := peer_ o = None.

(** Every endpoint that has a peer holds, as the peer's credentials, the
    own credentials of the endpoint its link points at. *)
Definition linked {FdTable : Type} (w : World FdTable) : Prop :=
  ∀ s o p, get s w = Some o → peer_ o = Some p →
    ∃ pobj, get p w = Some pobj ∧ peer_cred_ o = my_cred_ pobj.

(** [evolves R F w w']: from a store whose identities are below the
    allocation mark, [w'] is again such a store, no endpoint has
    disappeared, every endpoint of [w] is related by [R] to what it is in
    [w'], and every endpoint new in [w'] satisfies [F]. *)
Definition evolves {FdTable : Type} (R : LocalSocket → LocalSocket → Prop)
    (F : LocalSocket → Prop) (w w' : World FdTable) : Prop :=
  ids_below_next w →
  ids_below_next w'
  ∧ (next_id w ≤ next_id w')%nat
  ∧ ∀ s, match get s w' with
         | None => get s w = None
         | Some o' =>
             match get s w with
             | Some o => R o o'
             | None => F o'
             end
         end.

(** *** What every endpoint keeps for life *)

(** The endpoint carries a name of at least one character. *)
Definition named (o : LocalSocket) : Prop :=
  str_empty (abstract_name_ o) && str_empty (logd_name_ o) = false.

(** The shape of an endpoint: a ring of [kBufferSize] bytes on a stream
    endpoint that can be read from and none elsewhere, never more bytes in
    the ring than it has room for, no datagram on a stream endpoint, and a
    name on a listening endpoint, which is not a datagram one. *)
Definition sound (o : LocalSocket) : Prop :=
  RingBuffer.capacity (buffer_ o)
  = (if bool_decide (socket_type_ o = SOCK_STREAM ∧ stream_dir_ o ≠ WRITE_ONLY)
     then kBufferSize else 0)
  ∧ RingBuffer.size (buffer_ o) ≤ RingBuffer.capacity (buffer_ o)
  ∧ (socket_type_ o = SOCK_STREAM → queue_ o = [])
  ∧ (connect_state_ o = SOCKET_LISTENING →
     socket_type_ o ≠ SOCK_DGRAM ∧ named o).

(** What no call changes of an endpoint: its type, its direction, the
    name it has once it has one, and its shape. *)
Definition steady (o o' : LocalSocket) : Prop :=
  socket_type_ o' = socket_type_ o
  ∧ stream_dir_ o' = stream_dir_ o
  ∧ (named o →
     abstract_name_ o' = abstract_name_ o ∧ logd_name_ o' = logd_name_ o)
  ∧ (sound o → sound o').

(** The sentences of the design document that the code does not bear out
    as they are written, stated over the embedding.  Each is refuted on the
    concrete platform at the end of the file; the statement that does hold
    is proved before, for every platform. *)
Module AsWritten.
Section AsWritten.
Context {FdTable : Type} `{!VirtualFileSystem FdTable}
        `{!CmsgLayout} `{!SocketUtil}.
Implicit Types w : World FdTable.

(** "Exactly one entry is pushed onto the receiver's control-message FIFO
    if and only if the message carried SOL_SOCKET/SCM_RIGHTS control data;
    control messages of any other kind enqueue nothing." *)
Definition rights_entry_iff_rights_sent : Prop :=
  ∀ w self this p before msg flags w' n after,
    get self w = Some this → peer_ this = Some p →
    cmsg_fd_queue_ <$> get p w = Some before →
    sendmsg self msg flags w = Some (w', Ret n) → 0 < n →
    cmsg_fd_queue_ <$> get p w' = Some after →
    if existsb is_rights (smsg_control msg)
    then ∃ fds, after = before ++ [fds]
    else after = before.

(** "MSG_CTRUNC is set iff at least one SCM_RIGHTS fd was dropped or the
    entire SCM_RIGHTS header did not fit." *)
Definition ctrunc_iff_dropped_or_unfit : Prop :=
  ∀ w self this front rest msg flags w' n out,
    get self w = Some this → cmsg_fd_queue_ this = front :: rest →
    recvmsg self msg flags w = Some (w', Ret n, out) → 0 < n →
    flag_set (out_flags out) MSG_CTRUNC = true
    ↔ delivered_rights out ≠ front
      ∨ existsb is_rights (out_control out) = false.

(** "Exactly one datagram is popped, the returned byte count is
    min(payload size, total iovec capacity), and MSG_TRUNC is set iff the
    payload size exceeded the total iovec capacity." *)
Definition datagram_recv_returns_min : Prop :=
  ∀ w self this datagram rest msg flags,
    get self w = Some this → socket_type_ this ≠ SOCK_STREAM →
    queue_ this = datagram :: rest →
    let payload := length (content_ datagram) in
    let capacity := sum_list (rmsg_iov msg) in
    ∃ w' out,
      recvmsg self msg flags w
        = Some (w', Ret (Z.of_nat (payload `min` capacity)), out)
      ∧ queue_ <$> get self w' = Some rest
      ∧ concat (out_iov out) = take (payload `min` capacity) (content_ datagram)
      ∧ (flag_set (out_flags out) MSG_TRUNC = true ↔ (capacity < payload)%nat).

(** "For every STREAM/SEQPACKET endpoint whose peer has been closed:
    recvmsg with an empty receive buffer returns 0, and sendmsg with
    non-empty payload fails with ECONNRESET." *)
Definition every_half_closed_endpoint_eofs_and_resets : Prop :=
  ∀ w self this rmsg rflags smsg sflags,
    get self w = Some this → socket_type_ this ≠ SOCK_DGRAM →
    connect_state_ this = SOCKET_CONNECTED → peer_ this = None →
    (rx_empty this →
     ∃ w' out, recvmsg self rmsg rflags w = Some (w', Ret 0, out))
    ∧ (concat (smsg_iov smsg) ≠ [] →
       ∃ w', sendmsg self smsg sflags w = Some (w', Err ECONNRESET)).

(** "When the FD table cannot supply a descriptor, accept returns EMFILE
    and the listener's pending-connection queue is unchanged." *)
Definition accept_emfile_leaves_queue : Prop :=
  ∀ w self this addr addrlen timed_out getpid getuid w',
    get self w = Some this →
    accept self addr addrlen timed_out getpid getuid w = Some (w', Err EMFILE) →
    connection_queue_ <$> get self w' = Some (connection_queue_ this).
End AsWritten.
End AsWritten.

(** ** Scenarios on the concrete platform *)

Module Scenarios.
Import Linux32.
#[local] Existing Instance layout.
#[local] Existing Instance vfs.
#[local] Existing Instance checks.
#[local] Open Scope string_scope.

Definition svc : sockaddr * Z := abstract_addr "svc".
Definition cli : sockaddr * Z := abstract_addr "cli".
Definition unnamed : sockaddr * Z := abstract_addr "".

Definition new_stream : Op := OSocket 0 SOCK_STREAM READ_WRITE 10 1000.

(** socketpair(AF_UNIX, SOCK_STREAM): endpoints 0 and 1. *)
Definition stream_pair : World FdTable :=
  run [new_stream; new_stream; OPairUp 0%nat 1%nat] (boot 100).

(** socketpair(AF_UNIX, SOCK_DGRAM): endpoints 0 and 1. *)
Definition dgram_pair : World FdTable :=
  run [OSocket 0 SOCK_DGRAM READ_WRITE 10 1000;
       OSocket 0 SOCK_DGRAM READ_WRITE 10 1000; OPairUp 0%nat 1%nat] (boot 100).

(** pipe(): read end 0, write end 1; then the write end is closed. *)
Definition pipe_writer_gone : World FdTable :=
  run [OSocket 0 SOCK_STREAM READ_ONLY 10 1000;
       OSocket 0 SOCK_STREAM WRITE_ONLY 10 1000;
       OPairUp 0%nat 1%nat; OClose 1%nat] (boot 100).

(** A connected stream pair whose endpoint 1 has been closed. *)
Definition stream_peer_gone : World FdTable :=
  step (OClose 1%nat) stream_pair.

Definition one_byte : list (list byte) := [ascii_bytes "x"].

(** One byte of payload with a control buffer of a single byte, too short
    for a header: [CMSG_FIRSTHDR] finds none. *)
Definition msg_with_short_control : send_msghdr :=
  mk_send_msghdr one_byte [] 1.

(** One byte of payload with an SCM_RIGHTS message that carries no
    descriptor. *)
Definition msg_with_no_fds : send_msghdr :=
  mk_send_msghdr one_byte
    [mk_cmsghdr (CMSG_LEN 0) SOL_SOCKET SCM_RIGHTS []] (CMSG_SPACE 0).

(** One byte of payload with SCM_RIGHTS [5; 6]. *)
Definition msg_with_two_fds : send_msghdr :=
  mk_send_msghdr one_byte
    [mk_cmsghdr (CMSG_LEN 8) SOL_SOCKET SCM_RIGHTS [5; 6]] (CMSG_SPACE 8).

Definition sent_no_fds : World FdTable :=
  step (OSendmsg 0%nat msg_with_no_fds 0) stream_pair.

Definition sent_two_fds : World FdTable :=
  step (OSendmsg 0%nat msg_with_two_fds 0) stream_pair.

Definition sent_datagram : World FdTable :=
  step (OSendmsg 0%nat (mk_send_msghdr [ascii_bytes "abc"] [] 0) 0) dgram_pair.

(** Listener 0 on "\0svc" with backlog 2, clients 1 and 2 parked in
    connect, client 3 not yet connecting; [fds] bounds the table. *)
Definition two_pending (fds : Z) : World FdTable :=
  run [new_stream; OBind 0%nat svc.1 svc.2; OListen 0%nat 2;
       OSocket 0 SOCK_STREAM READ_WRITE 11 1001;
       OSocket 0 SOCK_STREAM READ_WRITE 12 1002;
       OSocket 0 SOCK_STREAM READ_WRITE 13 1003;
       OConnect 1%nat svc.1 svc.2; OConnect 2%nat svc.1 svc.2] (boot fds).

(** ... then the listener calls listen(1). *)
Definition backlog_lowered : World FdTable :=
  step (OListen 0%nat 1) (two_pending 100).

(** ... or client 1 is closed while it waits, and the table is full. *)
Definition head_closed_table_full : World FdTable :=
  step (OClose 1%nat) (two_pending 3).

(** Client 1 binds "\0cli", connects to listener 0 and is accepted. *)
Definition bound_client_connected : World FdTable :=
  run [new_stream; OBind 0%nat svc.1 svc.2; OListen 0%nat 1;
       OSocket 0 SOCK_STREAM READ_WRITE 11 1001;
       OBind 1%nat cli.1 cli.2; OConnect 1%nat svc.1 svc.2;
       OAccept 0%nat false None false 10 1000] (boot 100).

(** What a recvmsg leaves in the caller's [msghdr]. *)
Definition recv_out (s : sock_id) (msg : recv_msghdr) (flags : Z)
    (w : World FdTable) : recv_output :=
  default (untouched msg) (snd <$> recvmsg s msg flags w).

(** A fresh endpoint 0, and the store after it bound the abstract name of
    length zero. *)
Definition fresh_endpoint : World FdTable := run [new_stream] (boot 100).
Definition bound_unnamed : World FdTable :=
  step (OBind 0%nat unnamed.1 unnamed.2) fresh_endpoint.
End Scenarios.

(** ** Further scenarios on the concrete platform *)

Module MoreScenarios.
Import Linux32 Scenarios.
#[local] Existing Instance layout.
#[local] Existing Instance vfs.
#[local] Existing Instance checks.
#[local] Open Scope string_scope.

(** The pathname address of [name], with its terminating NUL. *)
Definition pathname_addr (name : string) : sockaddr * Z :=
  (mk_sockaddr AF_UNIX (list_ascii_of_string name ++ [Ascii.zero]),
   kSunPathOffset + Z.of_nat (String.length name) + 1).

Definition logdw : sockaddr * Z := pathname_addr "/dev/socket/logdw".

(** The endpoint stored under [s] (a blank one if there is none). *)
Definition the (s : sock_id) (w : World FdTable) : LocalSocket :=
  default (LocalSocket_new 0 SOCK_STREAM READ_WRITE 0 0) (get s w).

Definition new_dgram (getpid getuid : Z) : Op :=
  OSocket 0 SOCK_DGRAM READ_WRITE getpid getuid.

Definition text (s : string) : send_msghdr :=
  mk_send_msghdr [ascii_bytes s] [] 0.

(** The stream pair with [ring] in the place of the ring of endpoint 1: a
    ring of a few bytes stands for the 224 KiB one. *)
Definition stream_pair_with_ring (ring : RingBuffer.t) : World FdTable :=
  match get 1%nat stream_pair with
  | Some obj => put 1%nat (set_buffer_ ring obj) stream_pair
  | None => stream_pair
  end.

(** Two bytes held, room for two more. *)
Definition tight_ring : World FdTable :=
  stream_pair_with_ring (RingBuffer.mk 4 (ascii_bytes "ab")).


(** The stream pair after endpoint 0 has written "abc". *)
Definition sent_abc : World FdTable :=
  step (OSendto 0%nat (ascii_bytes "abc") 0 false 0) stream_pair.

(** The datagram pair after endpoint 1 has set SO_PASSCRED. *)
Definition dgram_pair_passcred : World FdTable :=
  step (OSetsockopt 1%nat SOL_SOCKET SO_PASSCRED (Some 1) 4) dgram_pair.

(** Two fresh stream endpoints, 0 and 1. *)
Definition two_streams : World FdTable :=
  run [new_stream; OSocket 0 SOCK_STREAM READ_WRITE 11 1001] (boot 100).

(** Endpoint 0 bound to "\0svc", endpoint 1 fresh. *)
Definition svc_bound : World FdTable :=
  step (OBind 0%nat svc.1 svc.2) two_streams.

(** Datagram endpoint 0 bound to the pathname of the log daemon, datagram
    endpoint 1 fresh. *)
Definition logd_bound : World FdTable :=
  run [new_dgram 1 0; OBind 0%nat logdw.1 logdw.2; new_dgram 10 1000]
    (boot 100).

(** Datagram endpoint 0 bound to "\0svc", datagram endpoint 1 fresh. *)
Definition svc_dgram_bound : World FdTable :=
  run [new_dgram 1 0; OBind 0%nat svc.1 svc.2; new_dgram 10 1000] (boot 100).

(** The listener of [two_pending] closed while its clients wait. *)
Definition listener_closed : World FdTable :=
  step (OClose 0%nat) (two_pending 100).

(** Both clients of [two_pending] closed while they wait. *)
Definition clients_closed : World FdTable :=
  run [OClose 1%nat; OClose 2%nat] (two_pending 100).
End MoreScenarios.

(** * Properties *)

(** ** The store *)

Section StoreLemmas.
Context {FdTable : Type}.
Implicit Types w : World FdTable.

Lemma get_put_eq s obj w : get s (put s obj w) = Some obj.
Proof. unfold get, put; simpl. apply lookup_insert_eq. Qed.

Lemma get_put_ne s s' obj w : s ≠ s' → get s' (put s obj w) = get s' w.
Proof. intros Hne. unfold get, put; simpl. by apply lookup_insert_ne. Qed.

Lemma get_put s s' obj w :
  get s' (put s obj w) = if decide (s = s') then Some obj else get s' w.
Proof.
  case_decide; subst; [apply get_put_eq | by apply get_put_ne].
Qed.

Lemma get_emit s es w : get s (emit es w) = get s w.
Proof. reflexivity. Qed.

Lemma get_set_fd_table s tbl w : get s (set_fd_table tbl w) = get s w.
Proof. reflexivity. Qed.

Lemma get_set_abstract_ns s ns w : get s (set_abstract_ns ns w) = get s w.
Proof. reflexivity. Qed.

Lemma get_set_logd_ns s ns w : get s (set_logd_ns ns w) = get s w.
Proof. reflexivity. Qed.

(** Storing back the object that is there changes nothing. *)
Lemma put_same s obj w : get s w = Some obj → put s obj w = w.
Proof.
  intros Hget. destruct w as [socks n a l t e]. unfold put, get in *; simpl in *.
  by rewrite insert_id.
Qed.

Lemma emit_nil w : emit [] w = w.
Proof. destruct w. unfold emit, set_effects; simpl. by rewrite app_nil_r. Qed.

Lemma set_fd_table_same w : set_fd_table (fd_table w) w = w.
Proof. by destruct w. Qed.
End StoreLemmas.

(** ** C10: recvfrom and sendto refuse addresses *)

Section AddressArguments.
Context {FdTable : Type} `{!VirtualFileSystem FdTable}
        `{!CmsgLayout} `{!SocketUtil}.
Implicit Types w : World FdTable.

(** C10.  recvfrom with a non-null source-address pointer or a non-null
    address-length pointer fails with EINVAL, and sendto with a non-null
    destination address or a non-zero address length fails with EINVAL;
    in both cases the store is returned as it was and no endpoint is even
    looked up, whatever the identity [self] names. *)
Theorem recvfrom_sendto_refuse_addresses (self : sock_id) w :
  (∀ len flags (addr addrlen : bool),
      addr = true ∨ addrlen = true →
      recvfrom self len flags addr addrlen w = Some (w, Err EINVAL, []))
  ∧ (∀ buf flags (dest_addr : bool) addrlen,
      dest_addr = true ∨ addrlen ≠ 0 →
      sendto self buf flags dest_addr addrlen w = Some (w, Err EINVAL)).
Proof.
  split.
  - intros len flags addr addrlen Hptr. unfold recvfrom.
    destruct Hptr as [-> | ->]; [done | by rewrite orb_true_r].
  - intros buf flags dest_addr addrlen Hdest. unfold sendto.
    destruct Hdest as [-> | Hlen]; [done |].
    apply Z.eqb_neq in Hlen. rewrite Hlen. by rewrite orb_true_r.
Qed.
End AddressArguments.

(** ** C7: a stream or seqpacket endpoint whose peer has been closed *)

Section HalfClosed.
Context {FdTable : Type} `{!VirtualFileSystem FdTable}
        `{!CmsgLayout} `{!SocketUtil}.
Implicit Types w : World FdTable.

Lemma recvmsg_must_wait_no_peer this flags w :
  peer_ this = None → recvmsg_must_wait this flags w = Some false.
Proof.
  intros Hpeer. unfold recvmsg_must_wait. rewrite Hpeer.
  by destruct (is_block this && (Z.land flags MSG_DONTWAIT =? 0)).
Qed.

Lemma recv_data_rx_empty this msg :
  rx_empty this →
  recv_data this msg = (this, blank_iov (rmsg_iov msg), 0, 0, peer_cred_ this).
Proof.
  intros [Hbuf Hq]. unfold recv_data. rewrite Hbuf, Hq. simpl.
  by case_bool_decide.
Qed.

(** C7, as the code has it.  On a STREAM or SEQPACKET endpoint that is
    CONNECTED with no peer left, recvmsg with nothing to read returns 0
    (EOF) unless the endpoint is the write end of a pipe, where it fails
    with EBADF; sendmsg, whatever the payload and whatever is still
    waiting to be read, fails with ECONNRESET unless the endpoint is the
    read end of a pipe, where it fails with EBADF.  Neither call changes
    the store. *)
Theorem half_closed_eof_and_reset
    w self this (rmsg : recv_msghdr) rflags (smsg : send_msghdr) sflags :
  get self w = Some this →
  socket_type_ this ≠ SOCK_DGRAM →
  connect_state_ this = SOCKET_CONNECTED →
  peer_ this = None →
  (rx_empty this →
   ∃ out,
     recvmsg self rmsg rflags w
     = Some (w, if decide (stream_dir_ this = WRITE_ONLY)
                then Err EBADF else Ret 0, out))
  ∧ sendmsg self smsg sflags w
    = Some (w, if decide (stream_dir_ this = READ_ONLY)
               then Err EBADF else Err ECONNRESET).
Proof.
  intros Hget Hty Hst Hpeer. split.
  - intros Hrx. unfold recvmsg. rewrite Hget; simpl.
    case_decide as Hdir.
    + rewrite bool_decide_true by done. eauto.
    + rewrite bool_decide_false by done.
      rewrite (bool_decide_true _ Hst), andb_false_r.
      rewrite (recvmsg_must_wait_no_peer _ _ _ Hpeer); simpl.
      unfold recvmsg_ready. rewrite Hget; simpl.
      rewrite (recv_data_rx_empty _ _ Hrx); simpl.
      rewrite (bool_decide_true _ Hpeer), (bool_decide_false _ Hty); simpl.
      rewrite emit_nil, (put_same _ _ _ Hget), set_fd_table_same. eauto.
  - unfold sendmsg. rewrite Hget; simpl.
    case_decide as Hdir.
    + by rewrite bool_decide_true by done.
    + rewrite bool_decide_false by done.
      rewrite (bool_decide_true _ Hst), andb_false_r, Hpeer.
      by rewrite (bool_decide_false _ Hty).
Qed.
End HalfClosed.

(** ** Flag words *)

Section Flags.
Lemma flag_set_lor_ctrunc_trunc flags :
  flag_set (Z.lor flags MSG_CTRUNC) MSG_TRUNC = flag_set flags MSG_TRUNC.
Proof.
  unfold flag_set. rewrite Z.land_lor_distr_l.
  change (Z.land MSG_CTRUNC MSG_TRUNC) with 0. by rewrite Z.lor_0_r.
Qed.

Lemma flag_set_lor_ctrunc flags :
  flag_set (Z.lor flags MSG_CTRUNC) MSG_CTRUNC = true.
Proof.
  unfold flag_set. rewrite Z.land_lor_distr_l.
  change (Z.land MSG_CTRUNC MSG_CTRUNC) with MSG_CTRUNC.
  apply negb_true_iff, Z.eqb_neq. intros H%Z.lor_eq_0_iff. by destruct H.
Qed.

Lemma lor_ctrunc_twice flags :
  Z.lor (Z.lor flags MSG_CTRUNC) MSG_CTRUNC = Z.lor flags MSG_CTRUNC.
Proof. by rewrite <- Z.lor_assoc, Z.lor_diag. Qed.
End Flags.

(** ** The loops of recvmsg *)

Section RecvLoops.
Lemma concat_blank_iov {A} (iov : list A) : concat (blank_iov iov) = [].
Proof. induction iov; simpl; auto. Qed.

Lemma blank_iov_within (iov : list nat) :
  Forall2 (λ bytes iov_len, (length bytes ≤ iov_len)%nat) (blank_iov iov) iov.
Proof. induction iov; constructor; simpl; auto with lia. Qed.

(** The datagram loop stores the first bytes of the payload, as many as
    the iovecs hold together, each iovec within its length, and leaves
    the rest of the payload uncopied. *)
Lemma datagram_copy_loop_spec iov content :
  let '(outs, remaining) := datagram_copy_loop iov content in
  concat outs = take (sum_list iov) content
  ∧ remaining = drop (sum_list iov) content
  ∧ Forall2 (λ bytes iov_len, (length bytes ≤ iov_len)%nat) outs iov.
Proof.
  revert content. induction iov as [|iov_len rest IH]; intros content; simpl.
  - by rewrite take_0, drop_0.
  - destruct (0 <? length content)%nat eqn:Hne.
    + specialize (IH (drop (iov_len `min` length content) content)).
      destruct (datagram_copy_loop rest _) as [outs remaining].
      destruct IH as (Hc & Hr & Hw). simpl. rewrite Hc, Hr.
      apply Nat.ltb_lt in Hne.
      destruct (decide (iov_len ≤ length content)%nat) as [Hle|Hgt].
      * rewrite Nat.min_l by done. split_and!.
        -- apply take_take_drop.
        -- by rewrite drop_drop.
        -- constructor; [|done]. rewrite length_take. lia.
      * rewrite Nat.min_r by lia. rewrite (drop_ge content (length content)) by done.
        rewrite take_nil, drop_nil, app_nil_r. split_and!.
        -- rewrite !take_ge; [done | lia | lia].
        -- rewrite drop_ge; [done | lia].
        -- constructor; [|done]. rewrite length_take. lia.
    + apply Nat.ltb_ge in Hne. assert (content = []) as ->.
      { destruct content; [done | simpl in Hne; lia]. }
      fold (blank_iov rest).
      change (concat ([] :: blank_iov rest)) with (concat (blank_iov rest)).
      rewrite concat_blank_iov, take_nil, drop_nil. split_and!; try done.
      apply (blank_iov_within (iov_len :: rest)).
Qed.
End RecvLoops.

(** ** The control-message part of recvmsg *)

Section ControlMessages.
Context {FdTable : Type} `{!VirtualFileSystem FdTable}
        `{!CmsgLayout} `{!SocketUtil}.
Implicit Types w : World FdTable.

(** The loop closes a prefix of the back-to-front vector, one
    [CloseLocked] per descriptor in that order, sets MSG_CTRUNC exactly
    when the prefix is not empty, and stops at the first length that
    fits, or with nothing left. *)
Lemma drop_overflow_spec controllen rfds tbl log flags :
  ∃ dropped kept,
    rfds = dropped ++ kept
    ∧ drop_overflow controllen rfds tbl log flags
      = (kept, foldl CloseLocked tbl dropped,
         log ++ map CloseLockedCall dropped,
         if bool_decide (dropped = []) then flags
         else Z.lor flags MSG_CTRUNC)
    ∧ (kept = [] ∨ CMSG_SPACE (rights_cmsg_len (length kept)) ≤ controllen).
Proof.
  revert tbl log flags.
  induction rfds as [|fd rest IH]; intros tbl log flags.
  - exists [], []. simpl. rewrite app_nil_r. auto.
  - cbn [drop_overflow].
    destruct (CMSG_SPACE (rights_cmsg_len (length (fd :: rest))) >? controllen)
      eqn:Hover.
    + destruct (IH (CloseLocked tbl fd) (log ++ [CloseLockedCall fd])
                  (Z.lor flags MSG_CTRUNC)) as (dropped & kept & -> & Heq & Hfit).
      exists (fd :: dropped), kept. split_and!; [done | | done].
      rewrite Heq. simpl. rewrite <- app_assoc. simpl.
      case_bool_decide; [reflexivity | by rewrite lor_ctrunc_twice].
    + exists [], (fd :: rest). simpl. rewrite app_nil_r.
      split_and!; [done | done |]. right.
      rewrite Z.gtb_ltb in Hover. by apply Z.ltb_ge in Hover.
Qed.

Lemma set_cmsg_fd_queue_same this :
  set_cmsg_fd_queue_ (cmsg_fd_queue_ this) this = this.
Proof. by destruct this. Qed.

Lemma filter_rights_credentials (cmsg_len : Z) data :
  filter (λ c, is_rights c = true)
    [mk_cmsghdr cmsg_len SOL_SOCKET SCM_CREDENTIALS data] = [].
Proof. done. Qed.

(** What the control part does with the head entry [kept ++ dropped] of
    the FIFO: the entry is popped; [dropped] is closed from its last
    descriptor to its first; MSG_CTRUNC is set exactly when [dropped] is
    not empty; the SCM_RIGHTS header, if one is placed, carries [kept]. *)
Lemma build_control_spec controllen cred this tbl flags :
  ∃ kept dropped control out_len,
    default [] (head (cmsg_fd_queue_ this)) = kept ++ dropped
    ∧ build_control controllen cred this tbl flags
      = (set_cmsg_fd_queue_ (tail (cmsg_fd_queue_ this)) this,
         control, out_len,
         foldl CloseLocked tbl (rev dropped),
         map CloseLockedCall (rev dropped),
         if bool_decide (dropped = []) then flags
         else Z.lor flags MSG_CTRUNC)
    ∧ (kept = [] ∨ CMSG_SPACE (rights_cmsg_len (length kept)) ≤ controllen)
    ∧ filter (λ c, is_rights c = true) control
      = if bool_decide (cmsg_fd_queue_ this = [])
           || (CMSG_SPACE (rights_cmsg_len (length kept)) >? controllen)
        then []
        else [mk_cmsghdr (rights_cmsg_len (length kept)) SOL_SOCKET
                SCM_RIGHTS kept].
Proof.
  unfold build_control.
  destruct (cmsg_fd_queue_ this) as [|front rest] eqn:Hq.
  - exists [], []. simpl.
    rewrite <- Hq, set_cmsg_fd_queue_same.
    destruct (negb (pass_cred_ this =? 0) && _); eauto 10.
  - destruct (drop_overflow_spec controllen (rev front) tbl [] flags)
      as (rdropped & rkept & Hrev & Heq & Hfit).
    rewrite Heq. exists (rev rkept), (rev rdropped).
    assert (front = rev rkept ++ rev rdropped) as Hfront.
    { rewrite <- rev_app_distr, <- Hrev. by rewrite rev_involutive. }
    rewrite !rev_involutive, !length_rev. simpl.
    assert (bool_decide (rev rdropped = []) = bool_decide (rdropped = [])) as ->.
    { destruct rdropped as [|x l]; [done|].
      rewrite !bool_decide_false; [done | done |].
      simpl. intros Hnil. by apply app_eq_nil in Hnil as [_ ?]. }
    assert (rev rkept = [] ∨ CMSG_SPACE (rights_cmsg_len (length rkept)) ≤ controllen)
      as Hfit'.
    { destruct Hfit as [-> | ?]; auto. }
    destruct (CMSG_SPACE (rights_cmsg_len (length rkept)) >? controllen) eqn:Hover;
      simpl; destruct (negb (pass_cred_ this =? 0) && _); eauto 10.
Qed.
End ControlMessages.

(** ** C3: receiving a datagram *)

Section DatagramReceive.
Context {FdTable : Type} `{!VirtualFileSystem FdTable}
        `{!CmsgLayout} `{!SocketUtil}.
Implicit Types w : World FdTable.

(** A socket (not a pipe end) that is CONNECTED, or a DGRAM socket that is
    still NEW, and has a datagram queued is read-ready: recvmsg does not
    park its caller. *)
Lemma recvmsg_must_wait_datagram this flags w :
  socket_type_ this ≠ SOCK_STREAM →
  stream_dir_ this = READ_WRITE →
  connect_state_ this = SOCKET_CONNECTED
  ∨ (socket_type_ this = SOCK_DGRAM ∧ connect_state_ this = SOCKET_NEW) →
  queue_ this ≠ [] →
  recvmsg_must_wait this flags w = Some false.
Proof.
  intros Hty Hdir Hst Hq. unfold recvmsg_must_wait.
  destruct (is_block this && _); [|done].
  destruct (peer_ this) as [p|] eqn:Hpeer; [|done].
  unfold IsSelectReadReady, GetPollEvents.
  destruct Hst as [-> | [_ ->]]; [|done].
  rewrite Hdir. unfold CanWrite, CanRead. rewrite Hpeer.
  rewrite (bool_decide_false (socket_type_ this = SOCK_STREAM)) by done.
  rewrite (bool_decide_false (Some p = None)) by done.
  rewrite (bool_decide_false (queue_ this = [])) by done.
  rewrite !andb_false_r. done.
Qed.

Lemma recv_data_datagram this datagram rest msg :
  socket_type_ this ≠ SOCK_STREAM →
  queue_ this = datagram :: rest →
  let payload := length (content_ datagram) in
  let capacity := sum_list (rmsg_iov msg) in
  ∃ outs,
    recv_data this msg
    = (set_queue_ rest this, outs, Z.of_nat (payload `min` capacity),
       if bool_decide (capacity < payload)%nat then MSG_TRUNC else 0,
       cred_ datagram)
    ∧ concat outs = take (payload `min` capacity) (content_ datagram)
    ∧ Forall2 (λ bytes iov_len, (length bytes ≤ iov_len)%nat) outs (rmsg_iov msg).
Proof.
  intros Hty Hq payload capacity. unfold recv_data.
  rewrite (bool_decide_false _ Hty), Hq.
  pose proof (datagram_copy_loop_spec (rmsg_iov msg) (content_ datagram)) as Hloop.
  destruct (datagram_copy_loop _ _) as [outs remaining].
  destruct Hloop as (Hc & -> & Hw). exists outs.
  rewrite length_drop. fold payload capacity. split_and!; [|  | done].
  - f_equal. f_equal; [f_equal|].
    + lia.
    + destruct (0 <? payload - capacity)%nat eqn:Hrem; case_bool_decide;
        first [done | apply Nat.ltb_lt in Hrem; lia | apply Nat.ltb_ge in Hrem; lia].
  - rewrite Hc. destruct (decide (payload ≤ capacity)%nat).
    + rewrite Nat.min_l by done. rewrite !take_ge; [done | done | done].
    + by rewrite Nat.min_r by lia.
Qed.

(** C3, as the code has it.  On a DGRAM or SEQPACKET socket that is
    CONNECTED (or a DGRAM socket still NEW) with a datagram queued,
    recvmsg pops exactly that datagram, stores the first
    min(payload size, total iovec capacity) bytes of its payload across
    the iovecs, each within its length, sets MSG_TRUNC exactly when the
    payload is larger than the total capacity, and, when that minimum is
    at least one byte, returns it. *)
Theorem datagram_recv w self this datagram rest (msg : recv_msghdr) flags :
  get self w = Some this →
  socket_type_ this ≠ SOCK_STREAM →
  stream_dir_ this = READ_WRITE →
  connect_state_ this = SOCKET_CONNECTED
  ∨ (socket_type_ this = SOCK_DGRAM ∧ connect_state_ this = SOCKET_NEW) →
  queue_ this = datagram :: rest →
  let payload := length (content_ datagram) in
  let capacity := sum_list (rmsg_iov msg) in
  ∃ w' r out,
    recvmsg self msg flags w = Some (w', r, out)
    ∧ queue_ <$> get self w' = Some rest
    ∧ concat (out_iov out) = take (payload `min` capacity) (content_ datagram)
    ∧ Forall2 (λ bytes iov_len, (length bytes ≤ iov_len)%nat)
        (out_iov out) (rmsg_iov msg)
    ∧ (flag_set (out_flags out) MSG_TRUNC = true ↔ (capacity < payload)%nat)
    ∧ ((0 < payload `min` capacity)%nat
       → r = Ret (Z.of_nat (payload `min` capacity))).
Proof.
  intros Hget Hty Hdir Hst Hq payload capacity.
  unfold recvmsg. rewrite Hget; simpl.
  rewrite (bool_decide_false (stream_dir_ this = WRITE_ONLY)) by (by rewrite Hdir).
  assert (negb (bool_decide (socket_type_ this = SOCK_DGRAM))
          && negb (bool_decide (connect_state_ this = SOCKET_CONNECTED)) = false)
    as ->.
  { destruct Hst as [-> | [-> _]]; [by rewrite andb_false_r | done]. }
  rewrite recvmsg_must_wait_datagram by (try done; by rewrite Hq). simpl.
  unfold recvmsg_ready. rewrite Hget; simpl.
  destruct (recv_data_datagram this datagram rest msg Hty Hq)
    as (outs & -> & Hc & Hw). fold payload capacity.
  assert (∀ ftrunc, flag_set (if bool_decide (capacity < payload)%nat
                              then MSG_TRUNC else 0) MSG_TRUNC = ftrunc
                    → ftrunc = true ↔ (capacity < payload)%nat) as Hflag.
  { intros ? <-. case_bool_decide; split; done. }
  destruct (Z.of_nat (payload `min` capacity) <=? 0) eqn:Hzero.
  - apply Z.leb_le in Hzero.
    assert ((0 <? Z.of_nat (payload `min` capacity)) = false) as ->
      by (apply Z.ltb_ge; lia).
    destruct (bool_decide (peer_ this = None) && _);
      (eexists _, _, _; split_and!;
       [reflexivity | by rewrite get_emit, get_set_fd_table, get_put_eq
        | done | done | by apply Hflag | lia]).
  - apply Z.leb_gt in Hzero.
    assert ((0 <? Z.of_nat (payload `min` capacity)) = true) as ->
      by (apply Z.ltb_lt; lia).
    destruct (build_control_spec (rmsg_controllen msg) (cred_ datagram)
                (set_queue_ rest this) (fd_table w)
                (if bool_decide (capacity < payload)%nat then MSG_TRUNC else 0))
      as (kept & dropped & control & out_len & _ & -> & _ & _).
    eexists _, _, _; split_and!; [reflexivity | | done | done | | done].
    + destruct (peer_ this);
        rewrite ?get_emit, get_set_fd_table, get_put_eq; reflexivity.
    + cbn [out_flags].
      destruct (bool_decide (dropped = [])); apply Hflag; [reflexivity|].
      symmetry. apply flag_set_lor_ctrunc_trunc.
Qed.
End DatagramReceive.

(** ** C2: MSG_CTRUNC *)

Section ControlTruncation.
Context {FdTable : Type} `{!VirtualFileSystem FdTable}
        `{!CmsgLayout} `{!SocketUtil}.
Implicit Types w : World FdTable.

Lemma stream_read_loop_count iov buffer :
  let '(_, outs, n) := stream_read_loop iov buffer in
  n = Z.of_nat (length (concat outs)).
Proof.
  revert buffer. induction iov as [|iov_len rest IH]; intros buffer; [done|].
  cbn [stream_read_loop]. destruct (0 <? RingBuffer.size buffer).
  - unfold RingBuffer.read.
    specialize (IH (RingBuffer.mk (RingBuffer.capacity buffer)
                      (drop iov_len (RingBuffer.data buffer)))).
    destruct (stream_read_loop rest _) as [[buffer2 outs] n].
    simpl. rewrite length_app. lia.
  - by rewrite concat_blank_iov.
Qed.

(** The data part of recvmsg counts the bytes it stored, leaves the
    control FIFO alone and does not set MSG_CTRUNC. *)
Lemma recv_data_spec this msg :
  let '(this1, outs, bytes_read, flags1, _) := recv_data this msg in
  bytes_read = Z.of_nat (length (concat outs))
  ∧ cmsg_fd_queue_ this1 = cmsg_fd_queue_ this
  ∧ flag_set flags1 MSG_CTRUNC = false.
Proof.
  unfold recv_data. case_bool_decide as Hty.
  - destruct (0 <? RingBuffer.size (buffer_ this)).
    + pose proof (stream_read_loop_count (rmsg_iov msg) (buffer_ this)) as Hn.
      by destruct (stream_read_loop _ _) as [[buffer outs] n].
    + by rewrite concat_blank_iov.
  - destruct (queue_ this) as [|datagram rest] eqn:Hq.
    + by rewrite concat_blank_iov.
    + destruct (recv_data_datagram this datagram rest msg Hty Hq)
        as (outs & Heq & Hc & _).
      unfold recv_data in Heq. rewrite (bool_decide_false _ Hty), Hq in Heq.
      rewrite Heq, Hc, length_take. split_and!; [lia | done |].
      by case_bool_decide.
Qed.

(** A recvmsg that returns a positive count went through the whole body:
    its result is the one of [recvmsg_ready]. *)
Lemma recvmsg_ret_pos w self msg flags w' n out :
  recvmsg self msg flags w = Some (w', Ret n, out) → 0 < n →
  recvmsg_ready self msg w = Some (w', Ret n, out).
Proof.
  unfold recvmsg. intros Hrecv Hn.
  destruct (get self w) as [this|]; [simpl in Hrecv | done].
  destruct (bool_decide (stream_dir_ this = WRITE_ONLY)); [done|].
  destruct (negb _ && negb _); [done|].
  destruct (recvmsg_must_wait this flags w) as [[]|]; done.
Qed.

(** C2, as the code has it.  When recvmsg delivers at least one byte and
    pops an entry [front] of the control FIFO, the entry splits into the
    descriptors kept and those dropped; the dropped ones are closed from
    the last to the first; MSG_CTRUNC is set if and only if at least one
    descriptor was dropped.  If an SCM_RIGHTS header is placed it carries
    the kept descriptors; if none is placed, every descriptor of the
    entry was dropped (so the flag is set unless the entry was empty).
    The payload bytes stored are as many as the call returns, whatever
    became of the control message. *)
Theorem ctrunc_iff_fd_dropped
    w self this front rest (msg : recv_msghdr) flags w' n out :
  get self w = Some this →
  cmsg_fd_queue_ this = front :: rest →
  recvmsg self msg flags w = Some (w', Ret n, out) →
  0 < n →
  ∃ kept dropped,
    front = kept ++ dropped
    ∧ cmsg_fd_queue_ <$> get self w' = Some rest
    ∧ (flag_set (out_flags out) MSG_CTRUNC = true ↔ dropped ≠ [])
    ∧ delivered_rights out
      = (if existsb is_rights (out_control out) then kept else [])
    ∧ (existsb is_rights (out_control out) = false → kept = [])
    ∧ effects w'
      = effects w ++ map CloseLockedCall (rev dropped)
        ++ match peer_ this with
           | Some p => [NotifyListeners p]
           | None => []
           end
    ∧ fd_table w' = foldl CloseLocked (fd_table w) (rev dropped)
    ∧ Z.of_nat (length (concat (out_iov out))) = n.
Proof.
  intros Hget Hq Hrecv Hn.
  apply recvmsg_ret_pos in Hrecv; [|done].
  unfold recvmsg_ready in Hrecv. rewrite Hget in Hrecv; simpl in Hrecv.
  pose proof (recv_data_spec this msg) as Hdata.
  destruct (recv_data this msg) as [[[[this1 outs] bytes_read] flags1] cred].
  destruct Hdata as (Hcount & Hqueue & Hflags).
  destruct (bytes_read <=? 0) eqn:Hzero.
  { apply Z.leb_le in Hzero.
    assert ((0 <? bytes_read) = false) as Hnot by (apply Z.ltb_ge; lia).
    rewrite Hnot in Hrecv. destruct (_ && _); simplify_eq; lia. }
  apply Z.leb_gt in Hzero.
  assert ((0 <? bytes_read) = true) as Hpos by (by apply Z.ltb_lt).
  rewrite Hpos in Hrecv.
  destruct (build_control_spec (rmsg_controllen msg) cred this1
              (fd_table w) flags1)
    as (kept & dropped & control & out_len & Hsplit & Heq & Hfit & Hrights).
  rewrite Heq in Hrecv. rewrite Hqueue, Hq in Hsplit, Hrights, Hrecv.
  simpl in Hsplit, Hrights, Hrecv.
  injection Hrecv as <- <- <-. exists kept, dropped.
  assert (existsb is_rights control
          = negb (CMSG_SPACE (rights_cmsg_len (length kept))
                  >? rmsg_controllen msg)) as Hplaced.
  { destruct (existsb is_rights control) eqn:Hex.
    - apply existsb_exists in Hex as (c & Hin & Hc).
      destruct (_ >? _); [|done].
      assert (c ∈ filter (λ c, is_rights c = true) control) as Hc'.
      { apply list_elem_of_filter. split; [done | by apply list_elem_of_In]. }
      rewrite Hrights in Hc'. by apply elem_of_nil in Hc'.
    - destruct (_ >? _); [done|].
      assert (mk_cmsghdr (rights_cmsg_len (length kept)) SOL_SOCKET SCM_RIGHTS kept
              ∈ filter (λ c, is_rights c = true) control) as Hc'.
      { rewrite Hrights. apply list_elem_of_here. }
      apply list_elem_of_filter in Hc' as [_ Hin%list_elem_of_In].
      assert (existsb is_rights control = true) as Hex'.
      { apply existsb_exists. eexists. split; [exact Hin | done]. }
      congruence. }
  split_and!.
  - done.
  - destruct (peer_ this);
      by rewrite ?get_emit, get_set_fd_table, get_put_eq.
  - cbn [out_flags]. case_bool_decide as Hd.
    + rewrite Hflags. split; [done | by intros []].
    + rewrite flag_set_lor_ctrunc. done.
  - unfold delivered_rights. cbn [out_control]. rewrite Hrights, Hplaced.
    by destruct (_ >? _).
  - cbn [out_control]. rewrite Hplaced. intros Hover%negb_false_iff.
    destruct Hfit as [-> | Hle]; [done|].
    rewrite Z.gtb_ltb in Hover. apply Z.ltb_lt in Hover. lia.
  - destruct (peer_ this); unfold emit; simpl;
      by rewrite ?app_nil_r, <- ?app_assoc.
  - by destruct (peer_ this).
  - simpl. lia.
Qed.
End ControlTruncation.

(** ** C1: control messages on send *)

Section ControlOnSend.
Context {FdTable : Type} `{!VirtualFileSystem FdTable}
        `{!CmsgLayout} `{!SocketUtil}.
Implicit Types w : World FdTable.


Lemma dup_fds_app wire1 wire2 fds tbl log :
  dup_fds (wire1 ++ wire2) fds tbl log
  = let '(fds1, tbl1, log1) := dup_fds wire1 fds tbl log in
    dup_fds wire2 fds1 tbl1 log1.
Proof.
  revert fds tbl log. induction wire1 as [|fd rest IH]; intros; [done|].
  simpl. destruct (DupLocked tbl fd (-1)). apply IH.
Qed.

(** The walk over the control headers duplicates exactly the descriptors
    of [wire_rights]: headers of any other kind contribute nothing. *)
Lemma collect_rights_wire control fds tbl log :
  collect_rights control fds tbl log
  = dup_fds (wire_rights control) fds tbl log.
Proof.
  revert fds tbl log. induction control as [|cmsg rest IH]; intros; [done|].
  cbn [collect_rights wire_rights flat_map]. fold (wire_rights rest).
  unfold is_rights.
  destruct ((cmsg_level cmsg =? SOL_SOCKET) && (cmsg_type cmsg =? SCM_RIGHTS)
            && (CMSG_LEN 0 <=? cmsg_len cmsg)).
  - rewrite dup_fds_app. destruct (dup_fds _ fds tbl log) as [[fds1 tbl1] log1].
    apply IH.
  - apply IH.
Qed.

Lemma wire_rights_filter control :
  wire_rights (filter (λ c, is_rights c = true) control) = wire_rights control.
Proof.
  induction control as [|cmsg rest IH]; [done|].
  rewrite filter_cons. unfold wire_rights in *.
  destruct (decide (is_rights cmsg = true)) as [Hr|Hr]; simpl.
  - by rewrite IH.
  - apply not_true_is_false in Hr. rewrite Hr. simpl. by rewrite IH.
Qed.

Lemma send_data_cmsg_queue this msg cred :
  cmsg_fd_queue_ (send_data this msg cred).1.1 = cmsg_fd_queue_ this.
Proof.
  unfold send_data. destruct (0 <? length (smsg_iov msg))%nat; [|done].
  case_bool_decide; [|done].
  by destruct (stream_write_loop _ _) as [[??]?].
Qed.

Lemma dup_fds_duplicates wire_fds fds tbl log :
  ∃ dups tbl',
    dup_fds wire_fds fds tbl log
    = (fds ++ dups, tbl', log ++ map DupLockedCall wire_fds)
    ∧ duplicates wire_fds tbl dups tbl'.
Proof.
  revert fds tbl log. induction wire_fds as [|fd rest IH]; intros fds tbl log.
  - exists [], tbl. simpl. by rewrite !app_nil_r.
  - cbn [dup_fds]. destruct (DupLocked tbl fd (-1)) as [new_fd tbl1] eqn:Hdup.
    destruct (IH (fds ++ [new_fd]) tbl1 (log ++ [DupLockedCall fd]))
      as (dups & tbl' & -> & Hrest).
    exists (new_fd :: dups), tbl'. simpl.
    rewrite <- !app_assoc. simpl. rewrite Hdup. eauto.
Qed.

Lemma wire_rights_no_rights control :
  existsb is_rights control = false → wire_rights control = [].
Proof.
  unfold wire_rights. induction control as [|c l IH]; [done|]. simpl.
  intros Hex. apply orb_false_iff in Hex as [-> Hl]. simpl. by apply IH.
Qed.

(** What a HandleSendmsgLocked that delivers leaves of the control FIFO
    of the endpoint it runs on, of the descriptor table and of the log. *)
Lemma HandleSendmsgLocked_delivers p (msg : send_msghdr) cred w w' n :
  HandleSendmsgLocked p msg cred w = Some (w', Ret n) →
  0 < n →
  ∃ before,
    cmsg_fd_queue_ <$> get p w = Some before
    ∧ if 0 <? smsg_controllen msg
      then ∃ fds,
             cmsg_fd_queue_ <$> get p w' = Some (before ++ [fds])
             ∧ duplicates (wire_rights (smsg_control msg)) (fd_table w)
                 fds (fd_table w')
             ∧ (existsb is_rights (smsg_control msg) = false → fds = [])
             ∧ effects w'
               = effects w ++ map DupLockedCall (wire_rights (smsg_control msg))
                 ++ [Broadcast; NotifyListeners p]
      else cmsg_fd_queue_ <$> get p w' = Some before
           ∧ fd_table w' = fd_table w
           ∧ effects w' = effects w ++ [Broadcast; NotifyListeners p].
Proof.
  intros Hsend Hn. unfold HandleSendmsgLocked in Hsend.
  destruct (get p w) as [pobj|] eqn:Hp; [|done].
  simpl in Hsend. exists (cmsg_fd_queue_ pobj). split; [done|].
  pose proof (send_data_cmsg_queue pobj msg cred) as Hqueue.
  destruct (send_data pobj msg cred) as [[this1 attempted] sent].
  simpl in Hqueue.
  rewrite collect_rights_wire in Hsend.
  destruct (dup_fds_duplicates (wire_rights (smsg_control msg)) [] (fd_table w) [])
    as (fds & tbl' & Hdup & Hfds).
  rewrite Hdup in Hsend. simpl in Hsend.
  assert (sent = n ∧ (sent =? 0) = false) as [-> Hnz].
  { destruct (decide (sent = 0)) as [-> | Hne].
    - simpl in Hsend. destruct (negb (attempted =? 0)); [done|].
      injection Hsend as _ <-. lia.
    - apply Z.eqb_neq in Hne as Hne'. rewrite Hne' in Hsend. simpl in Hsend.
      split; [|done]. destruct (0 <? smsg_controllen msg);
        destruct (0 <? sent); by injection Hsend as _ ->. }
  assert ((0 <? n) = true) as Hpos by (by apply Z.ltb_lt).
  rewrite Hnz, Hpos in Hsend. simpl in Hsend.
  destruct (0 <? smsg_controllen msg); injection Hsend as <-.
  - exists fds. split_and!.
    + rewrite !get_emit, get_set_fd_table, get_put_eq. simpl. by rewrite Hqueue.
    + done.
    + intros Hex. rewrite (wire_rights_no_rights _ Hex) in Hfds. by destruct fds.
    + unfold emit; simpl. by rewrite <- ?app_assoc.
  - split_and!.
    + rewrite !get_emit, get_set_fd_table, get_put_eq. simpl. by rewrite Hqueue.
    + done.
    + unfold emit; simpl. by rewrite <- ?app_assoc.
Qed.

(** C1, as the code has it.  A sendmsg that delivers at least one payload
    byte has a receiver: the peer of the sending endpoint or, for a
    datagram endpoint without a peer, the endpoint bound to the name its
    connect recorded.  It pushes exactly one entry onto the receiver's
    control FIFO if and only if the message has control data at all
    ([msg_controllen > 0]).  The entry lists the duplicates [DupLocked]
    answered for the descriptors of the SCM_RIGHTS headers, one for each
    and in their order; control messages of any other kind contribute no
    descriptor, so the entry is empty when the control data holds no
    SCM_RIGHTS header.  (The debug assertions of HandleSendmsgLocked
    are taken as compiled out.) *)
Theorem rights_entry_iff_control_sent
    w self this (msg : send_msghdr) flags w' n :
  get self w = Some this →
  sendmsg self msg flags w = Some (w', Ret n) →
  0 < n →
  ∃ p before,
    (peer_ this = Some p
     ∨ (peer_ this = None ∧ socket_type_ this = SOCK_DGRAM
        ∧ str_empty (logd_target_name_ this) = false
        ∧ NameRegistry.GetByName (logd_target_name_ this) (logd_ns w) = Some p))
    ∧ cmsg_fd_queue_ <$> get p w = Some before
    ∧ wire_rights (smsg_control msg)
      = wire_rights (filter (λ c, is_rights c = true) (smsg_control msg))
    ∧ if 0 <? smsg_controllen msg
      then ∃ fds,
             cmsg_fd_queue_ <$> get p w' = Some (before ++ [fds])
             ∧ duplicates (wire_rights (smsg_control msg)) (fd_table w)
                 fds (fd_table w')
             ∧ (existsb is_rights (smsg_control msg) = false → fds = [])
             ∧ effects w'
               = effects w ++ map DupLockedCall (wire_rights (smsg_control msg))
                 ++ [Broadcast; NotifyListeners p]
      else cmsg_fd_queue_ <$> get p w' = Some before
           ∧ fd_table w' = fd_table w
           ∧ effects w' = effects w ++ [Broadcast; NotifyListeners p].
Proof.
  intros Hget Hsend Hn.
  unfold sendmsg in Hsend. rewrite Hget in Hsend; simpl in Hsend.
  destruct (bool_decide (stream_dir_ this = READ_ONLY)); [done|].
  destruct (negb _ && negb _); [done|].
  assert (∃ p,
            (peer_ this = Some p
             ∨ (peer_ this = None ∧ socket_type_ this = SOCK_DGRAM
                ∧ str_empty (logd_target_name_ this) = false
                ∧ NameRegistry.GetByName (logd_target_name_ this) (logd_ns w)
                  = Some p))
            ∧ HandleSendmsgLocked p msg (my_cred_ this) w = Some (w', Ret n))
    as (p & Hroute & Hhandle).
  { destruct (peer_ this) as [p|]; [by eauto|].
    case_bool_decide as Hty; [|done].
    destruct (str_empty (logd_target_name_ this)) eqn:Hname; [done|].
    simpl in Hsend.
    destruct (NameRegistry.GetByName _ _) as [b|] eqn:Hb; [|done].
    exists b. split; [right|]; done. }
  destruct (HandleSendmsgLocked_delivers _ _ _ _ _ _ Hhandle Hn)
    as (before & Hbefore & Hrest).
  exists p, before. split_and!; [done | done | by rewrite wire_rights_filter | done].
Qed.
End ControlOnSend.

(** ** C9: accept when the descriptor table is full *)

Section AcceptOutOfDescriptors.
Context {FdTable : Type} `{!VirtualFileSystem FdTable}
        `{!CmsgLayout} `{!SocketUtil}.
Implicit Types w : World FdTable.

(** The skip drops a prefix of closed clients and stops at the first one
    that is still open. *)
Lemma skip_closed_spec q w q' :
  skip_closed q w = Some q' →
  ∃ skipped,
    q = skipped ++ q'
    ∧ Forall (closed_in w) skipped
    ∧ match q' with
      | [] => True
      | front :: _ => ∃ obj, get front w = Some obj ∧ IsClosed obj = false
      end.
Proof.
  revert q'. induction q as [|front rest IH]; intros q' Hskip; simpl in Hskip.
  - injection Hskip as <-. by exists [].
  - destruct (get front w) as [obj|] eqn:Hfront; [simpl in Hskip | done].
    destruct (IsClosed obj) eqn:Hclosed.
    + destruct (IH _ Hskip) as (skipped & -> & Hall & Hhead).
      exists (front :: skipped). split_and!; [done | | done].
      constructor; [by exists obj | done].
    + injection Hskip as <-. exists []. split_and!; [done | done | eauto].
Qed.

(** C9, as the code has it.  When accept finds a client that is still
    open and the VFS cannot supply a descriptor for the server endpoint,
    accept fails with EMFILE.  The clients that had been closed while
    queued ahead of it have been discarded by then; apart from that the
    listener's queue is unchanged, with that client at its head.  No
    server endpoint is left in the store, and every endpoint keeps its
    state and its peer link. *)
Theorem accept_emfile
    w self this (addr : bool) addrlen timed_out getpid getuid
    client rest fd tbl :
  get self w = Some this →
  socket_type_ this ≠ SOCK_DGRAM →
  (addr = true → VerifyOutputSocketAddress addr addrlen = 0) →
  connect_state_ this = SOCKET_LISTENING →
  is_block this = true →
  IsClosed this = false →
  skip_closed (connection_queue_ this) w = Some (client :: rest) →
  AddFileStreamLocked (fd_table w) (next_id w) = (fd, tbl) →
  fd < 0 →
  let w' := set_fd_table tbl
              (put self (set_connection_queue_ (client :: rest) this) w) in
  accept self addr addrlen timed_out getpid getuid w = Some (w', Err EMFILE)
  ∧ (∃ skipped,
        connection_queue_ this = skipped ++ client :: rest
        ∧ Forall (closed_in w) skipped
        ∧ ∃ obj, get client w = Some obj ∧ IsClosed obj = false)
  ∧ (∀ s obj, get s w = Some obj →
        ∃ obj', get s w' = Some obj'
                ∧ connect_state_ obj' = connect_state_ obj
                ∧ peer_ obj' = peer_ obj
                ∧ (s ≠ self → obj' = obj))
  ∧ (∀ s, get s w = None → get s w' = None).
Proof.
  intros Hget Hty Haddr Hst Hblock Hopen Hskip Hadd Hfd w'.
  split_and!.
  - unfold accept. rewrite Hget; simpl.
    rewrite (bool_decide_false _ Hty).
    assert ((if addr then VerifyOutputSocketAddress addr addrlen else 0) = 0)
      as -> by (destruct addr; auto).
    simpl. rewrite (bool_decide_true _ Hst), Hblock. simpl.
    unfold WaitForOpenedConnectToAccept. rewrite Hget; simpl.
    rewrite Hskip; simpl.
    unfold accept_paired. rewrite get_put_eq; simpl.
    unfold IsClosed in *. simpl. rewrite Hopen.
    change (fd_table (put self _ w)) with (fd_table w).
    change (next_id (put self _ w)) with (next_id w).
    rewrite Hadd. apply Z.ltb_lt in Hfd. by rewrite Hfd.
  - destruct (skip_closed_spec _ _ _ Hskip) as (skipped & Hq & Hall & Hhead).
    eauto.
  - intros s obj Hs. subst w'. rewrite get_set_fd_table, get_put.
    case_decide as Heq.
    + subst s. rewrite Hget in Hs. injection Hs as <-.
      eexists. split_and!; [done | done | done | done].
    + eauto.
  - intros s Hs. subst w'. rewrite get_set_fd_table, get_put.
    case_decide; [congruence | done].
Qed.
End AcceptOutOfDescriptors.

(** ** C8: peer credentials *)

(** *** Stores along a call *)

Section Evolution.
Context {FdTable : Type}.
Implicit Types w : World FdTable.
Implicit Types R : LocalSocket → LocalSocket → Prop.

Lemma same_link_refl o : same_link o o.
Proof. by repeat split. Qed.

Lemma same_link_keeps_creds o o' : same_link o o' → keeps_creds o o'.
Proof. intros (? & ? & ?). by split. Qed.

Lemma same_link_keeps_creds_or_paired o o' :
  same_link o o' → keeps_creds_or_paired o o'.
Proof. intros (? & ? & ?). split; auto. Qed.

#[global] Instance keeps_creds_refl : Reflexive keeps_creds.
Proof. by split. Qed.

#[global] Instance keeps_creds_trans : Transitive keeps_creds.
Proof. intros o1 o2 o3 [? ?] [? ?]. split; congruence. Qed.

#[global] Instance keeps_creds_or_paired_refl : Reflexive keeps_creds_or_paired.
Proof. intros o. split; auto. Qed.

#[global] Instance keeps_creds_or_paired_trans : Transitive keeps_creds_or_paired.
Proof.
  intros o1 o2 o3 [Hm1 H1] [Hm2 H2]. split; [congruence|].
  destruct H2 as [[Hc2 Hp2] | ?]; [|by right].
  destruct H1 as [[Hc1 Hp1] | Hsome].
  - left. split; congruence.
  - right. by rewrite Hp2.
Qed.

Lemma default_unless_paired_step o o' :
  default_unless_paired o → keeps_creds_or_paired o o' →
  default_unless_paired o'.
Proof.
  intros Hd [_ [[Hc Hp] | ?]]; [|by right].
  destruct Hd as [? | ?]; [left; congruence | right; by rewrite Hp].
Qed.

Lemma evolves_refl R F w : Reflexive R → evolves R F w w.
Proof.
  intros HR Hwf. split_and!; [done | done |].
  intros s. by destruct (get s w).
Qed.

Lemma evolves_trans R F w w1 w2 :
  Transitive R → (∀ o o', F o → R o o' → F o') →
  evolves R F w w1 → evolves R F w1 w2 → evolves R F w w2.
Proof.
  intros HR HF H1 H2 Hwf.
  destruct (H1 Hwf) as (Hwf1 & Hn1 & Hs1).
  destruct (H2 Hwf1) as (Hwf2 & Hn2 & Hs2).
  split_and!; [done | lia |].
  intros s. specialize (Hs1 s). specialize (Hs2 s).
  destruct (get s w2) as [o2|].
  - destruct (get s w1) as [o1|].
    + destruct (get s w) as [o|]; [by etrans | by eapply HF].
    + by rewrite Hs1.
  - by rewrite Hs2 in Hs1.
Qed.

Lemma evolves_weaken R F R' F' w w' :
  (∀ o o', R o o' → R' o o') → (∀ o, F o → F' o) →
  evolves R F w w' → evolves R' F' w w'.
Proof.
  intros HR HF H Hwf. destruct (H Hwf) as (Hwf' & Hn & Hs).
  split_and!; [done | done |].
  intros s. specialize (Hs s).
  destruct (get s w'); [|done]. destruct (get s w); auto.
Qed.

(** A store that differs only outside the endpoints. *)
Lemma evolves_same_sockets R F w w' :
  Reflexive R → sockets w' = sockets w → next_id w' = next_id w →
  evolves R F w w'.
Proof.
  intros HR Hs Hn Hwf. unfold ids_below_next, get in *. rewrite Hs, Hn.
  split_and!; [done | done |].
  intros s. by destruct (sockets w !! s).
Qed.

Lemma evolves_put R F s o o' w :
  Reflexive R → get s w = Some o → R o o' → evolves R F w (put s o' w).
Proof.
  intros HR Hget Ho Hwf. split_and!.
  - intros s' Hs'. rewrite get_put in Hs'. change (next_id (put s o' w)) with (next_id w).
    case_decide; subst; apply Hwf; [by rewrite Hget | done].
  - done.
  - intros s'. rewrite get_put. case_decide.
    + subst. by rewrite Hget.
    + by destruct (get s' w).
Qed.

Lemma get_alloc s obj w :
  get s (alloc obj w).2
  = if decide (next_id w = s) then Some obj else get s w.
Proof. apply (get_put (next_id w) s obj w). Qed.

Lemma evolves_alloc R F obj w :
  Reflexive R → F obj → evolves R F w (alloc obj w).2.
Proof.
  intros HR HF Hwf. split_and!.
  - intros s Hs. rewrite get_alloc in Hs. simpl.
    case_decide; [lia|]. specialize (Hwf s Hs). lia.
  - simpl. lia.
  - intros s. rewrite get_alloc. case_decide.
    + subst. destruct (get (next_id w) w) eqn:Hn; [|done].
      assert (is_Some (get (next_id w) w)) as Hs by eauto.
      specialize (Hwf _ Hs). lia.
    + by destruct (get s w).
Qed.
End Evolution.

Section EvolutionSteps.
Context {FdTable : Type}.
Implicit Types w : World FdTable.
Variable R : LocalSocket → LocalSocket → Prop.
Variable F : LocalSocket → Prop.
Hypothesis R_refl : Reflexive R.
Hypothesis R_trans : Transitive R.
Hypothesis F_step : ∀ o o', F o → R o o' → F o'.

Lemma evolves_emit es w w1 : evolves R F w w1 → evolves R F w (emit es w1).
Proof.
  intros H. eapply evolves_trans; [done | done | exact H |].
  by apply evolves_same_sockets.
Qed.

Lemma evolves_set_fd_table tbl w w1 :
  evolves R F w w1 → evolves R F w (set_fd_table tbl w1).
Proof.
  intros H. eapply evolves_trans; [done | done | exact H |].
  by apply evolves_same_sockets.
Qed.

Lemma evolves_set_abstract_ns ns w w1 :
  evolves R F w w1 → evolves R F w (set_abstract_ns ns w1).
Proof.
  intros H. eapply evolves_trans; [done | done | exact H |].
  by apply evolves_same_sockets.
Qed.

Lemma evolves_set_logd_ns ns w w1 :
  evolves R F w w1 → evolves R F w (set_logd_ns ns w1).
Proof.
  intros H. eapply evolves_trans; [done | done | exact H |].
  by apply evolves_same_sockets.
Qed.

Lemma evolves_put_after s o1 o' w w1 :
  evolves R F w w1 → get s w1 = Some o1 → R o1 o' →
  evolves R F w (put s o' w1).
Proof.
  intros H Hget Ho. eapply evolves_trans; [done | done | exact H |].
  by eapply evolves_put.
Qed.

Lemma evolves_alloc_after obj w w1 :
  evolves R F w w1 → F obj → evolves R F w (alloc obj w1).2.
Proof.
  intros H Hobj. eapply evolves_trans; [done | done | exact H |].
  by apply evolves_alloc.
Qed.
End EvolutionSteps.

Create HintDb evolve.
#[local] Hint Resolve evolves_refl evolves_emit evolves_set_fd_table
  evolves_set_abstract_ns evolves_set_logd_ns : evolve.
#[local] Hint Resolve keeps_creds_refl keeps_creds_trans
  keeps_creds_or_paired_refl keeps_creds_or_paired_trans
  default_unless_paired_step same_link_refl same_link_keeps_creds
  same_link_keeps_creds_or_paired : evolve.

(** *** Each call, one by one *)

Section CallsEvolve.
Context {FdTable : Type} {vfs : VirtualFileSystem FdTable}
        {layout : CmsgLayout} {util : SocketUtil}.
Implicit Types w : World FdTable.

#[local] Arguments NameRegistry.Bind : simpl never.

#[local] Abbreviation quietly := (evolves keeps_creds (λ _, False)).
#[local] Abbreviation pairing :=
  (evolves keeps_creds_or_paired default_unless_paired).

(** A store obtained by putting back an endpoint that differs from the
    stored one in fields other than credentials and peer link. *)
Lemma pairing_put s o o' w w1 :
  pairing w w1 → get s w1 = Some o → same_link o o' →
  pairing w (put s o' w1).
Proof.
  intros. eapply evolves_put_after; eauto 8 with evolve.
Qed.

Lemma quietly_put s o o' w w1 :
  quietly w w1 → get s w1 = Some o → keeps_creds o o' →
  quietly w (put s o' w1).
Proof.
  intros. eapply evolves_put_after; eauto 8 with evolve.
Qed.

Lemma socket_evolves oflag ty dir getpid getuid w :
  pairing w (socket oflag ty dir getpid getuid w).2.
Proof.
  unfold socket. apply evolves_alloc; [apply _ | by left].
Qed.

Lemma set_peer_evolves self peer w0 w w' :
  pairing w0 w → set_peer self peer w = Some w' → pairing w0 w'.
Proof.
  unfold set_peer. intros Hw0 H.
  destruct (get self w) as [this|] eqn:Hs; [simpl in H | done].
  destruct (get peer w) as [peer_obj|]; [simpl in H | done].
  injection H as <-.
  eapply evolves_put_after; eauto 8 with evolve.
  split; [done | right; by eexists].
Qed.

Lemma pair_up_evolves a b w w' : pair_up a b w = Some w' → pairing w w'.
Proof.
  unfold pair_up. intros H.
  destruct (set_peer a b w) as [w1|] eqn:H1; [simpl in H | done].
  eapply set_peer_evolves; [|exact H].
  eapply set_peer_evolves; [|exact H1]. eauto 8 with evolve.
Qed.

Lemma OnLastFileRef_evolves self w0 w w' :
  quietly w0 w → OnLastFileRef self w = Some w' → quietly w0 w'.
Proof.
  unfold OnLastFileRef. intros Hw0 H.
  destruct (get self w) as [this|] eqn:Hs; [simpl in H | done].
  assert (∀ w1, quietly w0 w1 →
            quietly w0
              (if str_empty (logd_name_ this)
               then (if str_empty (abstract_name_ this) then w1
                     else set_abstract_ns
                            (NameRegistry.Bind (abstract_name_ this) None
                               (abstract_ns w1)).1 w1)
               else set_logd_ns
                      (NameRegistry.Bind (logd_name_ this) None
                         (logd_ns (if str_empty (abstract_name_ this) then w1
                                   else set_abstract_ns
                                          (NameRegistry.Bind (abstract_name_ this)
                                             None (abstract_ns w1)).1 w1))).1
                      (if str_empty (abstract_name_ this) then w1
                       else set_abstract_ns
                              (NameRegistry.Bind (abstract_name_ this) None
                                 (abstract_ns w1)).1 w1))) as Hns.
  { intros w1 H1.
    destruct (str_empty (logd_name_ this)), (str_empty (abstract_name_ this));
      eauto 8 with evolve. }
  destruct (peer_ this) as [p|].
  - destruct (get p w) as [peer_obj|] eqn:Hp; [simpl in H | done].
    destruct (get self (put p (set_peer_ None peer_obj) w)) as [this'|] eqn:Hs';
      [simpl in H | done].
    injection H as <-. apply Hns. apply evolves_emit; eauto 8 with evolve.
    eapply quietly_put; [|exact Hs' | done].
    eapply quietly_put; [exact Hw0 | exact Hp | done].
  - simpl in H. injection H as <-. by apply Hns.
Qed.

Lemma close_evolves self w w' : close self w = Some w' → quietly w w'.
Proof.
  unfold close. intros H.
  destruct (get self w) as [this|] eqn:Hs; [simpl in H | done].
  eapply OnLastFileRef_evolves; [|exact H].
  eapply quietly_put; [eauto 8 with evolve | exact Hs | done].
Qed.

Lemma bind_evolves self addr addrlen w w' r :
  bind self addr addrlen w = Some (w', r) → pairing w w'.
Proof.
  unfold bind. intros H.
  destruct (get self w) as [this|] eqn:Hs; [simpl in H | done].
  destruct (ValidateSockaddr addr addrlen); [simplify_eq; eauto 8 with evolve|].
  destruct (negb _ || negb _); [simplify_eq; eauto 8 with evolve|].
  destruct (ConvertSockaddrToName addr addrlen) as [name|].
  - destruct (NameRegistry.Bind name (Some self) (logd_ns w)) as [ns result].
    destruct result as [[]| |]; simplify_eq; eauto 8 with evolve.
    eapply pairing_put; [eauto 8 with evolve | exact Hs | done].
  - destruct (ConvertSockaddrToAbstractName addr addrlen) as [name|];
      [|simplify_eq; eauto 8 with evolve].
    destruct (NameRegistry.Bind name (Some self) (abstract_ns w)) as [ns result].
    destruct result as [[]| |]; simplify_eq; eauto 8 with evolve.
    eapply pairing_put; [eauto 8 with evolve | exact Hs | done].
Qed.

Lemma listen_evolves self backlog w w' r :
  listen self backlog w = Some (w', r) → pairing w w'.
Proof.
  unfold listen. intros H.
  destruct (get self w) as [this|] eqn:Hs; [simpl in H | done].
  destruct (bool_decide _); [simplify_eq; eauto 8 with evolve|].
  destruct (_ && _); simplify_eq; eauto 8 with evolve.
  eapply pairing_put; [eauto 8 with evolve | exact Hs | done].
Qed.

Lemma setsockopt_evolves self level optname optval optlen w w' r :
  setsockopt self level optname optval optlen w = Some (w', r) → pairing w w'.
Proof.
  unfold setsockopt. intros H.
  destruct (get self w) as [this|] eqn:Hs; [simpl in H | done].
  destruct (_ && _); [|simplify_eq; eauto 8 with evolve].
  destruct (negb _); [simplify_eq; eauto 8 with evolve|].
  destruct optval; simpl in H; simplify_eq.
  eapply pairing_put; [eauto 8 with evolve | exact Hs | done].
Qed.

Lemma HandleConnectLocked_evolves self client w0 w w' ok :
  pairing w0 w → HandleConnectLocked self client w = Some (w', ok) →
  pairing w0 w'.
Proof.
  unfold HandleConnectLocked. intros Hw0 H.
  destruct (get self w) as [this|] eqn:Hs; [simpl in H | done].
  destruct (bool_decide _); [|by simplify_eq].
  destruct (negb _); [by simplify_eq|].
  destruct (_ =? _); [by simplify_eq|].
  destruct (_ =? _)%nat; simplify_eq; [apply evolves_emit; eauto with evolve|];
    (eapply pairing_put; [exact Hw0 | exact Hs | done]).
Qed.

Lemma WaitForLocalSocketConnect_evolves self w0 w w' parked :
  pairing w0 w → WaitForLocalSocketConnect self w = Some (w', parked) →
  pairing w0 w'.
Proof.
  unfold WaitForLocalSocketConnect. intros Hw0 H.
  destruct (get self w) as [this|] eqn:Hs; [simpl in H | done].
  destruct (bool_decide _); simplify_eq; [|done].
  eapply pairing_put; [exact Hw0 | exact Hs | done].
Qed.

Lemma connect_evolves self addr addrlen w w' r :
  connect self addr addrlen w = Some (w', r) → pairing w w'.
Proof.
  unfold connect. intros H.
  destruct (get self w) as [this|] eqn:Hs; [simpl in H | done].
  destruct (bool_decide _); [simplify_eq; eauto with evolve|].
  destruct (negb _ && negb _); [simplify_eq; eauto with evolve|].
  destruct (ValidateSockaddr addr addrlen); [simplify_eq; eauto with evolve|].
  match type of H with
  | match ?found with _ => _ end = _ =>
      destruct found as [[logd_name [bound_socket|]]|]
  end; try (simplify_eq; eauto with evolve; fail).
  destruct (get bound_socket w) as [bound|]; [simpl in H | done].
  destruct (negb _); [simplify_eq; eauto with evolve|].
  destruct (HandleConnectLocked bound_socket self w) as [[w1 ok]|] eqn:Hh;
    [simpl in H | done].
  assert (pairing w w1) as Hw1.
  { eapply HandleConnectLocked_evolves; [|exact Hh]. eauto with evolve. }
  destruct ok; simpl in H; [|by simplify_eq].
  destruct (get self w1) as [this1|] eqn:Hs1; [simpl in H | done].
  destruct (WaitForLocalSocketConnect self _) as [[w3 parked]|] eqn:Hwait;
    [simpl in H | done].
  injection H as <- _.
  eapply WaitForLocalSocketConnect_evolves; [|exact Hwait].
  eapply pairing_put; [exact Hw1 | exact Hs1 | done].
Qed.

Lemma accept_paired_evolves self getpid getuid w0 w w' r :
  ids_below_next w → pairing w0 w →
  accept_paired self getpid getuid w = Some (w', r) → pairing w0 w'.
Proof.
  unfold accept_paired. intros Hwf Hw0 H.
  destruct (get self w) as [this|] eqn:Hs; [simpl in H | done].
  destruct (IsClosed this); [by simplify_eq|].
  destruct (connection_queue_ this) as [|client rest]; [by simplify_eq|].
  destruct (AddFileStreamLocked (fd_table w) (next_id w)) as [accept_fd tbl].
  destruct (accept_fd <? 0); [simplify_eq; eauto with evolve|].
  assert (pairing w0
            (put self (set_connection_queue_ rest this)
               (alloc (LocalSocket_new (oflag_ this) (socket_type_ this)
                         READ_WRITE getpid getuid)
                  (set_fd_table tbl w)).2)) as Hw3.
  { eapply (pairing_put _ this); [| | by repeat split].
    - apply evolves_alloc_after; eauto with evolve. by left.
    - rewrite get_alloc. change (next_id (set_fd_table tbl w)) with (next_id w).
      rewrite decide_False; [exact Hs|].
      assert (is_Some (get self w)) as Hsome by eauto.
      specialize (Hwf _ Hsome). lia. }
  destruct (set_peer (next_id w) client _) as [w4|] eqn:H4; [simpl in H | done].
  destruct (set_peer client _ w4) as [w5|] eqn:H5; [simpl in H | done].
  injection H as <- _. apply evolves_emit; eauto with evolve.
  eapply set_peer_evolves; [|exact H5].
  eapply set_peer_evolves; [exact Hw3 | exact H4].
Qed.

Lemma accept_evolves self addr addrlen timed_out getpid getuid w w' r :
  accept self addr addrlen timed_out getpid getuid w = Some (w', r) →
  pairing w w'.
Proof.
  unfold accept. intros H.
  destruct (get self w) as [this|] eqn:Hs; [simpl in H | done].
  destruct (bool_decide _); [simplify_eq; eauto with evolve|].
  destruct (negb _); [simplify_eq; eauto with evolve|].
  destruct (negb _); [simplify_eq; eauto with evolve|].
  destruct (negb _); [simplify_eq; eauto with evolve|].
  unfold WaitForOpenedConnectToAccept in H. rewrite Hs in H; simpl in H.
  destruct (skip_closed (connection_queue_ this) w) as [q|]; [simpl in H | done].
  assert (pairing w (put self (set_connection_queue_ q this) w)) as Hw1.
  { eapply pairing_put; [eauto with evolve | exact Hs | done]. }
  assert (∀ parked,
            (if (parked : bool)
             then Some (put self (set_connection_queue_ q this) w, Suspended)
             else accept_paired self getpid getuid
                    (put self (set_connection_queue_ q this) w))
            = Some (w', r) → pairing w w') as Hrest.
  { intros [] Hp; [by simplify_eq|].
    intros Hwf. eapply accept_paired_evolves; [| exact Hw1 | exact Hp | exact Hwf].
    by destruct (Hw1 Hwf). }
  destruct q; simpl in H; [by apply (Hrest (negb timed_out)) | by apply (Hrest false)].
Qed.

Lemma recv_data_same_link this msg :
  same_link this (recv_data this msg).1.1.1.1.
Proof.
  unfold recv_data. case_bool_decide.
  - destruct (0 <? _); [|by repeat split].
    by destruct (stream_read_loop _ _) as [[??]?].
  - destruct (queue_ this); [by repeat split|].
    by destruct (datagram_copy_loop _ _).
Qed.

Lemma build_control_same_link controllen cred this tbl flags :
  same_link this (build_control controllen cred this tbl flags).1.1.1.1.1.
Proof.
  destruct (build_control_spec controllen cred this tbl flags)
    as (? & ? & ? & ? & _ & -> & _). by repeat split.
Qed.

Lemma send_data_same_link this msg cred :
  same_link this (send_data this msg cred).1.1.
Proof.
  unfold send_data. destruct (0 <? _)%nat; [|by repeat split].
  case_bool_decide; [|by repeat split].
  by destruct (stream_write_loop _ _) as [[??]?].
Qed.

Lemma same_link_trans o1 o2 o3 :
  same_link o1 o2 → same_link o2 o3 → same_link o1 o3.
Proof. intros (? & ? & ?) (? & ? & ?). repeat split; congruence. Qed.

Lemma recvmsg_ready_evolves self msg w w' r out :
  recvmsg_ready self msg w = Some (w', r, out) → pairing w w'.
Proof.
  unfold recvmsg_ready. intros H.
  destruct (get self w) as [this|] eqn:Hs; [simpl in H | done].
  pose proof (recv_data_same_link this msg) as Hdata.
  destruct (recv_data this msg) as [[[[this1 outs] bytes_read] flags1] cred].
  simpl in Hdata.
  assert (∀ this2 tbl log w1,
            same_link this this2 →
            w1 = emit log (set_fd_table tbl (put self this2 w)) →
            pairing w w1
            ∧ pairing w (match peer_ this with
                         | Some p => emit [NotifyListeners p] w1
                         | None => w1
                         end)) as Hfin.
  { intros this2 tbl log w1 Hlink ->.
    assert (pairing w (emit log (set_fd_table tbl (put self this2 w)))).
    { apply evolves_emit, evolves_set_fd_table; eauto with evolve.
      eapply pairing_put; [eauto with evolve | exact Hs | done]. }
    split; [done|]. destruct (peer_ this); [|done].
    apply evolves_emit; eauto with evolve. }
  destruct (bytes_read <=? 0).
  - destruct (Hfin this1 (fd_table w) [] _ Hdata eq_refl) as [H1 H2].
    destruct (0 <? bytes_read); [by simplify_eq|].
    destruct (_ && _); by simplify_eq.
  - pose proof (build_control_same_link (rmsg_controllen msg) cred this1
                  (fd_table w) flags1) as Hctl.
    destruct (build_control _ _ _ _ _)
      as [[[[[this2 control] controllen] tbl] log] flags2].
    simpl in Hctl.
    destruct (Hfin this2 tbl log _ (same_link_trans _ _ _ Hdata Hctl) eq_refl)
      as [H1 H2].
    destruct (0 <? bytes_read); [by simplify_eq|].
    destruct (_ && _); by simplify_eq.
Qed.

Lemma recvmsg_evolves self msg flags w w' r out :
  recvmsg self msg flags w = Some (w', r, out) → pairing w w'.
Proof.
  unfold recvmsg. intros H.
  destruct (get self w) as [this|]; [simpl in H | done].
  destruct (bool_decide _); [simplify_eq; eauto with evolve|].
  destruct (negb _ && negb _); [simplify_eq; eauto with evolve|].
  destruct (recvmsg_must_wait this flags w) as [[]|]; simpl in H;
    [simplify_eq; eauto with evolve | | done].
  by eapply recvmsg_ready_evolves.
Qed.

Lemma recvfrom_evolves self len flags addr addrlen w w' r bytes :
  recvfrom self len flags addr addrlen w = Some (w', r, bytes) → pairing w w'.
Proof.
  unfold recvfrom. intros H.
  destruct (addr || addrlen); [simplify_eq; eauto with evolve|].
  destruct (len =? 0)%nat; [simplify_eq; eauto with evolve|].
  destruct (recvmsg self _ 0 w) as [[[w1 r1] out]|] eqn:Hr; [simpl in H | done].
  injection H as <- _ _. by eapply recvmsg_evolves.
Qed.

Lemma HandleSendmsgLocked_evolves self msg cred w w' r :
  HandleSendmsgLocked self msg cred w = Some (w', r) → pairing w w'.
Proof.
  unfold HandleSendmsgLocked. intros H.
  destruct (get self w) as [this|] eqn:Hs; [simpl in H | done].
  pose proof (send_data_same_link this msg cred) as Hdata.
  destruct (send_data this msg cred) as [[this1 attempted] sent].
  simpl in Hdata.
  assert (∀ this2 tbl log,
            same_link this this2 →
            pairing w (if 0 <? sent
                       then emit [Broadcast; NotifyListeners self]
                              (emit log (set_fd_table tbl (put self this2 w)))
                       else emit log (set_fd_table tbl (put self this2 w))))
    as Hfin.
  { intros this2 tbl log Hlink.
    assert (pairing w (emit log (set_fd_table tbl (put self this2 w)))).
    { apply evolves_emit, evolves_set_fd_table; eauto with evolve.
      eapply pairing_put; [eauto with evolve | exact Hs | done]. }
    destruct (0 <? sent); [|done]. apply evolves_emit; eauto with evolve. }
  destruct (negb _ && (0 <? smsg_controllen msg)).
  - destruct (collect_rights _ _ _ _) as [[fds tbl] log].
    specialize (Hfin (set_cmsg_fd_queue_ (cmsg_fd_queue_ this1 ++ [fds]) this1)
                  tbl log).
    destruct ((sent =? 0) && _); simplify_eq; apply Hfin;
      (eapply same_link_trans; [exact Hdata | by repeat split]).
  - specialize (Hfin this1 (fd_table w) [] Hdata).
    destruct ((sent =? 0) && _); by simplify_eq.
Qed.

Lemma sendmsg_evolves self msg flags w w' r :
  sendmsg self msg flags w = Some (w', r) → pairing w w'.
Proof.
  unfold sendmsg. intros H.
  destruct (get self w) as [this|]; [simpl in H | done].
  destruct (bool_decide _); [simplify_eq; eauto with evolve|].
  destruct (negb _ && negb _); [simplify_eq; eauto with evolve|].
  destruct (peer_ this); [by eapply HandleSendmsgLocked_evolves|].
  destruct (bool_decide _); [|simplify_eq; eauto with evolve].
  match type of H with
  | match ?b with _ => _ end = _ => destruct b
  end; [by eapply HandleSendmsgLocked_evolves | simplify_eq; eauto with evolve].
Qed.

Lemma sendto_evolves self buf flags dest_addr addrlen w w' r :
  sendto self buf flags dest_addr addrlen w = Some (w', r) → pairing w w'.
Proof.
  unfold sendto. intros H.
  destruct (dest_addr || _); [simplify_eq; eauto with evolve|].
  destruct (_ =? 0)%nat; [simplify_eq; eauto with evolve|].
  by eapply sendmsg_evolves.
Qed.

(** Whatever the call, own credentials stay, and the peer's stay unless
    the endpoint comes out of the call with a peer; an endpoint that
    appears has the default peer credentials unless it has a peer. *)
Lemma step_evolves op w :
  evolves keeps_creds_unless_paired default_unless_paired w (step op w).
Proof.
  assert (∀ w', pairing w w' →
            evolves keeps_creds_unless_paired default_unless_paired w w')
    as Hpairing.
  { intros w'. apply evolves_weaken; [|done].
    intros o o' [Hm [[Hc _] | Hp]]; split; auto. }
  assert (∀ w', quietly w w' →
            evolves keeps_creds_unless_paired default_unless_paired w w')
    as Hquietly.
  { intros w'. apply evolves_weaken; [|done].
    intros o o' [Hm Hc]; split; auto. }
  destruct op; simpl.
  - apply Hpairing, socket_evolves.
  - destruct (pair_up a b w) eqn:H; simpl;
      [by eapply Hpairing, pair_up_evolves | eauto with evolve].
  - destruct (close s w) eqn:H; simpl;
      [by eapply Hquietly, close_evolves | eauto with evolve].
  - destruct (bind s addr addrlen w) as [[]|] eqn:H; simpl;
      [by eapply Hpairing, bind_evolves | eauto with evolve].
  - destruct (listen s backlog w) as [[]|] eqn:H; simpl;
      [by eapply Hpairing, listen_evolves | eauto with evolve].
  - destruct (connect s addr addrlen w) as [[]|] eqn:H; simpl;
      [by eapply Hpairing, connect_evolves | eauto with evolve].
  - destruct (accept s addr addrlen timed_out getpid getuid w) as [[]|] eqn:H;
      simpl; [by eapply Hpairing, accept_evolves | eauto with evolve].
  - destruct (recvmsg s msg flags w) as [[[]]|] eqn:H; simpl;
      [by eapply Hpairing, recvmsg_evolves | eauto with evolve].
  - destruct (recvfrom s len flags addr addrlen w) as [[[]]|] eqn:H; simpl;
      [by eapply Hpairing, recvfrom_evolves | eauto with evolve].
  - destruct (sendmsg s msg flags w) as [[]|] eqn:H; simpl;
      [by eapply Hpairing, sendmsg_evolves | eauto with evolve].
  - destruct (sendto s buf flags dest_addr addrlen w) as [[]|] eqn:H; simpl;
      [by eapply Hpairing, sendto_evolves | eauto with evolve].
  - destruct (setsockopt s level optname optval optlen w) as [[]|] eqn:H; simpl;
      [by eapply Hpairing, setsockopt_evolves | eauto with evolve].
Qed.
End CallsEvolve.

(** *** Peer links and the credentials that come with them *)

Section CallsKeepLinks.
Context {FdTable : Type} {vfs : VirtualFileSystem FdTable}
        {layout : CmsgLayout} {util : SocketUtil}.
Implicit Types w : World FdTable.

#[local] Arguments NameRegistry.Bind : simpl never.

#[local] Abbreviation calmly := (evolves calm unlinked).

Lemma calm_refl o : calm o o.
Proof. unfold calm. auto. Qed.

Lemma calm_trans o1 o2 o3 : calm o1 o2 → calm o2 o3 → calm o1 o3.
Proof.
  intros (Hm1 & Hc1 & Hp1) (Hm2 & Hc2 & Hp2).
  split_and!; [congruence | congruence |].
  destruct Hp2 as [Hp2 | Hp2]; [|by right].
  destruct Hp1 as [Hp1 | Hp1]; [left | right]; congruence.
Qed.

Lemma unlinked_step o o' : unlinked o → calm o o' → unlinked o'.
Proof. unfold unlinked. intros Ho (_ & _ & [Hp | Hp]); congruence. Qed.

Lemma same_link_calm o o' : same_link o o' → calm o o'.
Proof. intros (? & ? & ?). unfold calm. auto. Qed.

#[local] Instance calm_Reflexive : Reflexive calm := calm_refl.
#[local] Instance calm_Transitive : Transitive calm := calm_trans.

Lemma calmly_refl w : calmly w w.
Proof. apply evolves_refl, _. Qed.

Lemma calmly_put s o o' w w1 :
  calmly w w1 → get s w1 = Some o → calm o o' → calmly w (put s o' w1).
Proof.
  intros. eapply evolves_put_after; eauto using unlinked_step; apply _.
Qed.

Lemma calmly_emit es w w1 : calmly w w1 → calmly w (emit es w1).
Proof. apply evolves_emit; eauto using unlinked_step; apply _. Qed.

Lemma calmly_set_fd_table tbl w w1 :
  calmly w w1 → calmly w (set_fd_table tbl w1).
Proof. apply evolves_set_fd_table; eauto using unlinked_step; apply _. Qed.

Lemma calmly_set_abstract_ns ns w w1 :
  calmly w w1 → calmly w (set_abstract_ns ns w1).
Proof. apply evolves_set_abstract_ns; eauto using unlinked_step; apply _. Qed.

Lemma calmly_set_logd_ns ns w w1 :
  calmly w w1 → calmly w (set_logd_ns ns w1).
Proof. apply evolves_set_logd_ns; eauto using unlinked_step; apply _. Qed.

Lemma calmly_alloc obj w w1 :
  calmly w w1 → unlinked obj → calmly w (alloc obj w1).2.
Proof. apply evolves_alloc_after; eauto using unlinked_step; apply _. Qed.

#[local] Hint Resolve calmly_refl calmly_emit calmly_set_fd_table
  calmly_set_abstract_ns calmly_set_logd_ns same_link_calm : evolve.

(** A field other than the credentials and the peer link is written. *)
Ltac kept := solve [unfold calm; simpl; auto].

Lemma socket_calmly oflag ty dir getpid getuid w :
  calmly w (socket oflag ty dir getpid getuid w).2.
Proof. unfold socket. by apply calmly_alloc; [apply calmly_refl|]. Qed.

Lemma OnLastFileRef_calmly self w0 w w' :
  calmly w0 w → OnLastFileRef self w = Some w' → calmly w0 w'.
Proof.
  unfold OnLastFileRef. intros Hw0 H.
  destruct (get self w) as [this|] eqn:Hs; [simpl in H | done].
  assert (∀ w1, calmly w0 w1 →
            calmly w0
              (if str_empty (logd_name_ this)
               then (if str_empty (abstract_name_ this) then w1
                     else set_abstract_ns
                            (NameRegistry.Bind (abstract_name_ this) None
                               (abstract_ns w1)).1 w1)
               else set_logd_ns
                      (NameRegistry.Bind (logd_name_ this) None
                         (logd_ns (if str_empty (abstract_name_ this) then w1
                                   else set_abstract_ns
                                          (NameRegistry.Bind (abstract_name_ this)
                                             None (abstract_ns w1)).1 w1))).1
                      (if str_empty (abstract_name_ this) then w1
                       else set_abstract_ns
                              (NameRegistry.Bind (abstract_name_ this) None
                                 (abstract_ns w1)).1 w1))) as Hns.
  { intros w1 H1.
    destruct (str_empty (logd_name_ this)), (str_empty (abstract_name_ this));
      eauto with evolve. }
  destruct (peer_ this) as [p|].
  - destruct (get p w) as [peer_obj|] eqn:Hp; [simpl in H | done].
    destruct (get self (put p (set_peer_ None peer_obj) w)) as [this'|] eqn:Hs';
      [simpl in H | done].
    injection H as <-. apply Hns. apply calmly_emit.
    eapply calmly_put; [|exact Hs' | kept].
    eapply calmly_put; [exact Hw0 | exact Hp | kept].
  - simpl in H. injection H as <-. by apply Hns.
Qed.

Lemma close_calmly self w w' : close self w = Some w' → calmly w w'.
Proof.
  unfold close. intros H.
  destruct (get self w) as [this|] eqn:Hs; [simpl in H | done].
  eapply OnLastFileRef_calmly; [|exact H].
  eapply calmly_put; [apply calmly_refl | exact Hs | kept].
Qed.

Lemma bind_calmly self addr addrlen w w' r :
  bind self addr addrlen w = Some (w', r) → calmly w w'.
Proof.
  unfold bind. intros H.
  destruct (get self w) as [this|] eqn:Hs; [simpl in H | done].
  destruct (ValidateSockaddr addr addrlen);
    [injection H as <- _; apply calmly_refl|].
  destruct (negb _ || negb _);
    [injection H as <- _; apply calmly_refl|].
  destruct (ConvertSockaddrToName addr addrlen) as [name|].
  - destruct (NameRegistry.Bind name (Some self) (logd_ns w)) as [ns result].
    destruct result as [[]| |]; injection H as <- _; eauto with evolve.
    eapply calmly_put; [eauto with evolve | exact Hs | kept].
  - destruct (ConvertSockaddrToAbstractName addr addrlen) as [name|];
      [|injection H as <- _; apply calmly_refl].
    destruct (NameRegistry.Bind name (Some self) (abstract_ns w)) as [ns result].
    destruct result as [[]| |]; injection H as <- _; eauto with evolve.
    eapply calmly_put; [eauto with evolve | exact Hs | kept].
Qed.

Lemma listen_calmly self backlog w w' r :
  listen self backlog w = Some (w', r) → calmly w w'.
Proof.
  unfold listen. intros H.
  destruct (get self w) as [this|] eqn:Hs; [simpl in H | done].
  destruct (bool_decide _); [injection H as <- _; apply calmly_refl|].
  destruct (_ && _); injection H as <- _; [apply calmly_refl|].
  eapply calmly_put; [apply calmly_refl | exact Hs | kept].
Qed.

Lemma setsockopt_calmly self level optname optval optlen w w' r :
  setsockopt self level optname optval optlen w = Some (w', r) → calmly w w'.
Proof.
  unfold setsockopt. intros H.
  destruct (get self w) as [this|] eqn:Hs; [simpl in H | done].
  destruct (_ && _); [|injection H as <- _; apply calmly_refl].
  destruct (negb _); [injection H as <- _; apply calmly_refl|].
  destruct optval; simpl in H; [|done]. injection H as <- _.
  eapply calmly_put; [apply calmly_refl | exact Hs | kept].
Qed.

Lemma HandleConnectLocked_calmly self client w0 w w' ok :
  calmly w0 w → HandleConnectLocked self client w = Some (w', ok) →
  calmly w0 w'.
Proof.
  unfold HandleConnectLocked. intros Hw0 H.
  destruct (get self w) as [this|] eqn:Hs; [simpl in H | done].
  destruct (bool_decide _); [|by injection H as <- _].
  destruct (negb _); [by injection H as <- _|].
  destruct (_ =? _); [by injection H as <- _|].
  destruct (_ =? _)%nat; injection H as <- _; [apply calmly_emit|];
    (eapply calmly_put; [exact Hw0 | exact Hs | kept]).
Qed.

Lemma WaitForLocalSocketConnect_calmly self w0 w w' parked :
  calmly w0 w → WaitForLocalSocketConnect self w = Some (w', parked) →
  calmly w0 w'.
Proof.
  unfold WaitForLocalSocketConnect. intros Hw0 H.
  destruct (get self w) as [this|] eqn:Hs; [simpl in H | done].
  destruct (bool_decide _); injection H as <- _; [|done].
  eapply calmly_put; [exact Hw0 | exact Hs | kept].
Qed.

Lemma connect_calmly self addr addrlen w w' r :
  connect self addr addrlen w = Some (w', r) → calmly w w'.
Proof.
  unfold connect. intros H.
  destruct (get self w) as [this|] eqn:Hs; [simpl in H | done].
  destruct (bool_decide _); [injection H as <- _; apply calmly_refl|].
  destruct (negb _ && negb _); [injection H as <- _; apply calmly_refl|].
  destruct (ValidateSockaddr addr addrlen);
    [injection H as <- _; apply calmly_refl|].
  match type of H with
  | match ?found with _ => _ end = _ =>
      destruct found as [[logd_name [bound_socket|]]|]
  end; try (injection H as <- _; apply calmly_refl).
  destruct (get bound_socket w) as [bound|]; [simpl in H | done].
  destruct (negb _); [injection H as <- _; apply calmly_refl|].
  destruct (HandleConnectLocked bound_socket self w) as [[w1 ok]|] eqn:Hh;
    [simpl in H | done].
  assert (calmly w w1) as Hw1.
  { eapply HandleConnectLocked_calmly; [|exact Hh]. apply calmly_refl. }
  destruct ok; simpl in H; [|by injection H as <- _].
  destruct (get self w1) as [this1|] eqn:Hs1; [simpl in H | done].
  destruct (WaitForLocalSocketConnect self _) as [[w3 parked]|] eqn:Hwait;
    [simpl in H | done].
  injection H as <- _.
  eapply WaitForLocalSocketConnect_calmly; [|exact Hwait].
  eapply calmly_put; [exact Hw1 | exact Hs1 | kept].
Qed.

Lemma recvmsg_ready_calmly self msg w w' r out :
  recvmsg_ready self msg w = Some (w', r, out) → calmly w w'.
Proof.
  unfold recvmsg_ready. intros H.
  destruct (get self w) as [this|] eqn:Hs; [simpl in H | done].
  pose proof (recv_data_same_link this msg) as Hdata.
  destruct (recv_data this msg) as [[[[this1 outs] bytes_read] flags1] cred].
  simpl in Hdata.
  assert (∀ this2 tbl log w1,
            same_link this this2 →
            w1 = emit log (set_fd_table tbl (put self this2 w)) →
            calmly w w1
            ∧ calmly w (match peer_ this with
                        | Some p => emit [NotifyListeners p] w1
                        | None => w1
                        end)) as Hfin.
  { intros this2 tbl log w1 Hlink ->.
    assert (calmly w (emit log (set_fd_table tbl (put self this2 w)))).
    { apply calmly_emit, calmly_set_fd_table.
      eapply calmly_put; [apply calmly_refl | exact Hs |].
      by apply same_link_calm. }
    split; [done|]. destruct (peer_ this); [|done]. by apply calmly_emit. }
  destruct (bytes_read <=? 0).
  - destruct (Hfin this1 (fd_table w) [] _ Hdata eq_refl) as [H1 H2].
    destruct (0 <? bytes_read); [by injection H as <- _ _|].
    destruct (_ && _); by injection H as <- _ _.
  - pose proof (build_control_same_link (rmsg_controllen msg) cred this1
                  (fd_table w) flags1) as Hctl.
    destruct (build_control _ _ _ _ _)
      as [[[[[this2 control] controllen] tbl] log] flags2].
    simpl in Hctl.
    destruct (Hfin this2 tbl log _ (same_link_trans _ _ _ Hdata Hctl) eq_refl)
      as [H1 H2].
    destruct (0 <? bytes_read); [by injection H as <- _ _|].
    destruct (_ && _); by injection H as <- _ _.
Qed.

Lemma recvmsg_calmly self msg flags w w' r out :
  recvmsg self msg flags w = Some (w', r, out) → calmly w w'.
Proof.
  unfold recvmsg. intros H.
  destruct (get self w) as [this|]; [simpl in H | done].
  destruct (bool_decide _); [injection H as <- _ _; apply calmly_refl|].
  destruct (negb _ && negb _); [injection H as <- _ _; apply calmly_refl|].
  destruct (recvmsg_must_wait this flags w) as [[]|]; simpl in H;
    [injection H as <- _ _; apply calmly_refl | | done].
  by eapply recvmsg_ready_calmly.
Qed.

Lemma recvfrom_calmly self len flags addr addrlen w w' r bytes :
  recvfrom self len flags addr addrlen w = Some (w', r, bytes) → calmly w w'.
Proof.
  unfold recvfrom. intros H.
  destruct (addr || addrlen); [injection H as <- _ _; apply calmly_refl|].
  destruct (len =? 0)%nat; [injection H as <- _ _; apply calmly_refl|].
  destruct (recvmsg self _ 0 w) as [[[w1 r1] out]|] eqn:Hr; [simpl in H | done].
  injection H as <- _ _. by eapply recvmsg_calmly.
Qed.

Lemma HandleSendmsgLocked_calmly self msg cred w w' r :
  HandleSendmsgLocked self msg cred w = Some (w', r) → calmly w w'.
Proof.
  unfold HandleSendmsgLocked. intros H.
  destruct (get self w) as [this|] eqn:Hs; [simpl in H | done].
  pose proof (send_data_same_link this msg cred) as Hdata.
  destruct (send_data this msg cred) as [[this1 attempted] sent].
  simpl in Hdata.
  assert (∀ this2 tbl log,
            same_link this this2 →
            calmly w (if 0 <? sent
                      then emit [Broadcast; NotifyListeners self]
                             (emit log (set_fd_table tbl (put self this2 w)))
                      else emit log (set_fd_table tbl (put self this2 w))))
    as Hfin.
  { intros this2 tbl log Hlink.
    assert (calmly w (emit log (set_fd_table tbl (put self this2 w)))).
    { apply calmly_emit, calmly_set_fd_table.
      eapply calmly_put; [apply calmly_refl | exact Hs |].
      by apply same_link_calm. }
    destruct (0 <? sent); [|done]. by apply calmly_emit. }
  destruct (negb _ && (0 <? smsg_controllen msg)).
  - destruct (collect_rights _ _ _ _) as [[fds tbl] log].
    specialize (Hfin (set_cmsg_fd_queue_ (cmsg_fd_queue_ this1 ++ [fds]) this1)
                  tbl log).
    destruct ((sent =? 0) && _); injection H as <- _; apply Hfin;
      (eapply same_link_trans; [exact Hdata | by repeat split]).
  - specialize (Hfin this1 (fd_table w) [] Hdata).
    destruct ((sent =? 0) && _); by injection H as <- _.
Qed.

Lemma sendmsg_calmly self msg flags w w' r :
  sendmsg self msg flags w = Some (w', r) → calmly w w'.
Proof.
  unfold sendmsg. intros H.
  destruct (get self w) as [this|]; [simpl in H | done].
  destruct (bool_decide _); [injection H as <- _; apply calmly_refl|].
  destruct (negb _ && negb _); [injection H as <- _; apply calmly_refl|].
  destruct (peer_ this); [by eapply HandleSendmsgLocked_calmly|].
  destruct (bool_decide _); [|injection H as <- _; apply calmly_refl].
  match type of H with
  | match ?b with _ => _ end = _ => destruct b
  end; [by eapply HandleSendmsgLocked_calmly
       | injection H as <- _; apply calmly_refl].
Qed.

Lemma sendto_calmly self buf flags dest_addr addrlen w w' r :
  sendto self buf flags dest_addr addrlen w = Some (w', r) → calmly w w'.
Proof.
  unfold sendto. intros H.
  destruct (dest_addr || _); [injection H as <- _; apply calmly_refl|].
  destruct (_ =? 0)%nat; [injection H as <- _; apply calmly_refl|].
  by eapply sendmsg_calmly.
Qed.

(** **** The invariant *)

Lemma linked_same_sockets w w' :
  sockets w' = sockets w → linked w → linked w'.
Proof. unfold linked, get. intros ->. done. Qed.

(** A call that pairs nobody keeps every link as it is or cuts it. *)
Lemma calmly_linked w w' :
  ids_below_next w → linked w → calmly w w' → linked w'.
Proof.
  intros Hwf Hlinked Hcalm. destruct (Hcalm Hwf) as (_ & _ & Hs).
  intros s o' p Hs' Hp.
  pose proof (Hs s) as Hstep. rewrite Hs' in Hstep.
  destruct (get s w) as [o|] eqn:Hso; [|unfold unlinked in Hstep; congruence].
  destruct Hstep as (_ & Hcred & Hpeer).
  assert (peer_ o = Some p) as Hpo by (destruct Hpeer; congruence).
  destruct (Hlinked s o p Hso Hpo) as (pobj & Hpw & Hpc).
  specialize (Hs p). rewrite Hpw in Hs.
  destruct (get p w') as [pobj'|]; [|done].
  destruct Hs as (Hmy & _). exists pobj'. split; [done|]. congruence.
Qed.

(** set_peer takes the credentials from the endpoint it links to. *)
Lemma set_peer_linked self peer w w' :
  linked w → set_peer self peer w = Some w' → linked w'.
Proof.
  unfold set_peer. intros Hlinked H.
  destruct (get self w) as [this|] eqn:Hs; [simpl in H | done].
  destruct (get peer w) as [peer_obj|] eqn:Hpeer; [simpl in H | done].
  injection H as <-. intros s o p Hso Hp.
  assert (∀ q qobj, get q w = Some qobj →
            ∃ qobj', get q (put self
                              (set_peer_cred_ (my_cred_ peer_obj)
                                 (set_connect_state_ SOCKET_CONNECTED
                                    (set_peer_ (Some peer) this))) w)
                     = Some qobj'
                     ∧ my_cred_ qobj' = my_cred_ qobj) as Hkeep.
  { intros q qobj Hq. rewrite get_put. case_decide as Heq; [|by eauto].
    subst q. rewrite Hs in Hq. injection Hq as <-. eauto. }
  rewrite get_put in Hso. case_decide as Heq.
  - injection Hso as <-. simpl in Hp. injection Hp as <-.
    destruct (Hkeep _ _ Hpeer) as (pobj' & Hp' & Hmy).
    exists pobj'. split; [done|]. by rewrite Hmy.
  - destruct (Hlinked s o p Hso Hp) as (pobj & Hpw & Hpc).
    destruct (Hkeep _ _ Hpw) as (pobj' & Hp' & Hmy).
    exists pobj'. split; [done|]. by rewrite Hmy.
Qed.

Lemma pair_up_linked a b w w' : linked w → pair_up a b w = Some w' → linked w'.
Proof.
  unfold pair_up. intros Hlinked H.
  destruct (set_peer a b w) as [w1|] eqn:H1; [simpl in H | done].
  eapply set_peer_linked; [|exact H]. by eapply set_peer_linked.
Qed.

Lemma accept_paired_linked self getpid getuid w0 w w' r :
  ids_below_next w0 → linked w0 → ids_below_next w → calmly w0 w →
  accept_paired self getpid getuid w = Some (w', r) → linked w'.
Proof.
  unfold accept_paired. intros Hwf0 Hlinked Hwf Hw0 H.
  destruct (get self w) as [this|] eqn:Hs; [simpl in H | done].
  destruct (IsClosed this);
    [injection H as <- _; exact (calmly_linked _ _ Hwf0 Hlinked Hw0)|].
  destruct (connection_queue_ this) as [|client rest];
    [injection H as <- _; exact (calmly_linked _ _ Hwf0 Hlinked Hw0)|].
  destruct (AddFileStreamLocked (fd_table w) (next_id w)) as [accept_fd tbl].
  destruct (accept_fd <? 0).
  { injection H as <- _. apply (calmly_linked w0); [done | done |].
    by apply calmly_set_fd_table. }
  assert (calmly w0
            (put self (set_connection_queue_ rest this)
               (alloc (LocalSocket_new (oflag_ this) (socket_type_ this)
                         READ_WRITE getpid getuid)
                  (set_fd_table tbl w)).2)) as Hw3.
  { eapply (calmly_put _ this); [| | kept].
    - apply calmly_alloc; eauto with evolve. done.
    - rewrite get_alloc. change (next_id (set_fd_table tbl w)) with (next_id w).
      rewrite decide_False; [exact Hs|].
      assert (is_Some (get self w)) as Hsome by eauto.
      specialize (Hwf _ Hsome). lia. }
  destruct (set_peer (next_id w) client _) as [w4|] eqn:H4; [simpl in H | done].
  destruct (set_peer client _ w4) as [w5|] eqn:H5; [simpl in H | done].
  injection H as <- _. apply (linked_same_sockets w5); [done|].
  eapply set_peer_linked; [|exact H5].
  eapply set_peer_linked; [|exact H4].
  exact (calmly_linked _ _ Hwf0 Hlinked Hw3).
Qed.

Lemma accept_linked self addr addrlen timed_out getpid getuid w w' r :
  ids_below_next w → linked w →
  accept self addr addrlen timed_out getpid getuid w = Some (w', r) →
  linked w'.
Proof.
  unfold accept. intros Hwf Hlinked H.
  destruct (get self w) as [this|] eqn:Hs; [simpl in H | done].
  destruct (bool_decide _); [by injection H as <- _|].
  destruct (negb _); [by injection H as <- _|].
  destruct (negb _); [by injection H as <- _|].
  destruct (negb _); [by injection H as <- _|].
  unfold WaitForOpenedConnectToAccept in H. rewrite Hs in H; simpl in H.
  destruct (skip_closed (connection_queue_ this) w) as [q|]; [simpl in H | done].
  assert (calmly w (put self (set_connection_queue_ q this) w)) as Hw1.
  { eapply calmly_put; [apply calmly_refl | exact Hs | kept]. }
  assert (∀ parked,
            (if (parked : bool)
             then Some (put self (set_connection_queue_ q this) w, Suspended)
             else accept_paired self getpid getuid
                    (put self (set_connection_queue_ q this) w))
            = Some (w', r) → linked w') as Hrest.
  { intros [] Hp; [injection Hp as <- _; exact (calmly_linked _ _ Hwf Hlinked Hw1)|].
    eapply accept_paired_linked; [exact Hwf | exact Hlinked | | exact Hw1 | exact Hp].
    by destruct (Hw1 Hwf). }
  destruct q; simpl in H; [by apply (Hrest (negb timed_out)) | by apply (Hrest false)].
Qed.

(** Whatever the call, an endpoint with a peer holds that peer's own
    credentials afterwards if every such endpoint did before. *)
Lemma step_linked op w : ids_below_next w → linked w → linked (step op w).
Proof.
  intros Hwf Hlinked.
  assert (∀ w', calmly w w' → linked w') as Hcalm
    by (intros w'; by apply calmly_linked).
  destruct op; simpl.
  - apply Hcalm, socket_calmly.
  - destruct (pair_up a b w) eqn:H; simpl; [by eapply pair_up_linked | done].
  - destruct (close s w) eqn:H; simpl; [by eapply Hcalm, close_calmly | done].
  - destruct (bind s addr addrlen w) as [[]|] eqn:H; simpl;
      [by eapply Hcalm, bind_calmly | done].
  - destruct (listen s backlog w) as [[]|] eqn:H; simpl;
      [by eapply Hcalm, listen_calmly | done].
  - destruct (connect s addr addrlen w) as [[]|] eqn:H; simpl;
      [by eapply Hcalm, connect_calmly | done].
  - destruct (accept s addr addrlen timed_out getpid getuid w) as [[]|] eqn:H;
      simpl; [by eapply accept_linked | done].
  - destruct (recvmsg s msg flags w) as [[[]]|] eqn:H; simpl;
      [by eapply Hcalm, recvmsg_calmly | done].
  - destruct (recvfrom s len flags addr addrlen w) as [[[]]|] eqn:H; simpl;
      [by eapply Hcalm, recvfrom_calmly | done].
  - destruct (sendmsg s msg flags w) as [[]|] eqn:H; simpl;
      [by eapply Hcalm, sendmsg_calmly | done].
  - destruct (sendto s buf flags dest_addr addrlen w) as [[]|] eqn:H; simpl;
      [by eapply Hcalm, sendto_calmly | done].
  - destruct (setsockopt s level optname optval optlen w) as [[]|] eqn:H; simpl;
      [by eapply Hcalm, setsockopt_calmly | done].
Qed.
End CallsKeepLinks.

(** *** The bytes of a [struct ucred] *)

Section CredentialBytes.
Lemma to_N_byte_of_Z z : Z.of_N (Byte.to_N (byte_of_Z z)) = z `mod` 256.
Proof.
  unfold byte_of_Z.
  assert (0 ≤ z `mod` 256 < 256) as Hrange by (apply Z.mod_pos_bound; lia).
  destruct (Byte.of_N (Z.to_N (z `mod` 256))) as [b|] eqn:Hb.
  - simpl. apply Byte.to_of_N in Hb. rewrite Hb. lia.
  - apply Byte.of_N_None_iff in Hb. lia.
Qed.

Lemma int_of_le32_le32 z : int_of_le32 (le32 z) = to_int z.
Proof.
  unfold int_of_le32, le32. cbn [foldr]. rewrite !to_N_byte_of_Z.
  rewrite !Z.shiftr_div_pow2 by lia. unfold to_int.
  change (2 ^ 8) with 256. change (2 ^ 16) with 65536.
  change (2 ^ 24) with 16777216. change (2 ^ 31) with 2147483648.
  change (2 ^ 32) with 4294967296.
  f_equal. Z.div_mod_to_equations. lia.
Qed.

Lemma read_ucred_bytes c : read_ucred (ucred_bytes c) = as_ints c.
Proof.
  unfold read_ucred, ucred_bytes, as_ints.
  change (take 4 (le32 (pid c) ++ le32 (uid c) ++ le32 (gid c)))
    with (le32 (pid c)).
  change (take 4 (drop 4 (le32 (pid c) ++ le32 (uid c) ++ le32 (gid c))))
    with (le32 (uid c)).
  change (take 4 (drop 8 (le32 (pid c) ++ le32 (uid c) ++ le32 (gid c))))
    with (le32 (gid c)).
  by rewrite !int_of_le32_le32.
Qed.

Lemma length_ucred_bytes c : length (ucred_bytes c) = 12%nat.
Proof. reflexivity. Qed.

Lemma to_int_fits z : - 2 ^ 31 ≤ z < 2 ^ 31 → to_int z = z.
Proof.
  intros Hz. unfold to_int.
  change (2 ^ 31) with 2147483648 in *. change (2 ^ 32) with 4294967296.
  Z.div_mod_to_equations. lia.
Qed.
End CredentialBytes.

(** *** Along a sequence of calls *)

Section PeerCredentials.
Context {FdTable : Type} {vfs : VirtualFileSystem FdTable}
        {layout : CmsgLayout} {util : SocketUtil}.
Implicit Types w : World FdTable.

#[local] Arguments alloc : simpl never.
#[local] Arguments put : simpl never.
#[local] Arguments LocalSocket_new : simpl never.

Lemma ids_below_next_empty w : sockets w = ∅ → ids_below_next w.
Proof.
  intros Hempty s [obj Hs]. unfold get in Hs. by rewrite Hempty in Hs.
Qed.

Lemma run_ids_below_next ops w : ids_below_next w → ids_below_next (run ops w).
Proof.
  revert w. induction ops as [|op ops IH]; intros w Hwf; [done|].
  apply IH. by destruct (step_evolves op w Hwf).
Qed.

(** The credentials an endpoint took at construction never change. *)
Lemma run_keeps_my_cred ops w s obj :
  ids_below_next w → get s w = Some obj →
  my_cred_ <$> get s (run ops w) = Some (my_cred_ obj).
Proof.
  revert w obj. induction ops as [|op ops IH]; intros w obj Hwf Hs.
  - simpl. by rewrite Hs.
  - destruct (step_evolves op w Hwf) as (Hwf' & _ & Hstep).
    specialize (Hstep s). rewrite Hs in Hstep.
    destruct (get s (step op w)) as [obj'|] eqn:Hs'; [|done].
    destruct Hstep as [Hmy _]. simpl. rewrite (IH _ _ Hwf' Hs'). by rewrite Hmy.
Qed.

(** An endpoint that never had a peer still has the peer credentials it
    was constructed with. *)
Lemma never_paired_default s ops w :
  ids_below_next w → never_paired s ops w →
  (∀ obj, get s w = Some obj → peer_cred_ obj = no_peer_cred) →
  ∀ obj, get s (run ops w) = Some obj → peer_cred_ obj = no_peer_cred.
Proof.
  revert w. induction ops as [|op ops IH]; intros w Hwf Hnever Hdef; [done|].
  destruct Hnever as [_ Hnever]. simpl.
  destruct (step_evolves op w Hwf) as (Hwf' & _ & Hstep).
  apply IH; [done | done |].
  intros obj' Hs'. specialize (Hstep s). rewrite Hs' in Hstep.
  assert (peer_ obj' = None) as Hnone.
  { destruct ops; simpl in Hnever; destruct Hnever as [Hp _]; by apply Hp. }
  destruct (get s w) as [obj|] eqn:Hs.
  - destruct Hstep as [_ [Hc | [p Hp]]]; [|congruence].
    rewrite Hc. by apply Hdef.
  - destruct Hstep as [Hc | [p Hp]]; [done | congruence].
Qed.

Lemma getsockopt_peercred s obj optlen w :
  get s w = Some obj →
  VerifyGetSocketOption true (Some optlen) = 0 →
  sizeof_ucred ≤ optlen →
  getsockopt s SOL_SOCKET SO_PEERCRED true (Some optlen) w
  = Some (OptDone (Ret 0) (ucred_bytes (peer_cred_ obj)) sizeof_ucred).
Proof.
  intros Hs Hverify Hlen. unfold getsockopt. rewrite Hs, Hverify; simpl.
  rewrite Z.min_r by done. by rewrite take_ge.
Qed.

(** What a successful accept leaves behind: the client at the head of the
    queue and the server endpoint made for it point at each other, and
    each holds the other's own credentials. *)
Lemma accept_pairs self addr addrlen timed_out getpid getuid w w' fd :
  ids_below_next w →
  accept self addr addrlen timed_out getpid getuid w = Some (w', Ret fd) →
  ∃ client client_obj server_obj' client_obj',
    get client w = Some client_obj
    ∧ get (next_id w) w' = Some server_obj'
    ∧ get client w' = Some client_obj'
    ∧ peer_ server_obj' = Some client
    ∧ peer_ client_obj' = Some (next_id w)
    ∧ my_cred_ server_obj' = mk_ucred getpid getuid getuid
    ∧ peer_cred_ server_obj' = my_cred_ client_obj
    ∧ peer_cred_ client_obj' = mk_ucred getpid getuid getuid
    ∧ connect_state_ server_obj' = SOCKET_CONNECTED
    ∧ connect_state_ client_obj' = SOCKET_CONNECTED.
Proof.
  intros Hwf H. unfold accept in H.
  destruct (get self w) as [this|] eqn:Hs; [simpl in H | done].
  destruct (bool_decide _); [done|].
  destruct (negb _); [done|]. destruct (negb _); [done|].
  destruct (negb _); [done|].
  unfold WaitForOpenedConnectToAccept in H. rewrite Hs in H; simpl in H.
  destruct (skip_closed (connection_queue_ this) w) as [q|] eqn:Hskip;
    [simpl in H | done].
  assert (self < next_id w)%nat as Hself by (apply Hwf; eauto).
  destruct q as [|client rest]; simpl in H.
  { destruct (negb timed_out); [done|]. unfold accept_paired in H.
    rewrite get_put_eq in H; simpl in H. by destruct (closed_ this). }
  destruct (skip_closed_spec _ _ _ Hskip) as (_ & _ & _ & client_obj & Hc & _).
  assert (client < next_id w)%nat as Hclient by (apply Hwf; eauto).
  unfold accept_paired in H. rewrite get_put_eq in H; simpl in H.
  destruct (closed_ this); [done|].
  set (w1 := put self (set_connection_queue_ (client :: rest) this) w) in *.
  change (fd_table w1) with (fd_table w) in H.
  change (next_id w1) with (next_id w) in H.
  destruct (AddFileStreamLocked (fd_table w) (next_id w)) as [accept_fd tbl].
  destruct (accept_fd <? 0); [done|].
  set (server_obj := LocalSocket_new _ _ _ _ _) in H.
  change (set_next_id (S (next_id w))
            (put (next_id w) server_obj (set_fd_table tbl w1)))
    with (alloc server_obj (set_fd_table tbl w1)).2 in H.
  set (w3 := put self _ (alloc server_obj (set_fd_table tbl w1)).2) in H.
  assert (get (next_id w) w3 = Some server_obj) as Hserver3.
  { unfold w3. rewrite get_put_ne by lia. rewrite get_alloc.
    by rewrite decide_True. }
  assert (∃ c3, get client w3 = Some c3 ∧ my_cred_ c3 = my_cred_ client_obj)
    as (c3 & Hc3 & Hmy3).
  { unfold w3. rewrite get_put. case_decide as Heq.
    - subst client. eexists. split; [done|]. simpl. congruence.
    - rewrite get_alloc, decide_False by (change (next_id (set_fd_table tbl w1))
                                            with (next_id w); lia).
      rewrite get_set_fd_table. unfold w1. rewrite get_put_ne by done. eauto. }
  destruct (set_peer (next_id w) client w3) as [w4|] eqn:H4; [simpl in H | done].
  unfold set_peer in H4. rewrite Hserver3, Hc3 in H4. simpl in H4.
  set (server_obj' := set_peer_cred_ _ _) in H4. injection H4 as <-.
  assert (get client (put (next_id w) server_obj' w3) = Some c3) as Hc4.
  { by rewrite get_put_ne by lia. }
  pose proof (get_put_eq (next_id w) server_obj' w3) as Hserver4.
  destruct (set_peer client (next_id w) _) as [w5|] eqn:H5; [simpl in H | done].
  unfold set_peer in H5. rewrite Hc4, Hserver4 in H5. simpl in H5.
  injection H5 as <-. injection H as <- _.
  exists client, client_obj, server_obj'. eexists.
  rewrite !get_emit, get_put_eq, get_put_ne, Hserver4 by lia.
  split_and!; try done.
Qed.

Lemma linked_empty w : sockets w = ∅ → linked w.
Proof.
  intros Hempty s o p Hs. unfold get in Hs. by rewrite Hempty in Hs.
Qed.

Lemma run_linked ops w : ids_below_next w → linked w → linked (run ops w).
Proof.
  revert w. induction ops as [|op ops IH]; intros w Hwf Hlinked; [done|].
  apply IH; [by destruct (step_evolves op w Hwf) | by apply step_linked].
Qed.

(** A call that does not pair the endpoint anew leaves it the peer
    credentials it had. *)
Lemma step_keeps_peer_cred op w s o o' :
  ids_below_next w → linked w →
  get s w = Some o → get s (step op w) = Some o' →
  peer_ o' = peer_ o ∨ peer_ o' = None →
  peer_cred_ o' = peer_cred_ o.
Proof.
  intros Hwf Hlinked Hs Hs' Hpeer.
  destruct (step_evolves op w Hwf) as (_ & _ & Hstep).
  pose proof (Hstep s) as Hso. rewrite Hs, Hs' in Hso.
  destruct Hso as [_ [Hc | [p Hp]]]; [done|].
  assert (peer_ o = Some p) as Hpo by (destruct Hpeer; congruence).
  destruct (Hlinked s o p Hs Hpo) as (pobj & Hpw & Hpc).
  destruct (step_linked op w Hwf Hlinked s o' p Hs' Hp) as (pobj' & Hpw' & Hpc').
  specialize (Hstep p). rewrite Hpw, Hpw' in Hstep. destruct Hstep as [Hmy _].
  congruence.
Qed.

Lemma run_keeps_peer_cred later w s o :
  ids_below_next w → linked w → not_paired_anew s later w →
  get s w = Some o →
  peer_cred_ <$> get s (run later w) = Some (peer_cred_ o).
Proof.
  revert w o. induction later as [|op later IH]; intros w o Hwf Hlinked Hnot Hs.
  - simpl. by rewrite Hs.
  - destruct Hnot as [Hpeer Hnot]. rewrite Hs in Hpeer.
    destruct (step_evolves op w Hwf) as (Hwf' & _ & Hstep).
    specialize (Hstep s). rewrite Hs in Hstep.
    destruct (get s (step op w)) as [o'|] eqn:Hs'; [|done].
    simpl. rewrite (IH _ o' Hwf' (step_linked op w Hwf Hlinked) Hnot Hs').
    by rewrite (step_keeps_peer_cred op w s o o' Hwf Hlinked Hs Hs' Hpeer).
Qed.

Lemma credentials_read_peercred s obj optlen w :
  get s w = Some obj →
  VerifyGetSocketOption true (Some optlen) = 0 →
  sizeof_ucred ≤ optlen →
  credentials_read (getsockopt s SOL_SOCKET SO_PEERCRED true (Some optlen) w)
  = Some (as_ints (peer_cred_ obj)).
Proof.
  intros Hs Hverify Hlen.
  rewrite (getsockopt_peercred _ _ _ _ Hs Hverify Hlen).
  unfold credentials_read. rewrite length_ucred_bytes. simpl.
  by rewrite read_ucred_bytes.
Qed.

Lemma accept_is_step self addr addrlen timed_out getpid getuid w w' r :
  accept self addr addrlen timed_out getpid getuid w = Some (w', r) →
  step (OAccept self addr addrlen timed_out getpid getuid) w = w'.
Proof. intros H. simpl. by rewrite H. Qed.

(** C8.  With a valid option buffer of at least [sizeof(ucred)] bytes,
    getsockopt(SOL_SOCKET, SO_PEERCRED) returns 0 and copies out twelve
    bytes that read as follows.
    - On every endpoint that has never been paired, after any sequence of
      calls from the empty store: pid 0, uid -1, gid -1 (the bytes
      00 00 00 00 ff ff ff ff ff ff ff ff).
    - After a successful accept, on the client: the pid and the uid the
      process emulator gave when accept constructed the server endpoint
      (the gid is that uid); and so still after any further calls that
      do not pair the client anew, the close of the server among them.
    - On the server endpoint: the pid and the uid the process emulator
      gave when the client was constructed, however many calls lie
      between that construction and the accept; and so still after any
      further calls that do not pair the server endpoint anew.
    - In general, on an endpoint that has a peer in a store reached from
      the empty one, however the two were paired: the own credentials of
      that peer, which no later call changes; and so still after any
      further calls that do not pair the endpoint anew.
    Identities are read back as [int]s: one that fits an [int] is read as
    it is. *)
Theorem so_peercred optlen :
  VerifyGetSocketOption true (Some optlen) = 0 →
  sizeof_ucred ≤ optlen →
  let peercred s w :=
    getsockopt s SOL_SOCKET SO_PEERCRED true (Some optlen) w in
  (∀ w0 ops s,
      sockets w0 = ∅ → never_paired s ops w0 →
      is_Some (get s (run ops w0)) →
      peercred s (run ops w0)
      = Some (OptDone (Ret 0)
                [x00; x00; x00; x00; xff; xff; xff; xff; xff; xff; xff; xff]
                sizeof_ucred)
      ∧ credentials_read (peercred s (run ops w0)) = Some (mk_ucred 0 (-1) (-1)))
  ∧ (∀ w0 ops self addr addrlen timed_out getpid getuid w' fd later,
      sockets w0 = ∅ →
      accept self addr addrlen timed_out getpid getuid (run ops w0)
      = Some (w', Ret fd) →
      let server := next_id (run ops w0) in
      ∃ client,
        is_Some (get client (run ops w0))
        ∧ peer_ <$> get server w' = Some (Some client)
        ∧ peer_ <$> get client w' = Some (Some server)
        ∧ (not_paired_anew client later w' →
           credentials_read (peercred client (run later w'))
           = Some (mk_ucred (to_int getpid) (to_int getuid) (to_int getuid))))
  ∧ (∀ w0 before oflag ty dir cpid cuid between
       self addr addrlen timed_out getpid getuid w' fd later,
      sockets w0 = ∅ →
      let created := socket oflag ty dir cpid cuid (run before w0) in
      let w := run between created.2 in
      accept self addr addrlen timed_out getpid getuid w = Some (w', Ret fd) →
      peer_ <$> get (next_id w) w' = Some (Some created.1) →
      not_paired_anew (next_id w) later w' →
      credentials_read (peercred (next_id w) (run later w'))
      = Some (mk_ucred (to_int cpid) (to_int cuid) (to_int cuid)))
  ∧ (∀ w0 ops s o p later,
      sockets w0 = ∅ →
      get s (run ops w0) = Some o → peer_ o = Some p →
      not_paired_anew s later (run ops w0) →
      ∃ pobj,
        get p (run ops w0) = Some pobj
        ∧ credentials_read (peercred s (run later (run ops w0)))
          = Some (as_ints (my_cred_ pobj))
        ∧ my_cred_ <$> get p (run later (run ops w0)) = Some (my_cred_ pobj))
  ∧ (∀ z, - 2 ^ 31 ≤ z < 2 ^ 31 → to_int z = z).
Proof.
  intros Hverify Hlen peercred. split_and!; [| | | |apply to_int_fits].
  - intros w0 ops s Hempty Hnever [obj Hs]. unfold peercred.
    assert (peer_cred_ obj = no_peer_cred) as Hdefault.
    { apply (never_paired_default s ops w0 (ids_below_next_empty _ Hempty)
               Hnever); [|done].
      intros o Ho. unfold get in Ho. by rewrite Hempty in Ho. }
    rewrite (credentials_read_peercred _ _ _ _ Hs Hverify Hlen).
    rewrite (getsockopt_peercred _ _ _ _ Hs Hverify Hlen), Hdefault. done.
  - intros w0 ops self addr addrlen timed_out getpid getuid w' fd later
      Hempty Hacc server.
    pose proof (run_ids_below_next ops w0 (ids_below_next_empty _ Hempty)) as Hwf.
    pose proof (run_linked ops w0 (ids_below_next_empty _ Hempty)
                  (linked_empty _ Hempty)) as Hlinked.
    pose proof (accept_is_step _ _ _ _ _ _ _ _ _ Hacc) as Hstep.
    assert (ids_below_next w') as Hwf'.
    { rewrite <- Hstep. by destruct (step_evolves (OAccept self addr addrlen
                                                   timed_out getpid getuid) _ Hwf). }
    assert (linked w') as Hlinked'.
    { rewrite <- Hstep. by apply step_linked. }
    destruct (accept_pairs _ _ _ _ _ _ _ _ _ Hwf Hacc)
      as (client & client_obj & server_obj' & client_obj'
          & Hc & Hs' & Hc' & Hps & Hpc & Hmy & Hpcs & Hpcc & _).
    exists client. unfold server. rewrite Hs', Hc'. simpl. rewrite Hps, Hpc.
    split_and!; [by eauto | done | done |].
    intros Hnot.
    pose proof (run_keeps_peer_cred later w' client client_obj' Hwf' Hlinked'
                  Hnot Hc') as Hkeep.
    destruct (get client (run later w')) as [o2|] eqn:Ho2; [|done].
    simpl in Hkeep. injection Hkeep as Hkeep. unfold peercred.
    rewrite (credentials_read_peercred _ _ _ _ Ho2 Hverify Hlen).
    by rewrite Hkeep, Hpcc.
  - intros w0 before oflag ty dir cpid cuid between
      self addr addrlen timed_out getpid getuid w' fd later
      Hempty created w Hacc Hpeer Hnot.
    pose proof (run_ids_below_next before w0 (ids_below_next_empty _ Hempty))
      as Hwf0.
    pose proof (run_linked before w0 (ids_below_next_empty _ Hempty)
                  (linked_empty _ Hempty)) as Hlinked0.
    assert (ids_below_next created.2) as Hwf1.
    { by destruct (socket_evolves oflag ty dir cpid cuid (run before w0) Hwf0). }
    assert (linked created.2) as Hlinked1.
    { apply (step_linked (OSocket oflag ty dir cpid cuid) _ Hwf0 Hlinked0). }
    pose proof (run_ids_below_next between _ Hwf1) as Hwf.
    pose proof (run_linked between _ Hwf1 Hlinked1) as Hlinked.
    fold w in Hwf, Hlinked.
    pose proof (accept_is_step _ _ _ _ _ _ _ _ _ Hacc) as Hstep.
    assert (ids_below_next w') as Hwf'.
    { rewrite <- Hstep. by destruct (step_evolves (OAccept self addr addrlen
                                                   timed_out getpid getuid) _ Hwf). }
    assert (linked w') as Hlinked'.
    { rewrite <- Hstep. by apply step_linked. }
    destruct (accept_pairs _ _ _ _ _ _ _ _ _ Hwf Hacc)
      as (client & client_obj & server_obj' & client_obj'
          & Hc & Hs' & Hc' & Hps & Hpc & Hmy & Hpcs & Hpcc & _).
    rewrite Hs' in Hpeer. simpl in Hpeer.
    rewrite Hps in Hpeer. injection Hpeer as ->.
    assert (get created.1 created.2
            = Some (LocalSocket_new oflag ty dir cpid cuid)) as Hnew.
    { unfold created, socket. rewrite get_alloc. by rewrite decide_True. }
    pose proof (run_keeps_my_cred between _ _ _ Hwf1 Hnew) as Hmine.
    assert (my_cred_ <$> get created.1 w = Some (my_cred_ client_obj)) as Hc2.
    { change (my_cred_ <$> get (next_id (run before w0)) w
              = Some (my_cred_ client_obj)). by rewrite Hc. }
    assert (Some (my_cred_ client_obj)
            = Some (my_cred_ (LocalSocket_new oflag ty dir cpid cuid))) as Heq.
    { etrans; [symmetry; exact Hc2 | exact Hmine]. }
    injection Heq as Heq.
    pose proof (run_keeps_peer_cred later w' (next_id w) server_obj' Hwf'
                  Hlinked' Hnot Hs') as Hkeep.
    destruct (get (next_id w) (run later w')) as [o2|] eqn:Ho2; [|done].
    simpl in Hkeep. injection Hkeep as Hkeep. unfold peercred.
    rewrite (credentials_read_peercred _ _ _ _ Ho2 Hverify Hlen).
    by rewrite Hkeep, Hpcs, Heq.
  - intros w0 ops s o p later Hempty Hs Hp Hnot.
    pose proof (run_ids_below_next ops w0 (ids_below_next_empty _ Hempty)) as Hwf.
    pose proof (run_linked ops w0 (ids_below_next_empty _ Hempty)
                  (linked_empty _ Hempty)) as Hlinked.
    destruct (Hlinked s o p Hs Hp) as (pobj & Hpw & Hpc).
    exists pobj. split; [done|]. split; [|by apply run_keeps_my_cred].
    pose proof (run_keeps_peer_cred later _ s o Hwf Hlinked Hnot Hs) as Hkeep.
    destruct (get s (run later (run ops w0))) as [o2|] eqn:Ho2; [|done].
    simpl in Hkeep. injection Hkeep as Hkeep. unfold peercred.
    rewrite (credentials_read_peercred _ _ _ _ Ho2 Hverify Hlen).
    by rewrite Hkeep, Hpc.
Qed.
End PeerCredentials.


(** ** C4, C5, C6: connect, listen and bind on the state the claims start from *)

Section StateAndNames.
Context {FdTable : Type} {vfs : VirtualFileSystem FdTable}
        {layout : CmsgLayout} {util : SocketUtil}.
Implicit Types w : World FdTable.

#[local] Arguments NameRegistry.Bind : simpl never.

(** A listening stream or seqpacket endpoint refuses a connection exactly
    when its backlog equals the size of its queue, and then changes
    nothing. *)
Lemma HandleConnectLocked_backlog_reached self client this w :
  get self w = Some this →
  socket_type_ this ≠ SOCK_DGRAM →
  connect_state_ this = SOCKET_LISTENING →
  to_size_t (connection_backlog_ this)
  = Z.of_nat (length (connection_queue_ this)) →
  HandleConnectLocked self client w = Some (w, false).
Proof.
  intros Hget Hty Hst Hfull. unfold HandleConnectLocked. rewrite Hget; simpl.
  rewrite bool_decide_true by (destruct (socket_type_ this); auto; done).
  rewrite (bool_decide_true _ Hst); simpl.
  apply Z.eqb_eq in Hfull. by rewrite Hfull.
Qed.

(** In every other case the client is appended to the queue, also when the
    queue is already longer than the backlog. *)
Lemma HandleConnectLocked_enqueues self client this w :
  get self w = Some this →
  socket_type_ this ≠ SOCK_DGRAM →
  connect_state_ this = SOCKET_LISTENING →
  to_size_t (connection_backlog_ this)
  ≠ Z.of_nat (length (connection_queue_ this)) →
  ∃ w', HandleConnectLocked self client w = Some (w', true)
        ∧ connection_queue_ <$> get self w'
          = Some (connection_queue_ this ++ [client]).
Proof.
  intros Hget Hty Hst Hspace. unfold HandleConnectLocked. rewrite Hget; simpl.
  rewrite bool_decide_true by (destruct (socket_type_ this); auto; done).
  rewrite (bool_decide_true _ Hst); simpl.
  apply Z.eqb_neq in Hspace. rewrite Hspace.
  destruct (_ =? 1)%nat; eexists; (split; [reflexivity|]);
    by rewrite ?get_emit, get_put_eq.
Qed.

(** connect on a CONNECTED endpoint fails with EISCONN and changes
    nothing. *)
Lemma connect_when_connected self this addr addrlen w :
  get self w = Some this →
  connect_state_ this = SOCKET_CONNECTED →
  connect self addr addrlen w = Some (w, Err EISCONN).
Proof.
  intros Hget Hst. unfold connect. rewrite Hget; simpl.
  rewrite bool_decide_true; [done | by left].
Qed.

(** bind never changes the state of the endpoint it is called on. *)
Lemma bind_keeps_connect_state self this addr addrlen w w' r :
  get self w = Some this →
  bind self addr addrlen w = Some (w', r) →
  connect_state_ <$> get self w' = Some (connect_state_ this).
Proof.
  intros Hget H. unfold bind in H. rewrite Hget in H; simpl in H.
  destruct (ValidateSockaddr addr addrlen); [simplify_eq; by rewrite Hget|].
  destruct (negb _ || negb _); [simplify_eq; by rewrite Hget|].
  destruct (ConvertSockaddrToName addr addrlen) as [name|].
  - destruct (NameRegistry.Bind name (Some self) (logd_ns w)) as [ns result].
    destruct result as [[]| |]; simplify_eq;
      rewrite ?get_put_eq, ?get_set_logd_ns, ?Hget; done.
  - destruct (ConvertSockaddrToAbstractName addr addrlen) as [name|];
      [|simplify_eq; by rewrite Hget].
    destruct (NameRegistry.Bind name (Some self) (abstract_ns w)) as [ns result].
    destruct result as [[]| |]; simplify_eq;
      rewrite ?get_put_eq, ?get_set_abstract_ns, ?Hget; done.
Qed.

(** listen looks at the socket type and at the names only: on a bound
    stream or seqpacket endpoint it succeeds whatever the state, and the
    state becomes LISTENING. *)
Lemma listen_sets_listening self this backlog w :
  get self w = Some this →
  socket_type_ this ≠ SOCK_DGRAM →
  str_empty (abstract_name_ this) && str_empty (logd_name_ this) = false →
  ∃ w', listen self backlog w = Some (w', Ret 0)
        ∧ connect_state_ <$> get self w' = Some SOCKET_LISTENING
        ∧ peer_ <$> get self w' = Some (peer_ this).
Proof.
  intros Hget Hty Hname. unfold listen. rewrite Hget; simpl.
  rewrite (bool_decide_false _ Hty), Hname.
  eexists. split_and!; [reflexivity | |]; by rewrite get_put_eq.
Qed.

Lemma ValidateSockaddr_EINVAL addr addrlen e :
  ValidateSockaddr addr addrlen = Some e → e = EINVAL.
Proof.
  unfold ValidateSockaddr. destruct (negb _); [congruence|].
  destruct (_ <? _); congruence.
Qed.

(** Once an endpoint carries a name of at least one character, every bind
    on it fails with EINVAL and changes nothing. *)
Lemma bind_when_named self this addr addrlen w :
  get self w = Some this →
  str_empty (abstract_name_ this) && str_empty (logd_name_ this) = false →
  bind self addr addrlen w = Some (w, Err EINVAL).
Proof.
  intros Hget Hname. unfold bind. rewrite Hget; simpl.
  destruct (ValidateSockaddr addr addrlen) as [e|] eqn:Hvalid.
  - by rewrite (ValidateSockaddr_EINVAL _ _ _ Hvalid).
  - destruct (str_empty (abstract_name_ this)), (str_empty (logd_name_ this));
      done.
Qed.

(** A pathname that passes ValidateSockaddr is never empty: only the
    abstract form can name the empty string. *)
Lemma ConvertSockaddrToName_not_empty addr addrlen name :
  ValidateSockaddr addr addrlen = None →
  ConvertSockaddrToName addr addrlen = Some name →
  str_empty name = false.
Proof.
  unfold ValidateSockaddr, ConvertSockaddrToName, sun_path_at.
  destruct (negb _); [done|].
  destruct (addrlen <? kSunPathOffset + 1) eqn:Hlen; [done|]. intros _.
  apply Z.ltb_ge in Hlen. unfold kSunPathOffset in *.
  destruct (sun_path addr) as [|c rest]; simpl; [done|].
  destruct (Ascii.eqb c Ascii.zero) eqn:Hc; [done|]. intros [= <-].
  destruct (Z.to_nat (addrlen - 2)) eqn:Hn; [lia|].
  simpl. by rewrite Hc.
Qed.

(** The abstract address of [offsetof(sun_path) + 1] bytes passes
    ValidateSockaddr and names the empty string. *)
Lemma ConvertSockaddrToAbstractName_empty rest :
  let addr := mk_sockaddr AF_UNIX (Ascii.zero :: rest) in
  ValidateSockaddr addr (kSunPathOffset + 1) = None
  ∧ ConvertSockaddrToName addr (kSunPathOffset + 1) = None
  ∧ ConvertSockaddrToAbstractName addr (kSunPathOffset + 1) = Some EmptyString.
Proof. done. Qed.
End StateAndNames.

(** * Further properties *)

(** ** Socket addresses *)

Section Addresses.
Context {FdTable : Type} {vfs : VirtualFileSystem FdTable}
        {layout : CmsgLayout} {util : SocketUtil}.
Implicit Types w : World FdTable.

#[local] Arguments NameRegistry.Bind : simpl never.

Lemma strn_prefix_terminated n name rest :
  Forall (λ c, c ≠ Ascii.zero) name →
  (∀ c, head rest = Some c → c = Ascii.zero) →
  strn_prefix n (name ++ rest) = take n name.
Proof.
  intros Hname Hrest. revert n.
  induction Hname as [|c name Hc _ IH]; intros [|n]; simpl.
  - by destruct rest.
  - destruct rest as [|c rest]; [done|].
    rewrite (Hrest c eq_refl). done.
  - done.
  - apply Ascii.eqb_neq in Hc. rewrite Hc. by rewrite IH.
Qed.

Lemma conversions_exclusive addr addrlen :
  ConvertSockaddrToName addr addrlen = None
  ↔ is_Some (ConvertSockaddrToAbstractName addr addrlen).
Proof.
  unfold ConvertSockaddrToName, ConvertSockaddrToAbstractName.
  destruct (Ascii.eqb _ _); simpl; split; eauto; by intros [].
Qed.

(** X1.  A pathname address is read as a C string: when [sun_path] holds
    characters other than NUL followed by a NUL (or by the end of the
    caller's memory, which reads as NUL), the name is those characters, cut
    off after [addrlen - offsetof(sun_path)] of them; the address is not
    taken for an abstract one. *)
Theorem ConvertSockaddrToName_c_string family name rest addrlen :
  kSunPathOffset + 1 ≤ addrlen →
  name ≠ [] →
  Forall (λ c, c ≠ Ascii.zero) name →
  (∀ c, head rest = Some c → c = Ascii.zero) →
  ConvertSockaddrToName (mk_sockaddr family (name ++ rest)) addrlen
  = Some (string_of_list_ascii
            (take (Z.to_nat (addrlen - kSunPathOffset)) name))
  ∧ ConvertSockaddrToAbstractName (mk_sockaddr family (name ++ rest)) addrlen
    = None.
Proof.
  intros _ Hne Hname Hrest.
  unfold ConvertSockaddrToName, ConvertSockaddrToAbstractName, sun_path_at.
  simpl. destruct name as [|c name]; [done|]. simpl.
  pose proof (Forall_inv Hname) as Hc. apply Ascii.eqb_neq in Hc.
  rewrite Hc. simpl. split; [|done].
  by rewrite (strn_prefix_terminated _ (c :: name) rest).
Qed.

(** X2.  An abstract address names the [addrlen - offsetof(sun_path) - 1]
    bytes that follow the leading NUL of [sun_path], as they are (NUL
    bytes among them included) and whatever lies behind them; the address
    is not taken for a pathname. *)
Theorem ConvertSockaddrToAbstractName_verbatim family name rest :
  let addr := mk_sockaddr family (Ascii.zero :: name ++ rest) in
  let addrlen := kSunPathOffset + 1 + Z.of_nat (length name) in
  ConvertSockaddrToAbstractName addr addrlen
  = Some (string_of_list_ascii name)
  ∧ ConvertSockaddrToName addr addrlen = None.
Proof.
  unfold ConvertSockaddrToName, ConvertSockaddrToAbstractName, sun_path_at.
  simpl. split; [|done]. do 2 f_equal.
  replace (Z.to_nat _) with (length name) by (unfold kSunPathOffset; lia).
  rewrite drop_0, <- app_assoc. by rewrite take_app_length.
Qed.

(** X3.  bind returns 0 or fails with EINVAL or EADDRINUSE: every address
    that passes ValidateSockaddr is either a pathname or an abstract name,
    so that the final ENOSYS of bind is never reached.  A bind that fails
    leaves the store as it was. *)
Theorem bind_outcomes self addr addrlen w w' r :
  bind self addr addrlen w = Some (w', r) →
  (r = Ret 0 ∨ r = Err EINVAL ∨ r = Err EADDRINUSE)
  ∧ (r ≠ Ret 0 → w' = w).
Proof.
  unfold bind. intros H.
  destruct (get self w) as [this|] eqn:Hs; [simpl in H | done].
  unfold ValidateSockaddr in H.
  destruct (negb (sa_family addr =? AF_UNIX)); [by simplify_eq; eauto|].
  destruct (addrlen <? _); [by simplify_eq; eauto|].
  destruct (_ || _); [by simplify_eq; eauto|].
  destruct (ConvertSockaddrToName addr addrlen) as [name|] eqn:Hname.
  - unfold NameRegistry.Bind in H.
    destruct (logd_ns w !! name); simpl in H; simplify_eq.
    + split; [eauto|]. intros _. by destruct w.
    + split; [eauto | done].
  - apply conversions_exclusive in Hname as [name Hname]. rewrite Hname in H.
    unfold NameRegistry.Bind in H.
    destruct (abstract_ns w !! name); simpl in H; simplify_eq.
    + split; [eauto|]. intros _. by destruct w.
    + split; [eauto | done].
Qed.

Lemma HandleConnectLocked_refuses self client w w1 :
  HandleConnectLocked self client w = Some (w1, false) → w1 = w.
Proof.
  unfold HandleConnectLocked. intros H.
  destruct (get self w) as [this|]; [simpl in H | done].
  destruct (bool_decide _); [|congruence].
  destruct (negb _); [congruence|].
  destruct (_ =? _); [congruence|].
  by destruct (_ =? _)%nat.
Qed.

Lemma HandleConnectLocked_keeps_type self client s o w w1 ok :
  get s w = Some o →
  HandleConnectLocked self client w = Some (w1, ok) →
  ∃ o1, get s w1 = Some o1 ∧ socket_type_ o1 = socket_type_ o.
Proof.
  unfold HandleConnectLocked. intros Hs H.
  destruct (get self w) as [this|] eqn:Hself; [simpl in H | done].
  destruct (bool_decide _); [|injection H as <- _; eauto].
  destruct (negb _); [injection H as <- _; eauto|].
  destruct (_ =? _); [injection H as <- _; eauto|].
  assert (∃ o1, get s (put self (set_connection_queue_
                                   (connection_queue_ this ++ [client]) this) w)
                = Some o1
                ∧ socket_type_ o1 = socket_type_ o) as Hput.
  { rewrite get_put. case_decide; [|by eauto]. subst.
    eexists; split; [done|]. simpl. congruence. }
  destruct (_ =? _)%nat; injection H as <- _; [by rewrite get_emit | done].
Qed.

(** X4.  connect fails with EISCONN, ENOSYS, EINVAL or ECONNREFUSED only,
    and then leaves the store as it was; ENOSYS means a non-blocking
    endpoint that is not a datagram one.  Otherwise it returns 0 at once on
    a datagram endpoint and parks the caller on any other. *)
Theorem connect_outcomes self this addr addrlen w w' r :
  get self w = Some this →
  connect self addr addrlen w = Some (w', r) →
  match r with
  | Err e =>
      w' = w
      ∧ (e = EISCONN ∨ e = ENOSYS ∨ e = EINVAL ∨ e = ECONNREFUSED)
      ∧ (e = ENOSYS → socket_type_ this ≠ SOCK_DGRAM ∧ is_block this = false)
  | Ret n => n = 0 ∧ socket_type_ this = SOCK_DGRAM
  | Suspended => socket_type_ this ≠ SOCK_DGRAM
  end.
Proof.
  intros Hs H. unfold connect in H. rewrite Hs in H; simpl in H.
  destruct (bool_decide (_ ∨ _)).
  { injection H as <- <-. split_and!; [done | eauto | done]. }
  destruct (negb (bool_decide (socket_type_ this = SOCK_DGRAM))
            && negb (is_block this)) eqn:Hguard.
  { injection H as <- <-. split_and!; [done | eauto |]. intros _.
    apply andb_true_iff in Hguard as [Hty Hblock].
    apply negb_true_iff in Hty, Hblock.
    by apply bool_decide_eq_false in Hty. }
  unfold ValidateSockaddr in H.
  destruct (negb (sa_family addr =? AF_UNIX)).
  { injection H as <- <-. split_and!; [done | eauto | done]. }
  destruct (addrlen <? _).
  { injection H as <- <-. split_and!; [done | eauto | done]. }
  assert (∃ logd_name name ns,
            (match ConvertSockaddrToName addr addrlen with
             | Some logd_name =>
                 Some (logd_name, NameRegistry.GetByName logd_name (logd_ns w))
             | None =>
                 match ConvertSockaddrToAbstractName addr addrlen with
                 | Some abstract_name =>
                     Some (EmptyString,
                           NameRegistry.GetByName abstract_name (abstract_ns w))
                 | None => None
                 end
             end) = Some (logd_name, NameRegistry.GetByName name ns))
    as (logd_name & name & ns & Hfound).
  { destruct (ConvertSockaddrToName addr addrlen) as [name|] eqn:Hname; [eauto|].
    apply conversions_exclusive in Hname as [name Hname]. rewrite Hname. eauto. }
  rewrite Hfound in H. clear Hfound.
  destruct (NameRegistry.GetByName name ns) as [bound_socket|].
  2: { injection H as <- <-. split_and!; [done | eauto 6 | done]. }
  destruct (get bound_socket w) as [bound|]; [|done].
  cbn [mbind option_bind] in H.
  destruct (negb (bool_decide (socket_type_ bound = socket_type_ this))).
  { injection H as <- <-. split_and!; [done | eauto 6 | done]. }
  destruct (HandleConnectLocked bound_socket self w) as [[w1 ok]|] eqn:Hh;
    [simpl in H | done].
  destruct ok; simpl in H.
  2: { injection H as <- <-. apply HandleConnectLocked_refuses in Hh as ->.
       split_and!; [done | eauto 6 | done]. }
  destruct (HandleConnectLocked_keeps_type _ _ _ _ _ _ _ Hs Hh)
    as (this1 & Hs1 & Hty1).
  rewrite Hs1 in H; simpl in H.
  unfold WaitForLocalSocketConnect in H. rewrite get_put_eq in H; simpl in H.
  rewrite Hty1 in H.
  case_bool_decide as Hty; simpl in H; injection H as <- <-.
  - by destruct Hty as [-> | ->].
  - split; [done|]. destruct (socket_type_ this); naive_solver.
Qed.
End Addresses.

(** ** The data path *)

Section DataPath.
Context {FdTable : Type} {vfs : VirtualFileSystem FdTable}
        {layout : CmsgLayout} {util : SocketUtil}.
Implicit Types w : World FdTable.
Implicit Types b : RingBuffer.t.

(** Room left in a ring, in bytes. *)
#[local] Abbreviation ring_room b :=
  (Z.to_nat (RingBuffer.capacity b - RingBuffer.size b)).

Lemma ring_eta b : RingBuffer.mk (RingBuffer.capacity b) (RingBuffer.data b) = b.
Proof. by destruct b. Qed.

Lemma set_buffer_same this : set_buffer_ (buffer_ this) this = this.
Proof. by destruct this. Qed.

Lemma RingBuffer_write_spec bytes b :
  RingBuffer.write bytes b
  = (RingBuffer.mk (RingBuffer.capacity b)
       (RingBuffer.data b ++ take (ring_room b) bytes),
     Z.of_nat (length (take (ring_room b) bytes))).
Proof.
  unfold RingBuffer.write.
  assert (take (Z.to_nat (Z.min (RingBuffer.capacity b - RingBuffer.size b)
                            (Z.of_nat (length bytes)))) bytes
          = take (ring_room b) bytes) as ->; [|done].
  destruct (decide (RingBuffer.capacity b - RingBuffer.size b
                    ≤ Z.of_nat (length bytes))).
  - by rewrite Z.min_l.
  - rewrite Z.min_r by lia. rewrite Nat2Z.id.
    rewrite !take_ge; [done | lia | lia].
Qed.

Lemma stream_write_loop_spec iov b :
  stream_write_loop iov b
  = (RingBuffer.mk (RingBuffer.capacity b)
       (RingBuffer.data b ++ take (ring_room b) (concat iov)),
     Z.of_nat (length (concat iov)),
     Z.of_nat (length (take (ring_room b) (concat iov)))).
Proof.
  revert b. induction iov as [|bytes iov IH]; intros b.
  - simpl. rewrite take_nil, app_nil_r. by rewrite ring_eta.
  - cbn [stream_write_loop concat]. rewrite RingBuffer_write_spec, IH.
    unfold RingBuffer.size. cbn [RingBuffer.capacity RingBuffer.data].
    set (r := Z.to_nat (RingBuffer.capacity b
                        - Z.of_nat (length (RingBuffer.data b)))).
    assert (Z.to_nat (RingBuffer.capacity b
                      - Z.of_nat (length (RingBuffer.data b ++ take r bytes)))
            = (r - length bytes)%nat) as ->.
    { rewrite length_app, length_take. lia. }
    rewrite (take_app bytes _ r), <- app_assoc, !length_app, !Nat2Z.inj_add.
    done.
Qed.

Lemma size_0_data b : RingBuffer.size b = 0 ↔ RingBuffer.data b = [].
Proof.
  unfold RingBuffer.size. rewrite <- length_zero_iff_nil. lia.
Qed.

Lemma stream_read_loop_spec iov b :
  ∃ outs,
    stream_read_loop iov b
    = (RingBuffer.mk (RingBuffer.capacity b)
         (drop (sum_list iov) (RingBuffer.data b)),
       outs,
       Z.of_nat (length (take (sum_list iov) (RingBuffer.data b))))
    ∧ concat outs = take (sum_list iov) (RingBuffer.data b)
    ∧ Forall2 (λ bytes iov_len, (length bytes ≤ iov_len)%nat) outs iov.
Proof.
  revert b. induction iov as [|iov_len iov IH]; intros b.
  - exists []. simpl. rewrite take_0, drop_0, ring_eta. by split_and!.
  - cbn [stream_read_loop sum_list foldr].
    destruct (0 <? RingBuffer.size b) eqn:Hsize.
    + unfold RingBuffer.read.
      destruct (IH (RingBuffer.mk (RingBuffer.capacity b)
                      (drop iov_len (RingBuffer.data b))))
        as (outs & -> & Hcat & Hlen).
      cbn [RingBuffer.capacity RingBuffer.data] in *.
      exists (take iov_len (RingBuffer.data b) :: outs).
      rewrite drop_drop. cbn [concat]. rewrite Hcat, take_take_drop.
      split_and!; [|done|].
      * rewrite <- Nat2Z.inj_add, <- length_app, take_take_drop. done.
      * constructor; [|done]. rewrite length_take. lia.
    + apply Z.ltb_ge in Hsize.
      assert (RingBuffer.data b = []) as Hnil.
      { apply size_0_data. unfold RingBuffer.size in *. lia. }
      exists (blank_iov (iov_len :: iov)).
      rewrite <- (ring_eta b) at 1.
      rewrite Hnil, drop_nil, take_nil, concat_blank_iov.
      split_and!; [done | done |]. apply blank_iov_within.
Qed.

Lemma send_data_stream this msg cred :
  socket_type_ this = SOCK_STREAM →
  send_data this msg cred
  = (set_buffer_
       (RingBuffer.mk (RingBuffer.capacity (buffer_ this))
          (RingBuffer.data (buffer_ this)
           ++ take (ring_room (buffer_ this)) (concat (smsg_iov msg))))
       this,
     Z.of_nat (length (concat (smsg_iov msg))),
     Z.of_nat (length (take (ring_room (buffer_ this)) (concat (smsg_iov msg))))).
Proof.
  intros Hty. unfold send_data. rewrite Hty, bool_decide_eq_true_2 by done.
  destruct (smsg_iov msg) as [|bytes iov] eqn:Hiov.
  - simpl. rewrite take_nil, app_nil_r, ring_eta, set_buffer_same. done.
  - change (0 <? length (bytes :: iov))%nat with true. cbv iota.
    by rewrite stream_write_loop_spec.
Qed.

Lemma send_data_datagram this msg cred :
  socket_type_ this ≠ SOCK_STREAM →
  smsg_iov msg ≠ [] →
  send_data this msg cred
  = (set_queue_
       (queue_ this ++ [mk_Datagram cred (concat (smsg_iov msg))]) this,
     Z.of_nat (length (concat (smsg_iov msg))),
     Z.of_nat (length (concat (smsg_iov msg)))).
Proof.
  intros Hty Hiov. unfold send_data. rewrite bool_decide_eq_false_2 by done.
  by destruct (smsg_iov msg).
Qed.

Lemma recv_data_stream this msg :
  socket_type_ this = SOCK_STREAM →
  ∃ outs,
    recv_data this msg
    = (set_buffer_
         (RingBuffer.mk (RingBuffer.capacity (buffer_ this))
            (drop (sum_list (rmsg_iov msg)) (RingBuffer.data (buffer_ this))))
         this,
       outs,
       Z.of_nat (length (take (sum_list (rmsg_iov msg))
                           (RingBuffer.data (buffer_ this)))),
       0, peer_cred_ this)
    ∧ concat outs
      = take (sum_list (rmsg_iov msg)) (RingBuffer.data (buffer_ this))
    ∧ Forall2 (λ bytes iov_len, (length bytes ≤ iov_len)%nat)
        outs (rmsg_iov msg).
Proof.
  intros Hty. unfold recv_data. rewrite Hty, bool_decide_eq_true_2 by done.
  destruct (0 <? RingBuffer.size (buffer_ this)) eqn:Hsize.
  - destruct (stream_read_loop_spec (rmsg_iov msg) (buffer_ this))
      as (outs & -> & Hcat & Hlen). by exists outs.
  - apply Z.ltb_ge in Hsize.
    assert (RingBuffer.data (buffer_ this) = []) as Hnil.
    { apply size_0_data. unfold RingBuffer.size in *. lia. }
    exists (blank_iov (rmsg_iov msg)).
    rewrite <- (set_buffer_same this) at 1. rewrite <- (ring_eta (buffer_ this)) at 1.
    rewrite Hnil, drop_nil, take_nil, concat_blank_iov.
    split_and!; [done | done |]. apply blank_iov_within.
Qed.

Lemma HandleSendmsgLocked_spec p obj msg cred w obj1 attempted sent :
  get p w = Some obj →
  send_data obj msg cred = (obj1, attempted, sent) →
  0 ≤ sent →
  ∃ w' obj',
    HandleSendmsgLocked p msg cred w
    = Some (w', if (sent =? 0) && negb (attempted =? 0)
                then Err EAGAIN else Ret sent)
    ∧ get p w' = Some obj'
    ∧ (∀ s, s ≠ p → get s w' = get s w)
    ∧ (sent = 0 → w' = put p obj1 w)
    ∧ (0 < sent →
       let '(fds, tbl, log) :=
         dup_fds (wire_rights (smsg_control msg)) [] (fd_table w) [] in
       obj' = (if 0 <? smsg_controllen msg
               then set_cmsg_fd_queue_ (cmsg_fd_queue_ obj1 ++ [fds]) obj1
               else obj1)
       ∧ fd_table w' = (if 0 <? smsg_controllen msg then tbl else fd_table w)
       ∧ effects w'
         = effects w ++ (if 0 <? smsg_controllen msg then log else [])
           ++ [Broadcast; NotifyListeners p]).
Proof.
  intros Hp Hdata Hsent. unfold HandleSendmsgLocked.
  rewrite Hp. cbn [mbind option_bind]. rewrite Hdata.
  destruct (decide (sent = 0)) as [-> | Hpos].
  - change (negb (0 =? 0) && (0 <? smsg_controllen msg)) with false.
    change (0 <? 0) with false. cbv iota.
    change (fd_table w) with (fd_table (put p obj1 w)).
    rewrite emit_nil, set_fd_table_same.
    exists (put p obj1 w), obj1. change (0 =? 0) with true.
    rewrite get_put_eq. split_and!; [by destruct (attempted =? 0) | done | | done | lia].
    intros s Hne. by rewrite get_put_ne.
  - assert ((sent =? 0) = false) as -> by (apply Z.eqb_neq; lia).
    assert ((0 <? sent) = true) as -> by (apply Z.ltb_lt; lia).
    rewrite collect_rights_wire.
    cbn [negb andb].
    destruct (dup_fds (wire_rights (smsg_control msg)) [] (fd_table w) [])
      as [[fds tbl] log] eqn:Hdup.
    destruct (0 <? smsg_controllen msg); cbv iota.
    + eexists _, _. split; [done|]. rewrite !get_emit, get_set_fd_table, get_put_eq.
      split; [done|]. split.
      { intros s Hne. by rewrite !get_emit, get_set_fd_table, get_put_ne. }
      split; [lia|]. intros _. simpl. by rewrite <- app_assoc.
    + eexists _, _. split; [done|]. rewrite !get_emit, get_set_fd_table, get_put_eq.
      split; [done|]. split.
      { intros s Hne. by rewrite !get_emit, get_set_fd_table, get_put_ne. }
      split; [lia|]. intros _. simpl. by rewrite app_nil_r.
Qed.

Lemma recvmsg_ready_spec self this msg w this1 outs n flags1 cred :
  get self w = Some this →
  recv_data this msg = (this1, outs, n, flags1, cred) →
  ∃ w' this' out,
    recvmsg_ready self msg w
    = Some (w',
            if 0 <? n then Ret n
            else if bool_decide (peer_ this = None)
                    && negb (bool_decide (socket_type_ this = SOCK_DGRAM))
            then Ret 0 else Err EAGAIN,
            out)
    ∧ out_iov out = outs
    ∧ get self w' = Some this'
    ∧ (∀ s, s ≠ self → get s w' = get s w)
    ∧ (n ≤ 0 → w' = put self this1 w ∧ out = mk_recv_output outs [] 0 flags1)
    ∧ (0 < n →
       let '(this2, control, controllen, tbl, log, flags2) :=
         build_control (rmsg_controllen msg) cred this1 (fd_table w) flags1 in
       this' = this2
       ∧ out = mk_recv_output outs control controllen flags2
       ∧ fd_table w' = tbl
       ∧ effects w'
         = effects w ++ log
           ++ match peer_ this with
              | Some p => [NotifyListeners p]
              | None => []
              end).
Proof.
  intros Hs Hdata. unfold recvmsg_ready.
  rewrite Hs. cbn [mbind option_bind]. rewrite Hdata.
  destruct (decide (0 < n)) as [Hpos | Hle].
  - assert ((n <=? 0) = false) as -> by (apply Z.leb_gt; lia).
    assert ((0 <? n) = true) as -> by (apply Z.ltb_lt; lia).
    destruct (build_control _ _ _ _ _) as [[[[[this2 control] len] tbl] log] fl].
    eexists _, _, _. split; [done|]. cbn [out_iov fst snd].
    split; [done|].
    assert (∀ s, get s (match peer_ this with
                        | Some p =>
                            emit [NotifyListeners p]
                              (emit log (set_fd_table tbl (put self this2 w)))
                        | None => emit log (set_fd_table tbl (put self this2 w))
                        end) = get s (put self this2 w)) as Hget.
    { intros s. destruct (peer_ this); by rewrite ?get_emit, get_set_fd_table. }
    rewrite Hget, get_put_eq. split; [done|]. split.
    { intros s Hne. by rewrite Hget, get_put_ne. }
    split; [lia|]. intros _. split_and!; try done.
    + by destruct (peer_ this).
    + destruct (peer_ this); simpl; [by rewrite <- app_assoc | by rewrite app_nil_r].
  - assert ((n <=? 0) = true) as -> by (apply Z.leb_le; lia).
    assert ((0 <? n) = false) as -> by (apply Z.ltb_ge; lia).
    change (fd_table w) with (fd_table (put self this1 w)).
    rewrite emit_nil, set_fd_table_same.
    destruct (_ && _); eexists _, _, _; (split; [done|]); cbn [out_iov];
      rewrite get_put_eq; split_and!; try done; try lia;
      intros s Hne; by rewrite get_put_ne.
Qed.

Lemma length_eqb_0 {A} (l : list A) :
  (Z.of_nat (length l) =? 0) = bool_decide (l = []).
Proof. by destruct l. Qed.

Lemma sendmsg_to_peer self this p msg flags w :
  get self w = Some this →
  stream_dir_ this ≠ READ_ONLY →
  socket_type_ this = SOCK_DGRAM ∨ connect_state_ this = SOCKET_CONNECTED →
  peer_ this = Some p →
  sendmsg self msg flags w = HandleSendmsgLocked p msg (my_cred_ this) w.
Proof.
  intros Hs Hdir Hstate Hpeer. unfold sendmsg.
  rewrite Hs. cbn [mbind option_bind].
  rewrite bool_decide_eq_false_2 by done.
  assert (negb (bool_decide (socket_type_ this = SOCK_DGRAM))
          && negb (bool_decide (connect_state_ this = SOCKET_CONNECTED))
          = false) as ->.
  { destruct Hstate as [H | H]; rewrite H.
    - done.
    - by rewrite andb_false_r. }
  by rewrite Hpeer.
Qed.

Lemma IsSelectReadReady_POLLIN this w :
  connect_state_ this = SOCKET_CONNECTED →
  stream_dir_ this ≠ WRITE_ONLY →
  (stream_dir_ this = READ_ONLY → 0 < RingBuffer.size (buffer_ this)) →
  (stream_dir_ this = READ_WRITE → CanRead this = true) →
  (∀ p, peer_ this = Some p → is_Some (get p w)) →
  IsSelectReadReady this w = Some true.
Proof.
  intros Hstate Hdir Hro Hrw Hpeer. unfold IsSelectReadReady, GetPollEvents.
  rewrite Hstate. destruct (stream_dir_ this); [|done|].
  - assert ((0 <? RingBuffer.size (buffer_ this)) = true) as ->.
    { apply Z.ltb_lt. by apply Hro. }
    cbn [mbind option_bind]. by destruct (bool_decide _).
  - assert (∃ cw, CanWrite this w = Some cw) as [cw ->].
    { unfold CanWrite. destruct (peer_ this) as [p|]; [|by eauto].
      destruct (bool_decide _); [|by eauto].
      destruct (Hpeer p eq_refl) as [o ->]. simpl. eauto. }
    rewrite Hrw by done. cbn [mbind option_bind].
    by destruct cw, (negb _ && _).
Qed.

Lemma recvmsg_when_ready self this msg flags w :
  get self w = Some this →
  stream_dir_ this ≠ WRITE_ONLY →
  socket_type_ this = SOCK_DGRAM ∨ connect_state_ this = SOCKET_CONNECTED →
  recvmsg_must_wait this flags w = Some false →
  recvmsg self msg flags w = recvmsg_ready self msg w.
Proof.
  intros Hs Hdir Hstate Hwait. unfold recvmsg.
  rewrite Hs. cbn [mbind option_bind].
  rewrite bool_decide_eq_false_2 by done.
  assert (negb (bool_decide (socket_type_ this = SOCK_DGRAM))
          && negb (bool_decide (connect_state_ this = SOCKET_CONNECTED))
          = false) as ->.
  { destruct Hstate as [H | H]; rewrite H.
    - done.
    - by rewrite andb_false_r. }
  by rewrite Hwait.
Qed.

Lemma recvmsg_must_wait_ready this flags w :
  (is_Some (peer_ this) → IsSelectReadReady this w = Some true) →
  recvmsg_must_wait this flags w = Some false.
Proof.
  intros Hready. unfold recvmsg_must_wait.
  destruct (_ && _); [|done].
  destruct (peer_ this); [|done]. by rewrite Hready.
Qed.

Lemma build_control_buffer controllen cred this tbl flags :
  buffer_ (build_control controllen cred this tbl flags).1.1.1.1.1
  = buffer_ this
  ∧ queue_ (build_control controllen cred this tbl flags).1.1.1.1.1
    = queue_ this.
Proof.
  destruct (build_control_spec controllen cred this tbl flags)
    as (kept & dropped & control & out_len & _ & -> & _). done.
Qed.

Lemma sendmsg_stream_spec
    w self this p peer_obj (msg : send_msghdr) flags :
  get self w = Some this →
  stream_dir_ this ≠ READ_ONLY →
  connect_state_ this = SOCKET_CONNECTED →
  peer_ this = Some p →
  get p w = Some peer_obj →
  socket_type_ peer_obj = SOCK_STREAM →
  let payload := concat (smsg_iov msg) in
  let ring := buffer_ peer_obj in
  let sent :=
    take (Z.to_nat (RingBuffer.capacity ring - RingBuffer.size ring)) payload in
  ∃ w',
    sendmsg self msg flags w
    = Some (w', if bool_decide (sent = [])
                then (if bool_decide (payload = []) then Ret 0 else Err EAGAIN)
                else Ret (Z.of_nat (length sent)))
    ∧ buffer_ <$> get p w'
      = Some (RingBuffer.mk (RingBuffer.capacity ring)
                (RingBuffer.data ring ++ sent))
    ∧ (sent = [] → w' = w).
Proof.
  intros Hs Hdir Hstate Hpeer Hp Hty payload ring sent.
  rewrite (sendmsg_to_peer _ _ _ _ _ _ Hs Hdir (or_intror Hstate) Hpeer).
  pose proof (send_data_stream peer_obj msg (my_cred_ this) Hty) as Hdata.
  fold payload ring sent in Hdata.
  destruct (HandleSendmsgLocked_spec _ _ _ _ _ _ _ _ Hp Hdata)
    as (w' & obj' & -> & Hp' & _ & Hzero & Hpos); [lia|].
  exists w'. rewrite !length_eqb_0.
  assert (sent = [] → w' = w) as Hsame.
  { intros Hsent. rewrite Hzero by (by rewrite Hsent).
    rewrite Hsent, app_nil_r. unfold ring. rewrite ring_eta, set_buffer_same.
    by apply put_same. }
  split_and!; [| |done].
  - f_equal. f_equal. case_bool_decide as Hsent; [|done].
    rewrite Hsent. simpl. by case_bool_decide.
  - destruct (decide (sent = [])) as [Hsent | Hsent].
    + rewrite (Hsame Hsent), Hp, Hsent, app_nil_r. simpl.
      unfold ring. by rewrite ring_eta.
    + rewrite Hp'. simpl. f_equal.
      assert (0 < Z.of_nat (length sent)) as Hn.
      { destruct (decide (length sent = 0%nat)) as [Hlen | Hlen]; [|lia].
        by apply length_zero_iff_nil in Hlen. }
      specialize (Hpos Hn).
      destruct (dup_fds _ _ _ _) as [[fds tbl] log].
      destruct Hpos as (-> & _). by destruct (0 <? smsg_controllen msg).
Qed.

Lemma recvmsg_stream_spec w self this (msg : recv_msghdr) flags :
  get self w = Some this →
  socket_type_ this = SOCK_STREAM →
  stream_dir_ this ≠ WRITE_ONLY →
  connect_state_ this = SOCKET_CONNECTED →
  RingBuffer.data (buffer_ this) ≠ [] →
  (∀ p, peer_ this = Some p → is_Some (get p w)) →
  let held := RingBuffer.data (buffer_ this) in
  let got := take (sum_list (rmsg_iov msg)) held in
  ∃ w' out,
    recvmsg self msg flags w
    = Some (w',
            if bool_decide (got = [])
            then (if bool_decide (peer_ this = None) then Ret 0 else Err EAGAIN)
            else Ret (Z.of_nat (length got)),
            out)
    ∧ concat (out_iov out) = got
    ∧ Forall2 (λ bytes iov_len, (length bytes ≤ iov_len)%nat)
        (out_iov out) (rmsg_iov msg)
    ∧ buffer_ <$> get self w'
      = Some (RingBuffer.mk (RingBuffer.capacity (buffer_ this))
                (drop (sum_list (rmsg_iov msg)) held)).
Proof.
  intros Hs Hty Hdir Hstate Hdata Hpeer held got.
  assert (0 < RingBuffer.size (buffer_ this)) as Hsize.
  { unfold RingBuffer.size. destruct (RingBuffer.data (buffer_ this)); [done|].
    simpl. lia. }
  assert (recvmsg_must_wait this flags w = Some false) as Hwait.
  { apply recvmsg_must_wait_ready; intros _.
    apply IsSelectReadReady_POLLIN; try done.
    intros _. unfold CanRead. rewrite Hty. simpl.
    destruct (bool_decide (peer_ this = None)); [done|]. by apply Z.ltb_lt. }
  rewrite (recvmsg_when_ready _ _ _ _ _ Hs Hdir (or_intror Hstate) Hwait).
  destruct (recv_data_stream this msg Hty) as (outs & Hrecv & Hcat & Hlen).
  fold held got in Hrecv, Hcat.
  destruct (recvmsg_ready_spec _ _ _ _ _ _ _ _ _ Hs Hrecv)
    as (w' & this' & out & -> & Hout & Hs' & _ & Hzero & Hpos).
  exists w', out. rewrite Hout.
  assert ((0 <? Z.of_nat (length got)) = negb (bool_decide (got = []))) as Hlt.
  { rewrite <- length_eqb_0. destruct (length got); [done|].
    by rewrite (proj2 (Z.ltb_lt _ _)) by lia. }
  split_and!; [|done|done|].
  - f_equal. f_equal. f_equal. rewrite Hty, Hlt. simpl. rewrite andb_true_r.
    by case_bool_decide.
  - rewrite Hs'. simpl. f_equal.
    destruct (decide (got = [])) as [Hgot | Hgot].
    + destruct Hzero as [-> _].
      { rewrite Hgot. simpl. lia. }
      rewrite get_put_eq in Hs'. by injection Hs' as <-.
    + assert (0 < Z.of_nat (length got)) as Hn.
      { destruct (decide (length got = 0%nat)) as [Hl | Hl]; [|lia].
        by apply length_zero_iff_nil in Hl. }
      pose proof (build_control_buffer (rmsg_controllen msg) (peer_cred_ this)
                    (set_buffer_
                       (RingBuffer.mk (RingBuffer.capacity (buffer_ this))
                          (drop (sum_list (rmsg_iov msg)) held)) this)
                    (fd_table w) 0) as [Hbuf _].
      specialize (Hpos Hn).
      destruct (build_control _ _ _ _ _)
        as [[[[[this2 control] len] tbl] log] fl].
      destruct Hpos as (-> & _). exact Hbuf.
Qed.

(** X5.  A send on a connected stream endpoint whose peer's ring has room
    writes as much of the payload as fits, iovec boundaries ignored, at
    the end of the ring and returns that count: the write is partial
    rather than blocking. *)
Theorem sendmsg_stream_partial
    w self this p peer_obj (msg : send_msghdr) flags :
  get self w = Some this →
  stream_dir_ this ≠ READ_ONLY →
  connect_state_ this = SOCKET_CONNECTED →
  peer_ this = Some p →
  get p w = Some peer_obj →
  socket_type_ peer_obj = SOCK_STREAM →
  let payload := concat (smsg_iov msg) in
  let ring := buffer_ peer_obj in
  let room := RingBuffer.capacity ring - RingBuffer.size ring in
  payload ≠ [] →
  0 < room →
  ∃ w',
    sendmsg self msg flags w
    = Some (w', Ret (Z.min room (Z.of_nat (length payload))))
    ∧ buffer_ <$> get p w'
      = Some (RingBuffer.mk (RingBuffer.capacity ring)
                (RingBuffer.data ring ++ take (Z.to_nat room) payload)).
Proof.
  intros Hs Hdir Hstate Hpeer Hp Hty payload ring room Hpay Hroom.
  destruct (sendmsg_stream_spec w self this p peer_obj msg flags)
    as (w' & Hsend & Hbuf & _); try done.
  exists w'. split; [|done]. rewrite Hsend. do 2 f_equal.
  fold payload ring room.
  rewrite bool_decide_eq_false_2.
  - rewrite length_take. f_equal. lia.
  - intros Hnil. apply (f_equal length) in Hnil.
    rewrite length_take in Hnil. simpl in Hnil.
    assert (length payload ≠ 0%nat) by (by rewrite length_zero_iff_nil).
    lia.
Qed.


(** X7.  A receive on a connected stream endpoint that holds data never
    waits.  With room for at least one byte in the iovecs it hands out the
    oldest bytes of the ring, as many as the iovecs can take, spread over
    them in order, returns their number and keeps the rest.  Without any
    room it reads nothing and leaves the ring as it is, but does not
    return 0 for that: it fails with EAGAIN, or returns 0 as for end of
    file when the peer is gone. *)
Theorem recvmsg_stream w self this (msg : recv_msghdr) flags :
  get self w = Some this →
  socket_type_ this = SOCK_STREAM →
  stream_dir_ this ≠ WRITE_ONLY →
  connect_state_ this = SOCKET_CONNECTED →
  RingBuffer.data (buffer_ this) ≠ [] →
  (∀ p, peer_ this = Some p → is_Some (get p w)) →
  let held := RingBuffer.data (buffer_ this) in
  let count := (length held `min` sum_list (rmsg_iov msg))%nat in
  ∃ w' out,
    recvmsg self msg flags w
    = Some (w',
            if (0 <? sum_list (rmsg_iov msg))%nat then Ret (Z.of_nat count)
            else if bool_decide (peer_ this = None) then Ret 0
            else Err EAGAIN,
            out)
    ∧ concat (out_iov out) = take count held
    ∧ Forall2 (λ bytes iov_len, (length bytes ≤ iov_len)%nat)
        (out_iov out) (rmsg_iov msg)
    ∧ buffer_ <$> get self w'
      = Some (RingBuffer.mk (RingBuffer.capacity (buffer_ this))
                (drop count held)).
Proof.
  intros Hs Hty Hdir Hstate Hdata Hpeer held count.
  destruct (recvmsg_stream_spec w self this msg flags)
    as (w' & out & Hrecv & Hcat & Hlen & Hbuf); try done.
  fold held in Hrecv, Hcat, Hbuf.
  assert (length held ≠ 0%nat) as Hheld by (by rewrite length_zero_iff_nil).
  assert (take (sum_list (rmsg_iov msg)) held = take count held) as Htake.
  { unfold count. destruct (decide (length held ≤ sum_list (rmsg_iov msg))%nat).
    - rewrite Nat.min_l by done. by rewrite !take_ge by lia.
    - by rewrite Nat.min_r by lia. }
  assert (drop (sum_list (rmsg_iov msg)) held = drop count held) as Hdrop.
  { unfold count. destruct (decide (length held ≤ sum_list (rmsg_iov msg))%nat).
    - rewrite Nat.min_l by done. by rewrite !drop_ge by lia.
    - by rewrite Nat.min_r by lia. }
  exists w', out. rewrite Hrecv, Hcat, Hbuf, Htake, Hdrop.
  split_and!; try done. do 3 f_equal.
  destruct (0 <? sum_list (rmsg_iov msg))%nat eqn:Hcap.
  - apply Nat.ltb_lt in Hcap. rewrite bool_decide_eq_false_2.
    + f_equal. rewrite length_take. unfold count. lia.
    + intros Hnil. apply (f_equal length) in Hnil.
      rewrite length_take in Hnil. simpl in Hnil. unfold count in Hnil. lia.
  - apply Nat.ltb_ge in Hcap. rewrite bool_decide_eq_true_2; [done|].
    unfold count. replace (sum_list (rmsg_iov msg)) with 0%nat by lia.
    by rewrite Nat.min_0_r.
Qed.
End DataPath.

(** ** Round trips *)

Section RoundTrips.
Context {FdTable : Type} {vfs : VirtualFileSystem FdTable}
        {layout : CmsgLayout} {util : SocketUtil}.
Implicit Types w : World FdTable.

(** What a delivering HandleSendmsgLocked leaves of the receiving
    endpoint: the object after the data part, with one more entry in its
    control queue when there was control data. *)
Lemma HandleSendmsgLocked_fields p obj msg cred w obj1 attempted sent :
  get p w = Some obj →
  send_data obj msg cred = (obj1, attempted, sent) →
  0 ≤ sent →
  ∃ w' obj',
    HandleSendmsgLocked p msg cred w
    = Some (w', if (sent =? 0) && negb (attempted =? 0)
                then Err EAGAIN else Ret sent)
    ∧ get p w' = Some obj'
    ∧ (∀ s, s ≠ p → get s w' = get s w)
    ∧ set_cmsg_fd_queue_ (cmsg_fd_queue_ obj1) obj' = obj1
    ∧ (sent = 0 ∨ smsg_controllen msg ≤ 0 →
       obj' = obj1 ∧ fd_table w' = fd_table w)
    ∧ (sent = 0 → effects w' = effects w)
    ∧ (0 < sent → 0 < smsg_controllen msg →
       ∃ fds tbl log,
         dup_fds (wire_rights (smsg_control msg)) [] (fd_table w) []
         = (fds, tbl, log)
         ∧ cmsg_fd_queue_ obj' = cmsg_fd_queue_ obj1 ++ [fds]
         ∧ fd_table w' = tbl).
Proof.
  intros Hp Hdata Hsent.
  destruct (HandleSendmsgLocked_spec _ _ _ _ _ _ _ _ Hp Hdata Hsent)
    as (w' & obj' & Hsend & Hp' & Hrest & Hzero & Hpos).
  exists w', obj'. split; [done|]. split; [done|]. split; [done|].
  destruct (decide (sent = 0)) as [-> | Hne].
  - rewrite (Hzero eq_refl) in Hp' |- *. rewrite get_put_eq in Hp'.
    injection Hp' as <-. rewrite set_cmsg_fd_queue_same.
    split_and!; try done; lia.
  - assert (0 < sent) as Hlt by lia. specialize (Hpos Hlt).
    destruct (dup_fds _ _ _ _) as [[fds tbl] log].
    destruct Hpos as (-> & Htbl & _).
    destruct (0 <? smsg_controllen msg) eqn:Hctl.
    + apply Z.ltb_lt in Hctl. split; [by destruct obj1|].
      split; [intros [? | ?]; [done | lia]|]. split; [done|].
      intros _ _. by exists fds, tbl, log.
    + apply Z.ltb_ge in Hctl. rewrite set_cmsg_fd_queue_same.
      split; [done|]. split; [done|]. split; [done|]. lia.
Qed.

(** X8.  The bytes written on one end of a stream connection come out of
    the other end behind those already held there, in order: after a send
    of at least one byte that fits into the peer's ring, a receive on the
    peer with room for at least one byte returns the first bytes of what
    was held followed by the payload, as many as there is room for, and
    keeps the remainder; a receive without any room reads nothing and
    fails with EAGAIN (or returns 0 when its own peer is gone). *)
Theorem stream_round_trip
    w a a_obj b b_obj (smsg : send_msghdr) sflags (rmsg : recv_msghdr) rflags :
  get a w = Some a_obj →
  get b w = Some b_obj →
  peer_ a_obj = Some b →
  stream_dir_ a_obj ≠ READ_ONLY →
  connect_state_ a_obj = SOCKET_CONNECTED →
  socket_type_ b_obj = SOCK_STREAM →
  stream_dir_ b_obj ≠ WRITE_ONLY →
  connect_state_ b_obj = SOCKET_CONNECTED →
  (∀ p, peer_ b_obj = Some p → is_Some (get p w)) →
  let held := RingBuffer.data (buffer_ b_obj) in
  let payload := concat (smsg_iov smsg) in
  let count := ((length held + length payload) `min` sum_list (rmsg_iov rmsg))%nat in
  payload ≠ [] →
  Z.of_nat (length held + length payload) ≤ RingBuffer.capacity (buffer_ b_obj) →
  ∃ w1 w2 out,
    sendmsg a smsg sflags w = Some (w1, Ret (Z.of_nat (length payload)))
    ∧ recvmsg b rmsg rflags w1
      = Some (w2,
              if (0 <? sum_list (rmsg_iov rmsg))%nat then Ret (Z.of_nat count)
              else if bool_decide (peer_ b_obj = None) then Ret 0
              else Err EAGAIN,
              out)
    ∧ concat (out_iov out) = take count (held ++ payload)
    ∧ buffer_ <$> get b w2
      = Some (RingBuffer.mk (RingBuffer.capacity (buffer_ b_obj))
                (drop count (held ++ payload))).
Proof.
  intros Ha Hb Hpeer Hdir Hstate Hty Hdirb Hstateb Hpeerb held payload count
    Hpay Hroom.
  assert (length payload ≠ 0%nat) as Hlen by (by rewrite length_zero_iff_nil).
  rewrite (sendmsg_to_peer _ _ _ _ _ _ Ha Hdir (or_intror Hstate) Hpeer).
  pose proof (send_data_stream b_obj smsg (my_cred_ a_obj) Hty) as Hdata.
  fold payload held in Hdata.
  assert (take (Z.to_nat (RingBuffer.capacity (buffer_ b_obj)
                          - RingBuffer.size (buffer_ b_obj))) payload
          = payload) as Hall.
  { apply take_ge. unfold RingBuffer.size. fold held. lia. }
  rewrite Hall in Hdata.
  destruct (HandleSendmsgLocked_fields _ _ _ _ _ _ _ _ Hb Hdata)
    as (w1 & b1 & -> & Hb1 & Hrest & Hobj & _); [lia|].
  assert ((Z.of_nat (length payload) =? 0) = false) as ->
    by (apply Z.eqb_neq; lia).
  apply (f_equal buffer_) in Hobj as Hbuf.
  apply (f_equal socket_type_) in Hobj as Hty1.
  apply (f_equal stream_dir_) in Hobj as Hdir1.
  apply (f_equal connect_state_) in Hobj as Hstate1.
  apply (f_equal peer_) in Hobj as Hpeer1.
  change (buffer_ b1 = RingBuffer.mk (RingBuffer.capacity (buffer_ b_obj))
                         (held ++ payload)) in Hbuf.
  change (socket_type_ b1 = socket_type_ b_obj) in Hty1.
  change (stream_dir_ b1 = stream_dir_ b_obj) in Hdir1.
  change (connect_state_ b1 = connect_state_ b_obj) in Hstate1.
  change (peer_ b1 = peer_ b_obj) in Hpeer1.
  destruct (recvmsg_stream_spec w1 b b1 rmsg rflags)
    as (w2 & out & Hrecv & Hcat & _ & Hbuf2); try congruence.
  { rewrite Hbuf. simpl. by destruct held, payload. }
  { intros p Hp. rewrite Hpeer1 in Hp. destruct (decide (p = b)) as [-> | Hne].
    - by rewrite Hb1.
    - rewrite Hrest by done. by apply Hpeerb. }
  rewrite Hbuf in Hrecv, Hcat, Hbuf2.
  cbn [RingBuffer.data RingBuffer.capacity] in Hrecv, Hcat, Hbuf2.
  assert (take (sum_list (rmsg_iov rmsg)) (held ++ payload)
          = take count (held ++ payload)) as Htake.
  { unfold count.
    destruct (decide (length held + length payload ≤ sum_list (rmsg_iov rmsg))%nat).
    - rewrite Nat.min_l by done. by rewrite !take_ge by (rewrite length_app; lia).
    - by rewrite Nat.min_r by lia. }
  assert (drop (sum_list (rmsg_iov rmsg)) (held ++ payload)
          = drop count (held ++ payload)) as Hdrop.
  { unfold count.
    destruct (decide (length held + length payload ≤ sum_list (rmsg_iov rmsg))%nat).
    - rewrite Nat.min_l by done. by rewrite !drop_ge by (rewrite length_app; lia).
    - by rewrite Nat.min_r by lia. }
  rewrite Htake in Hrecv, Hcat. rewrite Hdrop in Hbuf2.
  exists w1, w2, out. split; [done|]. split; [|done].
  rewrite Hrecv, Hpeer1. do 3 f_equal.
  destruct (0 <? sum_list (rmsg_iov rmsg))%nat eqn:Hcap.
  - apply Nat.ltb_lt in Hcap. rewrite bool_decide_eq_false_2.
    + f_equal. rewrite length_take, length_app. unfold count. lia.
    + intros Hnil. apply (f_equal length) in Hnil.
      rewrite length_take, length_app in Hnil. simpl in Hnil.
      unfold count in Hnil. lia.
  - apply Nat.ltb_ge in Hcap. rewrite bool_decide_eq_true_2; [done|].
    unfold count. replace (sum_list (rmsg_iov rmsg)) with 0%nat by lia.
    by rewrite Nat.min_0_r.
Qed.

(** X9.  A send on a datagram or seqpacket endpoint with a peer never fails
    and never waits.  A message with at least one iovec, even one without
    a byte in it, has its iovecs joined into one datagram that is put at
    the back of the peer's queue together with the sender's own
    credentials; a message without any iovec queues nothing.  In both
    cases the payload size is returned and no other endpoint changes. *)
Theorem sendmsg_datagram
    w self this p peer_obj (msg : send_msghdr) flags :
  get self w = Some this →
  stream_dir_ this ≠ READ_ONLY →
  socket_type_ this = SOCK_DGRAM ∨ connect_state_ this = SOCKET_CONNECTED →
  peer_ this = Some p →
  get p w = Some peer_obj →
  socket_type_ peer_obj ≠ SOCK_STREAM →
  let payload := concat (smsg_iov msg) in
  ∃ w',
    sendmsg self msg flags w = Some (w', Ret (Z.of_nat (length payload)))
    ∧ queue_ <$> get p w'
      = Some (queue_ peer_obj
              ++ (if bool_decide (smsg_iov msg = []) then []
                  else [mk_Datagram (my_cred_ this) payload]))
    ∧ buffer_ <$> get p w' = Some (buffer_ peer_obj)
    ∧ (∀ s, s ≠ p → get s w' = get s w).
Proof.
  intros Hs Hdir Hstate Hpeer Hp Hty payload.
  rewrite (sendmsg_to_peer _ _ _ _ _ _ Hs Hdir Hstate Hpeer).
  case_bool_decide as Hiov.
  - assert (send_data peer_obj msg (my_cred_ this) = (peer_obj, 0, 0)) as Hdata.
    { unfold send_data. by rewrite Hiov. }
    destruct (HandleSendmsgLocked_fields _ _ _ _ _ _ _ _ Hp Hdata)
      as (w' & obj' & -> & Hp' & Hrest & _ & Hplain & _); [lia|].
    destruct Hplain as [-> _]; [by left|].
    exists w'. rewrite Hp'. unfold payload. rewrite Hiov, app_nil_r. done.
  - pose proof (send_data_datagram peer_obj msg (my_cred_ this) Hty Hiov) as Hdata.
    fold payload in Hdata.
    destruct (HandleSendmsgLocked_fields _ _ _ _ _ _ _ _ Hp Hdata)
      as (w' & obj' & -> & Hp' & Hrest & Hobj & _); [lia|].
    exists w'. rewrite Hp'. simpl.
    apply (f_equal queue_) in Hobj as Hq. apply (f_equal buffer_) in Hobj as Hb.
    change (queue_ obj' = queue_ peer_obj ++ [mk_Datagram (my_cred_ this) payload])
      in Hq.
    change (buffer_ obj' = buffer_ peer_obj) in Hb. rewrite Hq, Hb.
    split_and!; try done. f_equal. f_equal.
    by destruct (Z.of_nat (length payload) =? 0) eqn:Hz;
      [apply Z.eqb_eq in Hz as -> |]; simpl.
Qed.

Lemma build_control_no_rights controllen cred this tbl flags :
  cmsg_fd_queue_ this = [] →
  build_control controllen cred this tbl flags
  = (this,
     if negb (pass_cred_ this =? 0) && (CMSG_SPACE sizeof_ucred <=? controllen)
     then [mk_cmsghdr (CMSG_LEN sizeof_ucred) SOL_SOCKET SCM_CREDENTIALS
             [pid cred; uid cred; gid cred]]
     else [],
     if negb (pass_cred_ this =? 0) && (CMSG_SPACE sizeof_ucred <=? controllen)
     then CMSG_LEN sizeof_ucred else 0,
     tbl, [], flags).
Proof.
  intros Hq. unfold build_control. rewrite Hq, Z.add_0_r.
  by destruct (_ && _).
Qed.

(** X10.  A datagram of at least one byte, sent without control data to a
    peer whose datagram queue and whose queue of passed descriptors are
    both empty, is what the peer receives next: the payload whole when the
    iovecs can take it, with MSG_TRUNC clear, and, if the receiver has
    SO_PASSCRED set and the control buffer has room, one SCM_CREDENTIALS
    message that carries the sender's own credentials; no control message
    otherwise. *)
Theorem datagram_round_trip
    w a a_obj b b_obj (smsg : send_msghdr) sflags (rmsg : recv_msghdr) rflags :
  get a w = Some a_obj →
  get b w = Some b_obj →
  peer_ a_obj = Some b →
  stream_dir_ a_obj ≠ READ_ONLY →
  socket_type_ a_obj = SOCK_DGRAM ∨ connect_state_ a_obj = SOCKET_CONNECTED →
  socket_type_ b_obj ≠ SOCK_STREAM →
  stream_dir_ b_obj = READ_WRITE →
  connect_state_ b_obj = SOCKET_CONNECTED
  ∨ (socket_type_ b_obj = SOCK_DGRAM ∧ connect_state_ b_obj = SOCKET_NEW) →
  queue_ b_obj = [] →
  cmsg_fd_queue_ b_obj = [] →
  smsg_controllen smsg ≤ 0 →
  let payload := concat (smsg_iov smsg) in
  payload ≠ [] →
  (length payload ≤ sum_list (rmsg_iov rmsg))%nat →
  ∃ w1 w2 out,
    sendmsg a smsg sflags w = Some (w1, Ret (Z.of_nat (length payload)))
    ∧ recvmsg b rmsg rflags w1 = Some (w2, Ret (Z.of_nat (length payload)), out)
    ∧ concat (out_iov out) = payload
    ∧ out_flags out = 0
    ∧ out_control out
      = (if negb (pass_cred_ b_obj =? 0)
            && (CMSG_SPACE sizeof_ucred <=? rmsg_controllen rmsg)
         then [mk_cmsghdr (CMSG_LEN sizeof_ucred) SOL_SOCKET SCM_CREDENTIALS
                 [pid (my_cred_ a_obj); uid (my_cred_ a_obj);
                  gid (my_cred_ a_obj)]]
         else [])
    ∧ queue_ <$> get b w2 = Some [].
Proof.
  intros Ha Hb Hpeer Hdir Hstate Hty Hdirb Hstateb Hq Hcq Hctl payload
    Hpay Hcap.
  assert (length payload ≠ 0%nat) as Hlen by (by rewrite length_zero_iff_nil).
  assert (smsg_iov smsg ≠ []) as Hiov.
  { intros Hnil. apply Hpay. unfold payload. by rewrite Hnil. }
  rewrite (sendmsg_to_peer _ _ _ _ _ _ Ha Hdir Hstate Hpeer).
  pose proof (send_data_datagram b_obj smsg (my_cred_ a_obj) Hty Hiov) as Hdata.
  fold payload in Hdata. rewrite Hq in Hdata. simpl in Hdata.
  destruct (HandleSendmsgLocked_fields _ _ _ _ _ _ _ _ Hb Hdata)
    as (w1 & b1 & -> & Hb1 & _ & _ & Hplain & _); [lia|].
  destruct Hplain as [-> Htbl]; [by right|].
  assert ((Z.of_nat (length payload) =? 0) = false) as ->
    by (apply Z.eqb_neq; lia).
  set (dg := mk_Datagram (my_cred_ a_obj) payload) in *.
  set (b1 := set_queue_ [dg] b_obj) in *.
  assert (recvmsg_must_wait b1 rflags w1 = Some false) as Hwait.
  { by apply recvmsg_must_wait_datagram. }
  assert (socket_type_ b1 = SOCK_DGRAM
          ∨ connect_state_ b1 = SOCKET_CONNECTED) as Hstate1.
  { destruct Hstateb as [? | [? _]]; [by right | by left]. }
  assert (recvmsg b rmsg rflags w1 = recvmsg_ready b rmsg w1) as Hready.
  { apply (recvmsg_when_ready _ b1); try done. unfold b1. simpl.
    by rewrite Hdirb. }
  destruct (recv_data_datagram b1 dg [] rmsg) as (outs & Hrecv & Hcat & _);
    [done | done |].
  cbn [content_ dg] in Hrecv, Hcat.
  rewrite Nat.min_l in Hrecv, Hcat by done.
  rewrite bool_decide_eq_false_2 in Hrecv by lia.
  rewrite take_ge in Hcat by done.
  destruct (recvmsg_ready_spec _ _ _ _ _ _ _ _ _ Hb1 Hrecv)
    as (w2 & b2 & out & Hrr & Hout & Hb2 & _ & _ & Hpos).
  assert (0 < Z.of_nat (length payload)) as Hn by lia.
  specialize (Hpos Hn).
  rewrite build_control_no_rights in Hpos by done.
  destruct Hpos as (-> & -> & _).
  rewrite (proj2 (Z.ltb_lt _ _) Hn) in Hrr.
  exists w1, w2. eexists. split; [done|].
  rewrite Hready, Hrr. split; [done|].
  rewrite Hb2. split_and!; done.
Qed.

(** X11.  A datagram without content is queued without waking anyone, and the
    receive that meets it takes it off the queue and reports that nothing
    is there: a zero-length datagram is never seen as a read of 0 bytes
    by a receiver whose peer is alive. *)
Theorem zero_length_datagram
    w a a_obj b b_obj (smsg : send_msghdr) sflags (rmsg : recv_msghdr) rflags :
  get a w = Some a_obj →
  get b w = Some b_obj →
  peer_ a_obj = Some b →
  stream_dir_ a_obj ≠ READ_ONLY →
  socket_type_ a_obj = SOCK_DGRAM ∨ connect_state_ a_obj = SOCKET_CONNECTED →
  socket_type_ b_obj ≠ SOCK_STREAM →
  stream_dir_ b_obj = READ_WRITE →
  connect_state_ b_obj = SOCKET_CONNECTED
  ∨ (socket_type_ b_obj = SOCK_DGRAM ∧ connect_state_ b_obj = SOCKET_NEW) →
  queue_ b_obj = [] →
  smsg_iov smsg ≠ [] →
  concat (smsg_iov smsg) = [] →
  ∃ w1 w2 out,
    sendmsg a smsg sflags w = Some (w1, Ret 0)
    ∧ queue_ <$> get b w1 = Some [mk_Datagram (my_cred_ a_obj) []]
    ∧ effects w1 = effects w
    ∧ recvmsg b rmsg rflags w1
      = Some (w2,
              if bool_decide (peer_ b_obj = None)
                 && negb (bool_decide (socket_type_ b_obj = SOCK_DGRAM))
              then Ret 0 else Err EAGAIN,
              out)
    ∧ out_control out = []
    ∧ queue_ <$> get b w2 = Some [].
Proof.
  intros Ha Hb Hpeer Hdir Hstate Hty Hdirb Hstateb Hq Hiov Hpay.
  rewrite (sendmsg_to_peer _ _ _ _ _ _ Ha Hdir Hstate Hpeer).
  pose proof (send_data_datagram b_obj smsg (my_cred_ a_obj) Hty Hiov) as Hdata.
  rewrite Hpay, Hq in Hdata. simpl in Hdata.
  destruct (HandleSendmsgLocked_fields _ _ _ _ _ _ _ _ Hb Hdata)
    as (w1 & b1 & -> & Hb1 & _ & _ & Hplain & Heff & _); [lia|].
  destruct Hplain as [-> Htbl]; [by left|].
  set (dg := mk_Datagram (my_cred_ a_obj) []) in *.
  set (b1 := set_queue_ [dg] b_obj) in *.
  assert (recvmsg_must_wait b1 rflags w1 = Some false) as Hwait.
  { by apply recvmsg_must_wait_datagram. }
  assert (socket_type_ b1 = SOCK_DGRAM
          ∨ connect_state_ b1 = SOCKET_CONNECTED) as Hstate1.
  { destruct Hstateb as [? | [? _]]; [by right | by left]. }
  assert (recvmsg b rmsg rflags w1 = recvmsg_ready b rmsg w1) as Hready.
  { apply (recvmsg_when_ready _ b1); try done. unfold b1. simpl.
    by rewrite Hdirb. }
  destruct (recv_data_datagram b1 dg [] rmsg) as (outs & Hrecv & _);
    [done | done |].
  cbn [content_ dg length Nat.min] in Hrecv.
  destruct (recvmsg_ready_spec _ _ _ _ _ _ _ _ _ Hb1 Hrecv)
    as (w2 & b2 & out & Hrr & _ & Hb2 & _ & Hzero & _).
  destruct Hzero as [-> ->]; [done|]. change (0 <? Z.of_nat 0) with false in Hrr.
  eexists w1, _, _. split; [done|]. rewrite Hb1. split; [done|].
  split; [by apply Heff|]. rewrite Hready, Hrr. split; [done|].
  split; [done|]. by rewrite get_put_eq.
Qed.





End RoundTrips.

(** ** Readiness *)

Section Readiness.
Context {FdTable : Type} {vfs : VirtualFileSystem FdTable}
        {layout : CmsgLayout} {util : SocketUtil}.
Implicit Types w : World FdTable.

Lemma CanRead_rx_empty this :
  rx_empty this → is_Some (peer_ this) → CanRead this = false.
Proof.
  intros [Hsize Hq] [p Hp]. unfold CanRead. rewrite Hp, Hsize, Hq.
  rewrite andb_false_r. by destruct (bool_decide _).
Qed.

Lemma IsSelectReadReady_rx_empty this w :
  connect_state_ this = SOCKET_CONNECTED →
  stream_dir_ this = READ_WRITE →
  rx_empty this →
  is_Some (peer_ this) →
  (∀ p, peer_ this = Some p → is_Some (get p w)) →
  IsSelectReadReady this w = Some false.
Proof.
  intros Hstate Hdir Hrx Hsome Hpeer. unfold IsSelectReadReady, GetPollEvents.
  rewrite Hstate, Hdir, CanRead_rx_empty by done.
  assert (∃ cw, CanWrite this w = Some cw) as [cw ->].
  { unfold CanWrite. destruct (peer_ this) as [p|]; [|by eauto].
    destruct (bool_decide _); [|by eauto].
    destruct (Hpeer p eq_refl) as [o ->]. simpl. eauto. }
  destruct Hsome as [p Hp]. rewrite Hp. cbn [mbind option_bind].
  rewrite andb_false_r. by destruct cw.
Qed.

(** X13.  A receive on a connected endpoint that holds nothing while its peer
    is alive waits if the endpoint is blocking and MSG_DONTWAIT is not
    given, and fails with EAGAIN otherwise, the store being left as it
    was; recv, recvfrom and read pass no flags on, so that they wait on a
    blocking endpoint even when MSG_DONTWAIT is given. *)
Theorem receive_on_empty
    w self this (msg : recv_msghdr) flags len :
  get self w = Some this →
  connect_state_ this = SOCKET_CONNECTED →
  stream_dir_ this = READ_WRITE →
  rx_empty this →
  is_Some (peer_ this) →
  (∀ p, peer_ this = Some p → is_Some (get p w)) →
  len ≠ 0%nat →
  (∃ out,
      recvmsg self msg flags w
      = Some (w,
              if is_block this && (Z.land flags MSG_DONTWAIT =? 0)
              then Suspended else Err EAGAIN,
              out))
  ∧ recv self len flags w
    = Some (w, if is_block this then Suspended else Err EAGAIN, []).
Proof.
  intros Hs Hstate Hdir Hrx Hsome Hpeer Hlen.
  pose proof (IsSelectReadReady_rx_empty _ _ Hstate Hdir Hrx Hsome Hpeer)
    as Hready.
  assert (∀ msg' flags',
            ∃ out,
              recvmsg self msg' flags' w
              = Some (w,
                      if is_block this && (Z.land flags' MSG_DONTWAIT =? 0)
                      then Suspended else Err EAGAIN,
                      out)
              ∧ concat (out_iov out) = []) as Hrecv.
  { intros msg' flags'. unfold recvmsg. rewrite Hs. cbn [mbind option_bind].
    rewrite Hdir, Hstate.
    rewrite (bool_decide_eq_false_2 (READ_WRITE = WRITE_ONLY)) by done.
    rewrite (bool_decide_eq_true_2 (SOCKET_CONNECTED = SOCKET_CONNECTED)) by done.
    cbn [negb]. rewrite andb_false_r.
    unfold recvmsg_must_wait. destruct Hsome as [p Hp]. rewrite Hp, Hready.
    destruct (is_block this && _); cbn [mbind option_bind negb].
    - eexists. split; [done|]. apply concat_blank_iov.
    - unfold recvmsg_ready. rewrite Hs. cbn [mbind option_bind].
      rewrite (recv_data_rx_empty _ _ Hrx).
      change (0 <=? 0) with true. change (0 <? 0) with false. cbv iota.
      change (fd_table w) with (fd_table (put self this w)).
      rewrite emit_nil, set_fd_table_same, (put_same _ _ _ Hs), Hp.
      rewrite bool_decide_eq_false_2 by done.
      eexists. split; [done|]. apply concat_blank_iov. }
  split.
  - destruct (Hrecv msg flags) as (out & -> & _). eauto.
  - unfold recv, recvfrom. cbn [orb].
    destruct len as [|len']; [done|]. cbn [Nat.eqb].
    destruct (Hrecv (mk_recv_msghdr [S len'] 0 0) 0) as (out & -> & Hcat).
    cbn [mbind option_bind]. rewrite Hcat.
    change (Z.land 0 MSG_DONTWAIT =? 0) with true. by rewrite andb_true_r.
Qed.

Lemma recvmsg_datagram_spec w self this datagram rest (msg : recv_msghdr) flags :
  get self w = Some this →
  socket_type_ this ≠ SOCK_STREAM →
  stream_dir_ this = READ_WRITE →
  connect_state_ this = SOCKET_CONNECTED
  ∨ (socket_type_ this = SOCK_DGRAM ∧ connect_state_ this = SOCKET_NEW) →
  queue_ this = datagram :: rest →
  let count := (length (content_ datagram) `min` sum_list (rmsg_iov msg))%nat in
  (0 < count)%nat →
  ∃ w' out, recvmsg self msg flags w = Some (w', Ret (Z.of_nat count), out).
Proof.
  intros Hs Hty Hdir Hstate Hq count Hcount.
  assert (recvmsg_must_wait this flags w = Some false) as Hwait.
  { apply recvmsg_must_wait_datagram; try done. by rewrite Hq. }
  assert (socket_type_ this = SOCK_DGRAM
          ∨ connect_state_ this = SOCKET_CONNECTED) as Hstate1.
  { destruct Hstate as [? | [? _]]; [by right | by left]. }
  rewrite (recvmsg_when_ready _ _ _ _ _ Hs) by (try done; by rewrite Hdir).
  destruct (recv_data_datagram this datagram rest msg Hty Hq)
    as (outs & Hrecv & _).
  destruct (recvmsg_ready_spec _ _ _ _ _ _ _ _ _ Hs Hrecv)
    as (w' & this' & out & -> & _).
  fold count. rewrite (proj2 (Z.ltb_lt _ _)) by lia. eauto.
Qed.

(** X14.  ioctl(FIONREAD) stores the number of bytes held by the ring of a
    stream endpoint, and the size of the datagram at the head of the
    queue (not of all that is queued) otherwise; that is the count
    returned by a receive made in its place with room for as much. *)
Theorem ioctl_FIONREAD_next_receive w self this (msg : recv_msghdr) flags :
  get self w = Some this →
  connect_state_ this = SOCKET_CONNECTED →
  stream_dir_ this = READ_WRITE →
  (∀ p, peer_ this = Some p → is_Some (get p w)) →
  let pending :=
    if bool_decide (socket_type_ this = SOCK_STREAM)
    then RingBuffer.size (buffer_ this)
    else match queue_ this with
         | front :: _ => Z.of_nat (length (content_ front))
         | [] => 0
         end in
  ioctl self FIONREAD w = Some (IoctlDone (Ret 0) (to_int pending))
  ∧ (0 < pending ≤ Z.of_nat (sum_list (rmsg_iov msg)) →
     ∃ w' out, recvmsg self msg flags w = Some (w', Ret pending, out)).
Proof.
  intros Hs Hstate Hdir Hpeer pending. split.
  - unfold ioctl. rewrite Hs. cbn [mbind option_bind].
    change (FIONREAD =? FIONREAD) with true. cbv iota. unfold pending.
    case_bool_decide; [done|]. by destruct (queue_ this).
  - intros [Hpos Hcap]. unfold pending in *.
    case_bool_decide as Hty.
    + destruct (recvmsg_stream_spec w self this msg flags)
        as (w' & out & Hrecv & _); try done.
      { by rewrite Hdir. }
      { intros Hnil. unfold RingBuffer.size in Hpos. rewrite Hnil in Hpos.
        simpl in Hpos. lia. }
      unfold RingBuffer.size in Hpos, Hcap.
      rewrite take_ge in Hrecv by lia.
      rewrite bool_decide_eq_false_2 in Hrecv.
      * exists w', out. by rewrite Hrecv.
      * intros Hnil. rewrite Hnil in Hpos. simpl in Hpos. lia.
    + destruct (queue_ this) as [|datagram rest] eqn:Hq; [lia|].
      destruct (recvmsg_datagram_spec w self this datagram rest msg flags)
        as (w' & out & Hrecv); try done; [by left | lia |].
      rewrite Nat.min_l in Hrecv by lia. eauto.
Qed.

End Readiness.

(** ** Rendezvous by name *)

Section Rendezvous.
Context {FdTable : Type} {vfs : VirtualFileSystem FdTable}
        {layout : CmsgLayout} {util : SocketUtil}.
Implicit Types w : World FdTable.

#[local] Arguments NameRegistry.Bind : simpl never.
#[local] Arguments put : simpl never.

Lemma not_dgram ty :
  ty ≠ SOCK_DGRAM → ty = SOCK_STREAM ∨ ty = SOCK_SEQPACKET.
Proof. destruct ty; auto. done. Qed.

(** The registry and the name a successful bind has used. *)
Lemma bind_success self this addr addrlen w w' :
  get self w = Some this →
  bind self addr addrlen w = Some (w', Ret 0) →
  ValidateSockaddr addr addrlen = None
  ∧ ((∃ name,
         ConvertSockaddrToName addr addrlen = Some name
         ∧ w' = put self (set_logd_name_ name this)
                  (set_logd_ns (<[name := self]> (logd_ns w)) w))
     ∨ (∃ name,
          ConvertSockaddrToName addr addrlen = None
          ∧ ConvertSockaddrToAbstractName addr addrlen = Some name
          ∧ w' = put self (set_abstract_name_ name this)
                   (set_abstract_ns (<[name := self]> (abstract_ns w)) w))).
Proof.
  intros Hs H. unfold bind in H. rewrite Hs in H. cbn [mbind option_bind] in H.
  destruct (ValidateSockaddr addr addrlen); [done|]. split; [done|].
  destruct (_ || _); [done|].
  destruct (ConvertSockaddrToName addr addrlen) as [name|].
  - left. exists name. split; [done|]. unfold NameRegistry.Bind in H.
    destruct (logd_ns w !! name); cbn in H; [done|]. by injection H as <-.
  - right. destruct (ConvertSockaddrToAbstractName addr addrlen) as [name|];
      [|done].
    exists name. split; [done|]. split; [done|]. unfold NameRegistry.Bind in H.
    destruct (abstract_ns w !! name); cbn in H; [done|]. by injection H as <-.
Qed.

(** X16.  bind, listen, connect: a blocking client that connects to the address
    a listener has bound is put at the back of the listener's queue and
    parked in the CONNECTING state, unless the queue length equals the
    backlog. *)
Theorem bind_listen_connect
    w self this client c addr addrlen backlog w1 w2 :
  get self w = Some this →
  get client w = Some c →
  client ≠ self →
  bind self addr addrlen w = Some (w1, Ret 0) →
  listen self backlog w1 = Some (w2, Ret 0) →
  socket_type_ c = socket_type_ this →
  is_block c = true →
  connect_state_ c = SOCKET_NEW →
  to_size_t backlog ≠ Z.of_nat (length (connection_queue_ this)) →
  ∃ w3,
    connect client addr addrlen w2 = Some (w3, Suspended)
    ∧ connection_queue_ <$> get self w3
      = Some (connection_queue_ this ++ [client])
    ∧ connect_state_ <$> get self w3 = Some SOCKET_LISTENING
    ∧ connect_state_ <$> get client w3 = Some SOCKET_CONNECTING.
Proof.
  intros Hs Hc Hne Hbind Hlisten Hty Hblock Hnew Hbacklog.
  destruct (bind_success _ _ _ _ _ _ Hs Hbind) as [Hvalid Hbound].
  assert (∃ this1 logd_name name ns,
            get self w1 = Some this1
            ∧ get client w1 = Some c
            ∧ socket_type_ this1 = socket_type_ this
            ∧ connection_queue_ this1 = connection_queue_ this
            ∧ (match ConvertSockaddrToName addr addrlen with
               | Some logd_name =>
                   Some (logd_name,
                         NameRegistry.GetByName logd_name (logd_ns w1))
               | None =>
                   match ConvertSockaddrToAbstractName addr addrlen with
                   | Some abstract_name =>
                       Some (EmptyString,
                             NameRegistry.GetByName abstract_name
                               (abstract_ns w1))
                   | None => None
                   end
               end) = Some (logd_name, Some self)
            ∧ logd_ns w1 = ns ∧ abstract_ns w1 = name)
    as (this1 & logd_name & ans & lns & Hs1 & Hc1 & Hty1 & Hq1 & Hfound & Hl & Ha).
  { destruct Hbound as [(name & Hname & ->) | (name & Hname & Haname & ->)].
    - eexists _, name, _, _. rewrite get_put_eq, get_put_ne by done.
      rewrite get_set_logd_ns, Hname. split_and!; try done.
      do 2 f_equal. apply lookup_insert_eq.
    - eexists _, EmptyString, _, _. rewrite get_put_eq, get_put_ne by done.
      rewrite get_set_abstract_ns, Hname, Haname. split_and!; try done.
      do 2 f_equal. apply lookup_insert_eq. }
  unfold listen in Hlisten. rewrite Hs1 in Hlisten.
  cbn [mbind option_bind] in Hlisten.
  destruct (bool_decide (socket_type_ this1 = SOCK_DGRAM)) eqn:Hdgram;
    [done|]. apply bool_decide_eq_false in Hdgram.
  destruct (_ && _); [done|]. injection Hlisten as <-.
  set (this2 := set_connection_backlog_ backlog
                  (set_connect_state_ SOCKET_LISTENING this1)).
  assert (get client (put self this2 w1) = Some c) as Hc2
    by (by rewrite get_put_ne).
  unfold connect. rewrite Hc2. cbn [mbind option_bind]. rewrite Hnew.
  rewrite bool_decide_eq_false_2 by (by intros [|]).
  rewrite Hblock, andb_false_r, Hvalid.
  change (logd_ns (put self this2 w1)) with (logd_ns w1).
  change (abstract_ns (put self this2 w1)) with (abstract_ns w1).
  rewrite Hfound, get_put_eq. cbn [mbind option_bind].
  change (socket_type_ this2) with (socket_type_ this1).
  rewrite Hty1, Hty, bool_decide_eq_true_2 by done. cbn [negb].
  unfold HandleConnectLocked. rewrite get_put_eq. cbn [mbind option_bind].
  change (socket_type_ this2) with (socket_type_ this1).
  rewrite bool_decide_eq_true_2 by (by apply not_dgram).
  change (connect_state_ this2) with SOCKET_LISTENING.
  rewrite bool_decide_eq_true_2 by done. cbn [negb].
  change (connection_backlog_ this2) with backlog.
  change (connection_queue_ this2) with (connection_queue_ this1).
  rewrite Hq1, (proj2 (Z.eqb_neq _ _)) by done.
  set (this3 := set_connection_queue_ (connection_queue_ this ++ [client]) this2).
  assert (∃ w3,
            (if (length (connection_queue_ this ++ [client]) =? 1)%nat
             then Some (emit [Broadcast; NotifyListeners self]
                          (put self this3 (put self this2 w1)), true)
             else Some (put self this3 (put self this2 w1), true))
            = Some (w3, true)
            ∧ get self w3 = Some this3
            ∧ get client w3 = Some c
            ∧ (∀ o, get self (put client o w3) = Some this3))
    as (w3 & -> & Hs3 & Hc3 & Hself3).
  { destruct (_ =? _)%nat; eexists; (split; [done|]);
      rewrite ?get_emit, get_put_eq, !get_put_ne by done;
      (split_and!; [done | done |]); intros o;
      by rewrite get_put_ne, ?get_emit, get_put_eq by done. }
  cbn [mbind option_bind negb]. rewrite Hc3. cbn [mbind option_bind].
  unfold WaitForLocalSocketConnect. rewrite get_put_eq.
  cbn [mbind option_bind].
  change (socket_type_ (set_logd_target_name_ logd_name c))
    with (socket_type_ c).
  rewrite bool_decide_eq_true_2 by (rewrite Hty, <- Hty1; by apply not_dgram).
  cbn [mbind option_bind]. eexists. split; [done|].
  rewrite get_put_eq, get_put_ne, Hself3 by done. done.
Qed.
End Rendezvous.

(** ** accept and close *)

Section AcceptAndClose.
Context {FdTable : Type} {vfs : VirtualFileSystem FdTable}
        {layout : CmsgLayout} {util : SocketUtil}.
Implicit Types w : World FdTable.

#[local] Arguments NameRegistry.Bind : simpl never.
#[local] Arguments alloc : simpl never.
#[local] Arguments put : simpl never.
#[local] Arguments LocalSocket_new : simpl never.

(** X17.  A successful accept skips the clients at the head of the queue
    that have been closed and takes the first one that is still open,
    makes for it a server endpoint of the listener's type and open flags
    under a fresh identity, with that client as its peer, returns the
    descriptor the table gave for that endpoint, and lets the client's
    connect return 0. *)
Theorem accept_success
    w self this (addr : bool) addrlen timed_out getpid getuid w' fd :
  ids_below_next w →
  get self w = Some this →
  accept self addr addrlen timed_out getpid getuid w = Some (w', Ret fd) →
  ∃ skipped client client_obj rest server_obj,
    connection_queue_ this = skipped ++ client :: rest
    ∧ Forall (closed_in w) skipped
    ∧ get client w = Some client_obj
    ∧ IsClosed client_obj = false
    ∧ peer_ server_obj = Some client
    ∧ connection_queue_ <$> get self w' = Some rest
    ∧ AddFileStreamLocked (fd_table w) (next_id w) = (fd, fd_table w')
    ∧ 0 ≤ fd
    ∧ get (next_id w) w = None
    ∧ get (next_id w) w' = Some server_obj
    ∧ socket_type_ server_obj = socket_type_ this
    ∧ oflag_ server_obj = oflag_ this
    ∧ stream_dir_ server_obj = READ_WRITE
    ∧ connect_wakeup client w' = Some (w', Ret 0)
    ∧ effects w' = effects w ++ [Broadcast; NotifyListeners self].
Proof.
  intros Hwf Hs H. unfold accept in H. rewrite Hs in H; simpl in H.
  destruct (bool_decide _); [done|].
  destruct (negb _); [done|]. destruct (negb _); [done|].
  destruct (negb _); [done|].
  unfold WaitForOpenedConnectToAccept in H. rewrite Hs in H; simpl in H.
  destruct (skip_closed (connection_queue_ this) w) as [q|] eqn:Hskip;
    [simpl in H | done].
  assert (self < next_id w)%nat as Hself by (apply Hwf; eauto).
  assert (get (next_id w) w = None) as Hfresh.
  { destruct (get (next_id w) w) eqn:Hn; [|done].
    assert (next_id w < next_id w)%nat by (apply Hwf; eauto). lia. }
  destruct q as [|client rest]; simpl in H.
  { destruct (negb timed_out); [done|]. unfold accept_paired in H.
    rewrite get_put_eq in H; simpl in H. by destruct (closed_ this). }
  destruct (skip_closed_spec _ _ _ Hskip)
    as (skipped & Hq & Hclosed & client_obj & Hc & Hopen).
  assert (client < next_id w)%nat as Hclient by (apply Hwf; eauto).
  unfold accept_paired in H. rewrite get_put_eq in H; simpl in H.
  destruct (closed_ this); [done|].
  set (w1 := put self (set_connection_queue_ (client :: rest) this) w) in *.
  change (fd_table w1) with (fd_table w) in H.
  change (next_id w1) with (next_id w) in H.
  destruct (AddFileStreamLocked (fd_table w) (next_id w)) as [accept_fd tbl].
  destruct (accept_fd <? 0) eqn:Hfd; [done|]. apply Z.ltb_ge in Hfd.
  set (server_obj := LocalSocket_new _ _ _ _ _) in H.
  change (set_next_id (S (next_id w))
            (put (next_id w) server_obj (set_fd_table tbl w1)))
    with (alloc server_obj (set_fd_table tbl w1)).2 in H.
  set (w3 := put self _ (alloc server_obj (set_fd_table tbl w1)).2) in H.
  assert (get (next_id w) w3 = Some server_obj) as Hserver3.
  { unfold w3. rewrite get_put_ne by lia. rewrite get_alloc.
    by rewrite decide_True. }
  assert (∃ o, get self w3 = Some o ∧ connection_queue_ o = rest)
    as (s3 & Hs3 & Hq3).
  { unfold w3. rewrite get_put_eq. eauto. }
  assert (∃ c3, get client w3 = Some c3) as (c3 & Hc3).
  { unfold w3. rewrite get_put. case_decide as Heq; [by eauto|].
    rewrite get_alloc, decide_False by (change (next_id (set_fd_table tbl w1))
                                          with (next_id w); lia).
    rewrite get_set_fd_table. unfold w1. rewrite get_put_ne by done. eauto. }
  destruct (set_peer (next_id w) client w3) as [w4|] eqn:H4; [simpl in H | done].
  unfold set_peer in H4. rewrite Hserver3, Hc3 in H4. simpl in H4.
  set (server_obj' := set_peer_cred_ _ _) in H4. injection H4 as <-.
  assert (get client (put (next_id w) server_obj' w3) = Some c3) as Hc4.
  { by rewrite get_put_ne by lia. }
  pose proof (get_put_eq (next_id w) server_obj' w3) as Hserver4.
  destruct (set_peer client (next_id w) _) as [w5|] eqn:H5; [simpl in H | done].
  unfold set_peer in H5. rewrite Hc4, Hserver4 in H5. simpl in H5.
  injection H5 as <-. injection H as <- <-.
  exists skipped, client, client_obj, rest, server_obj'.
  split; [done|]. split; [done|]. split; [done|]. split; [done|].
  split; [done|]. split.
  { rewrite get_emit, get_put. case_decide as Heq.
    - subst client. rewrite Hs3 in Hc3. injection Hc3 as <-. simpl.
      by rewrite Hq3.
    - rewrite get_put_ne by lia. rewrite Hs3. simpl. by rewrite Hq3. }
  split; [done|]. split; [done|]. split; [done|]. split.
  { by rewrite get_emit, get_put_ne, get_put_eq by lia. }
  split; [done|]. split; [done|]. split; [done|]. split; [|done].
  unfold connect_wakeup. rewrite get_emit, get_put_eq. done.
Qed.

Lemma OnLastFileRef_spec self this w w' :
  get self w = Some this →
  OnLastFileRef self w = Some w' →
  (∃ o, get self w' = Some o ∧ closed_ o = closed_ this ∧ peer_ o = None)
  ∧ (∀ p, peer_ this = Some p → peer_ <$> get p w' = Some None)
  ∧ (∀ s, s ≠ self → peer_ this ≠ Some s → get s w' = get s w)
  ∧ abstract_ns w'
    = (if str_empty (abstract_name_ this) then abstract_ns w
       else delete (abstract_name_ this) (abstract_ns w))
  ∧ logd_ns w'
    = (if str_empty (logd_name_ this) then logd_ns w
       else delete (logd_name_ this) (logd_ns w)).
Proof.
  intros Hs H. unfold OnLastFileRef in H. rewrite Hs in H.
  cbn [mbind option_bind] in H.
  assert (∃ w1,
            (match peer_ this with
             | Some p =>
                 peer_obj ← get p w;
                 this' ← get self (put p (set_peer_ None peer_obj) w);
                 Some (emit [Broadcast]
                         (put self (set_peer_ None this')
                            (put p (set_peer_ None peer_obj) w)))
             | None => Some w
             end) = Some w1
            ∧ (∃ o, get self w1 = Some o ∧ closed_ o = closed_ this
                    ∧ peer_ o = None)
            ∧ (∀ p, peer_ this = Some p → peer_ <$> get p w1 = Some None)
            ∧ (∀ s, s ≠ self → peer_ this ≠ Some s → get s w1 = get s w)
            ∧ abstract_ns w1 = abstract_ns w ∧ logd_ns w1 = logd_ns w)
    as (w1 & Hw1 & Hself & Hpeer & Hrest & Ha & Hl).
  { destruct (peer_ this) as [p|] eqn:Hp.
    - destruct (get p w) as [peer_obj|] eqn:Hpo; [|done].
      cbn [mbind option_bind] in H |- *.
      destruct (get self (put p (set_peer_ None peer_obj) w)) as [this'|]
        eqn:Hs'; [|done].
      cbn [mbind option_bind]. eexists. split; [done|].
      split_and!; try done.
      + rewrite get_emit, get_put_eq. eexists. split; [done|]. split; [|done].
        rewrite get_put in Hs'. case_decide as Heq.
        * subst p. rewrite Hs in Hpo. injection Hpo as <-.
          by injection Hs' as <-.
        * rewrite Hs in Hs'. by injection Hs' as <-.
      + intros p' [= <-]. rewrite get_emit, get_put. case_decide; [done|].
        by rewrite get_put_eq.
      + intros s Hne Hnp. rewrite get_emit, !get_put_ne; [done | | done].
        congruence.
    - exists w. split; [done|]. split_and!; try done. eauto. }
  rewrite Hw1 in H. cbn [mbind option_bind] in H. injection H as <-.
  unfold NameRegistry.Bind. cbn [fst].
  destruct (str_empty (abstract_name_ this)),
           (str_empty (logd_name_ this)); cbn;
    rewrite ?get_set_logd_ns, ?get_set_abstract_ns, ?Ha, ?Hl;
    split_and!; try done;
    intros; rewrite ?get_set_logd_ns, ?get_set_abstract_ns; eauto.
Qed.

(** X18.  Closing an endpoint cuts the link with its peer on both sides and
    gives back the names it had bound; every other endpoint is left as it
    was. *)
Theorem close_releases w self this w' :
  get self w = Some this →
  close self w = Some w' →
  (∃ o, get self w' = Some o ∧ closed_ o = true ∧ peer_ o = None)
  ∧ (∀ p, peer_ this = Some p → peer_ <$> get p w' = Some None)
  ∧ (∀ s, s ≠ self → peer_ this ≠ Some s → get s w' = get s w)
  ∧ (str_empty (abstract_name_ this) = false →
     NameRegistry.GetByName (abstract_name_ this) (abstract_ns w') = None)
  ∧ (str_empty (logd_name_ this) = false →
     NameRegistry.GetByName (logd_name_ this) (logd_ns w') = None).
Proof.
  intros Hs H. unfold close in H. rewrite Hs in H. cbn [mbind option_bind] in H.
  pose proof (get_put_eq self (set_closed_ true this) w) as Hs1.
  destruct (OnLastFileRef_spec _ _ _ _ Hs1 H)
    as (Hself & Hpeer & Hrest & Ha & Hl).
  split; [done|]. split; [done|]. split.
  { intros s Hne Hnp. rewrite Hrest by done. by rewrite get_put_ne. }
  unfold NameRegistry.GetByName. rewrite Ha, Hl.
  change (abstract_name_ (set_closed_ true this)) with (abstract_name_ this).
  change (logd_name_ (set_closed_ true this)) with (logd_name_ this).
  split; intros ->; apply lookup_delete_eq.
Qed.

(** X19.  Once an endpoint is closed, a connect to the address it had bound is
    refused and changes nothing. *)
Theorem connect_after_close w self this w' client c addr addrlen :
  get self w = Some this →
  close self w = Some w' →
  get client w' = Some c →
  connect_state_ c = SOCKET_NEW ∨ connect_state_ c = SOCKET_CONNECTING →
  socket_type_ c = SOCK_DGRAM ∨ is_block c = true →
  ValidateSockaddr addr addrlen = None →
  ConvertSockaddrToName addr addrlen = Some (logd_name_ this)
  ∨ (ConvertSockaddrToAbstractName addr addrlen = Some (abstract_name_ this)
     ∧ str_empty (abstract_name_ this) = false) →
  connect client addr addrlen w' = Some (w', Err ECONNREFUSED).
Proof.
  intros Hs Hclose Hc Hstate Hblock Hvalid Hname.
  unfold close in Hclose. rewrite Hs in Hclose.
  cbn [mbind option_bind] in Hclose.
  pose proof (get_put_eq self (set_closed_ true this) w) as Hs1.
  destruct (OnLastFileRef_spec _ _ _ _ Hs1 Hclose) as (_ & _ & _ & Ha & Hl).
  change (abstract_name_ (set_closed_ true this)) with (abstract_name_ this)
    in Ha.
  change (logd_name_ (set_closed_ true this)) with (logd_name_ this) in Hl.
  unfold connect. rewrite Hc. cbn [mbind option_bind].
  rewrite bool_decide_eq_false_2 by (destruct Hstate as [-> | ->]; by intros [|]).
  assert (negb (bool_decide (socket_type_ c = SOCK_DGRAM))
          && negb (is_block c) = false) as ->.
  { destruct Hblock as [-> | ->]; [done | by rewrite andb_false_r]. }
  rewrite Hvalid. unfold NameRegistry.GetByName.
  destruct Hname as [Hname | [Hname Hne]].
  - rewrite Hname, Hl.
    rewrite (ConvertSockaddrToName_not_empty _ _ _ Hvalid Hname).
    by rewrite lookup_delete_eq.
  - assert (ConvertSockaddrToName addr addrlen = None) as ->.
    { apply conversions_exclusive. eauto. }
    rewrite Hname, Ha, Hne. by rewrite lookup_delete_eq.
Qed.


Lemma skip_closed_all_closed q w :
  Forall (closed_in w) q → skip_closed q w = Some [].
Proof.
  induction 1 as [|s q (obj & Hs & Hclosed) _ IH]; [done|].
  cbn [skip_closed]. rewrite Hs. cbn [mbind option_bind]. by rewrite Hclosed.
Qed.

(** X21.  An accept that finds no client still open on the queue (the queue is
    empty, or every client on it has been closed in the meantime) drops
    what is queued and waits; when the wait times out it fails with
    EAGAIN. *)
Theorem accept_without_client
    w self this (addr : bool) addrlen timed_out getpid getuid :
  get self w = Some this →
  socket_type_ this ≠ SOCK_DGRAM →
  (addr = true → VerifyOutputSocketAddress addr addrlen = 0) →
  connect_state_ this = SOCKET_LISTENING →
  is_block this = true →
  IsClosed this = false →
  Forall (closed_in w) (connection_queue_ this) →
  accept self addr addrlen timed_out getpid getuid w
  = Some (put self (set_connection_queue_ [] this) w,
          if timed_out then Err EAGAIN else Suspended).
Proof.
  intros Hs Hty Haddr Hstate Hblock Hopen Hclosed. unfold accept.
  rewrite Hs. cbn [mbind option_bind].
  rewrite bool_decide_eq_false_2 by done.
  assert ((if addr then VerifyOutputSocketAddress addr addrlen else 0) = 0)
    as -> by (destruct addr; auto).
  change (negb (0 =? 0)) with false. cbv iota.
  rewrite Hstate, (bool_decide_eq_true_2 (SOCKET_LISTENING = SOCKET_LISTENING))
    by done.
  rewrite Hblock. cbn [negb]. unfold WaitForOpenedConnectToAccept.
  rewrite Hs. cbn [mbind option_bind].
  rewrite skip_closed_all_closed by done. cbn [mbind option_bind].
  destruct timed_out; cbn [negb]; [|done].
  unfold accept_paired. rewrite get_put_eq. cbn [mbind option_bind].
  change (IsClosed (set_connection_queue_ [] this)) with (IsClosed this).
  by rewrite Hopen.
Qed.

Lemma OnLastFileRef_peer self this p peer_obj w w' :
  get self w = Some this →
  peer_ this = Some p →
  p ≠ self →
  get p w = Some peer_obj →
  OnLastFileRef self w = Some w' →
  get p w' = Some (set_peer_ None peer_obj)
  ∧ effects w' = effects w ++ [Broadcast].
Proof.
  intros Hs Hpeer Hne Hp H. unfold OnLastFileRef in H. rewrite Hs in H.
  cbn [mbind option_bind] in H. rewrite Hpeer, Hp in H.
  cbn [mbind option_bind] in H. rewrite get_put_ne, Hs in H by done.
  cbn [mbind option_bind] in H. injection H as <-.
  unfold NameRegistry.Bind. cbn [fst].
  destruct (str_empty (abstract_name_ this)),
           (str_empty (logd_name_ this));
    rewrite ?get_set_logd_ns, ?get_set_abstract_ns, get_emit,
      get_put_ne, get_put_eq by done; done.
Qed.

(** X22.  Closing one end of a connection is seen on the other end at once:
    every waiter is woken, select reports the surviving end readable, and
    poll reports POLLHUP on it, or POLLERR if it is the write end of a
    pipe. *)
Theorem close_hangs_up_peer w self this p peer_obj w' :
  get self w = Some this →
  peer_ this = Some p →
  p ≠ self →
  get p w = Some peer_obj →
  connect_state_ peer_obj = SOCKET_CONNECTED →
  socket_type_ peer_obj ≠ SOCK_DGRAM →
  close self w = Some w' →
  ∃ peer_obj' events,
    get p w' = Some peer_obj'
    ∧ peer_ peer_obj' = None
    ∧ GetPollEvents peer_obj' w' = Some events
    ∧ flag_set events
        (if bool_decide (stream_dir_ peer_obj = WRITE_ONLY)
         then POLLERR else POLLHUP) = true
    ∧ IsSelectReadReady peer_obj' w' = Some true
    ∧ effects w' = effects w ++ [Broadcast].
Proof.
  intros Hs Hpeer Hne Hp Hstate Hty H. unfold close in H. rewrite Hs in H.
  cbn [mbind option_bind] in H.
  destruct (OnLastFileRef_peer self (set_closed_ true this) p peer_obj
              (put self (set_closed_ true this) w) w')
    as [Hp' Heff]; try done.
  { apply get_put_eq. }
  { by rewrite get_put_ne. }
  exists (set_peer_ None peer_obj).
  assert (∃ events,
            GetPollEvents (set_peer_ None peer_obj) w' = Some events
            ∧ flag_set events
                (if bool_decide (stream_dir_ peer_obj = WRITE_ONLY)
                 then POLLERR else POLLHUP) = true
            ∧ flag_set events (Z.lor POLLIN (Z.lor POLLHUP POLLERR)) = true)
    as (events & Hev & Hflag & Hready).
  { clear Hp Hp'. unfold GetPollEvents, CanWrite, CanRead.
    destruct peer_obj as [? ? ty state dir ? ? ? ? ? ? ? ? ? ring ? ?].
    simpl in Hstate, Hty |- *. subst state.
    rewrite (bool_decide_eq_false_2 (ty = SOCK_DGRAM)) by done.
    destruct dir; simpl.
    - eexists. split; [reflexivity|]. by destruct (0 <? _).
    - eexists. split; [reflexivity|]. done.
    - eexists. split; [reflexivity|]. done. }
  exists events. split; [done|]. split; [done|]. split; [done|].
  split; [done|]. split; [|done].
  unfold IsSelectReadReady. rewrite Hev. cbn [mbind option_bind].
  unfold flag_set in Hready. by rewrite Hready.
Qed.
End AcceptAndClose.

(** ** Datagram endpoints addressed by name *)

Section DatagramByName.
Context {FdTable : Type} {vfs : VirtualFileSystem FdTable}
        {layout : CmsgLayout} {util : SocketUtil}.
Implicit Types w : World FdTable.

#[local] Arguments put : simpl never.

Lemma connect_datagram self this addr addrlen w logd_name name ns b b_obj :
  get self w = Some this →
  socket_type_ this = SOCK_DGRAM →
  connect_state_ this = SOCKET_NEW →
  ValidateSockaddr addr addrlen = None →
  (match ConvertSockaddrToName addr addrlen with
   | Some logd_name =>
       Some (logd_name, NameRegistry.GetByName logd_name (logd_ns w))
   | None =>
       match ConvertSockaddrToAbstractName addr addrlen with
       | Some abstract_name =>
           Some (EmptyString,
                 NameRegistry.GetByName abstract_name (abstract_ns w))
       | None => None
       end
   end) = Some (logd_name, NameRegistry.GetByName name ns) →
  NameRegistry.GetByName name ns = Some b →
  get b w = Some b_obj →
  socket_type_ b_obj = SOCK_DGRAM →
  connect self addr addrlen w
  = Some (put self (set_logd_target_name_ logd_name this) w, Ret 0).
Proof.
  intros Hs Hty Hstate Hvalid Hfound Hb Hbo Htyb. unfold connect.
  rewrite Hs. cbn [mbind option_bind]. rewrite Hstate, Hty.
  rewrite bool_decide_eq_false_2 by (by intros [|]).
  rewrite (bool_decide_eq_true_2 (SOCK_DGRAM = SOCK_DGRAM)) by done.
  cbn [negb andb]. rewrite Hvalid, Hfound, Hb, Hbo. cbn [mbind option_bind].
  rewrite Htyb, (bool_decide_eq_true_2 (SOCK_DGRAM = SOCK_DGRAM)) by done.
  cbn [negb]. unfold HandleConnectLocked. rewrite Hbo.
  cbn [mbind option_bind]. rewrite Htyb.
  rewrite bool_decide_eq_false_2 by (by intros [|]).
  cbn [mbind option_bind negb]. rewrite Hs. cbn [mbind option_bind].
  unfold WaitForLocalSocketConnect. rewrite get_put_eq.
  cbn [mbind option_bind].
  change (socket_type_ (set_logd_target_name_ logd_name this))
    with (socket_type_ this).
  rewrite Hty, bool_decide_eq_false_2 by (by intros [|]). done.
Qed.

(** What sendmsg does on a datagram endpoint without a peer: the endpoint
    bound to the recorded name is looked up when the send is made. *)
Lemma sendmsg_by_name self this (msg : send_msghdr) flags w :
  get self w = Some this →
  socket_type_ this = SOCK_DGRAM →
  stream_dir_ this ≠ READ_ONLY →
  peer_ this = None →
  str_empty (logd_target_name_ this) = false →
  sendmsg self msg flags w
  = match NameRegistry.GetByName (logd_target_name_ this) (logd_ns w) with
    | Some t => HandleSendmsgLocked t msg (my_cred_ this) w
    | None => Some (w, Err ECONNREFUSED)
    end.
Proof.
  intros Hs Hty Hdir Hpeer Hname. unfold sendmsg.
  rewrite Hs. cbn [mbind option_bind].
  rewrite bool_decide_eq_false_2 by done.
  rewrite Hty, (bool_decide_eq_true_2 (SOCK_DGRAM = SOCK_DGRAM)) by done.
  cbn [negb andb]. rewrite Hpeer, Hname. done.
Qed.

(** X23.  An unpaired datagram endpoint in state NEW that connects to the
    pathname another datagram endpoint has bound returns at once, stays
    unpaired, is not queued on the target and records the name.  From then on, in whatever
    store it is still a datagram endpoint without a peer that has this
    name recorded, each of its sends looks the name up when it is made.
    If a datagram or seqpacket endpoint is bound to the name then, the
    message lands as one datagram (none if it has no iovec) at the back of
    that endpoint's queue, with the sender's own credentials; if nothing
    is bound to the name any more, the send fails with ECONNREFUSED and
    changes nothing. *)
Theorem datagram_connect_then_send
    w self this addr addrlen name b b_obj :
  get self w = Some this →
  socket_type_ this = SOCK_DGRAM →
  connect_state_ this = SOCKET_NEW →
  peer_ this = None →
  ValidateSockaddr addr addrlen = None →
  ConvertSockaddrToName addr addrlen = Some name →
  NameRegistry.GetByName name (logd_ns w) = Some b →
  get b w = Some b_obj →
  socket_type_ b_obj = SOCK_DGRAM →
  ∃ w1,
    connect self addr addrlen w = Some (w1, Ret 0)
    ∧ peer_ <$> get self w1 = Some None
    ∧ logd_target_name_ <$> get self w1 = Some name
    ∧ connection_queue_ <$> get b w1 = Some (connection_queue_ b_obj)
    ∧ ∀ w2 this2 (msg : send_msghdr) flags,
        get self w2 = Some this2 →
        socket_type_ this2 = SOCK_DGRAM →
        stream_dir_ this2 ≠ READ_ONLY →
        peer_ this2 = None →
        logd_target_name_ this2 = name →
        (NameRegistry.GetByName name (logd_ns w2) = None →
         sendmsg self msg flags w2 = Some (w2, Err ECONNREFUSED))
        ∧ (∀ t t_obj,
             NameRegistry.GetByName name (logd_ns w2) = Some t →
             get t w2 = Some t_obj →
             socket_type_ t_obj ≠ SOCK_STREAM →
             ∃ w3,
               sendmsg self msg flags w2
               = Some (w3, Ret (Z.of_nat (length (concat (smsg_iov msg)))))
               ∧ queue_ <$> get t w3
                 = Some (queue_ t_obj
                         ++ (if bool_decide (smsg_iov msg = []) then []
                             else [mk_Datagram (my_cred_ this2)
                                     (concat (smsg_iov msg))]))).
Proof.
  intros Hs Hty Hstate Hpeer Hvalid Hname Hb Hbo Htyb.
  pose proof (ConvertSockaddrToName_not_empty _ _ _ Hvalid Hname) as Hnonempty.
  set (this1 := set_logd_target_name_ name this).
  set (w1 := put self this1 w).
  assert (connect self addr addrlen w = Some (w1, Ret 0)) as Hconnect.
  { apply (connect_datagram _ _ _ _ _ name name (logd_ns w) b b_obj);
      try done. by rewrite Hname. }
  assert (get self w1 = Some this1) as Hs1 by apply get_put_eq.
  exists w1. split; [done|]. rewrite Hs1. split; [by rewrite <- Hpeer|].
  split; [done|]. split.
  { unfold w1. rewrite get_put. case_decide as Heq; [|by rewrite Hbo].
    subst b. rewrite Hs in Hbo. by injection Hbo as <-. }
  intros w2 this2 msg flags Hs2 Hty2 Hdir2 Hpeer2 Hname2.
  rewrite (sendmsg_by_name _ _ _ _ _ Hs2 Hty2 Hdir2 Hpeer2)
    by (by rewrite Hname2).
  rewrite Hname2. split; [by intros ->|].
  intros t t_obj -> Ht Htyt.
  destruct (decide (smsg_iov msg = [])) as [Hiov | Hiov].
  - assert (send_data t_obj msg (my_cred_ this2) = (t_obj, 0, 0)) as Hdata.
    { unfold send_data. by rewrite Hiov. }
    destruct (HandleSendmsgLocked_fields _ _ _ _ _ _ _ _ Ht Hdata)
      as (w3 & t3 & -> & Ht3 & _ & _ & Hplain & _); [lia|].
    destruct Hplain as [-> _]; [by left|].
    exists w3. rewrite Ht3, Hiov, bool_decide_eq_true_2 by done.
    by rewrite app_nil_r.
  - pose proof (send_data_datagram t_obj msg (my_cred_ this2) Htyt Hiov) as Hdata.
    destruct (HandleSendmsgLocked_fields _ _ _ _ _ _ _ _ Ht Hdata)
      as (w3 & t3 & Hh & Ht3 & _ & Hobj & _); [lia|].
    exists w3. rewrite Hh, Ht3, bool_decide_eq_false_2 by done. split.
    + do 2 f_equal. by destruct (Z.of_nat _ =? 0) eqn:Hz;
        [apply Z.eqb_eq in Hz as -> |].
    + simpl. f_equal. by apply (f_equal queue_) in Hobj.
Qed.

(** X24.  A datagram endpoint that connects to an abstract name bound by another
    datagram endpoint is told that it succeeded, but no target is
    recorded: every send that follows is refused. *)
Theorem datagram_connect_abstract_then_send
    w self this addr addrlen name b b_obj (msg : send_msghdr) flags :
  get self w = Some this →
  socket_type_ this = SOCK_DGRAM →
  connect_state_ this = SOCKET_NEW →
  stream_dir_ this ≠ READ_ONLY →
  peer_ this = None →
  ValidateSockaddr addr addrlen = None →
  ConvertSockaddrToAbstractName addr addrlen = Some name →
  NameRegistry.GetByName name (abstract_ns w) = Some b →
  get b w = Some b_obj →
  socket_type_ b_obj = SOCK_DGRAM →
  ∃ w1,
    connect self addr addrlen w = Some (w1, Ret 0)
    ∧ sendmsg self msg flags w1 = Some (w1, Err ECONNREFUSED).
Proof.
  intros Hs Hty Hstate Hdir Hpeer Hvalid Hname Hb Hbo Htyb.
  assert (ConvertSockaddrToName addr addrlen = None) as Hpath.
  { apply conversions_exclusive. eauto. }
  set (this1 := set_logd_target_name_ EmptyString this).
  exists (put self this1 w). split.
  - apply (connect_datagram _ _ _ _ _ EmptyString name (abstract_ns w) b b_obj);
      try done. by rewrite Hpath, Hname.
  - unfold sendmsg. rewrite get_put_eq. cbn [mbind option_bind].
    change (stream_dir_ this1) with (stream_dir_ this).
    change (socket_type_ this1) with (socket_type_ this).
    change (peer_ this1) with (peer_ this).
    rewrite bool_decide_eq_false_2 by done.
    rewrite Hty, (bool_decide_eq_true_2 (SOCK_DGRAM = SOCK_DGRAM)) by done.
    cbn [negb andb]. by rewrite Hpeer.
Qed.
End DatagramByName.

(** ** What every endpoint keeps for life *)

Section Steadiness.
Context {FdTable : Type} {vfs : VirtualFileSystem FdTable}
        {layout : CmsgLayout} {util : SocketUtil}.
Implicit Types w : World FdTable.

#[local] Arguments NameRegistry.Bind : simpl never.

#[local] Abbreviation lasting := (evolves steady sound).

Lemma steady_refl o : steady o o.
Proof. unfold steady. auto. Qed.

Lemma steady_trans o1 o2 o3 : steady o1 o2 → steady o2 o3 → steady o1 o3.
Proof.
  intros (Hty1 & Hdir1 & Hname1 & Hs1) (Hty2 & Hdir2 & Hname2 & Hs2).
  split_and!; [congruence | congruence | | auto].
  intros Hn. destruct (Hname1 Hn) as [Ha Hl].
  assert (named o2) as Hn2 by (unfold named in *; by rewrite Ha, Hl).
  destruct (Hname2 Hn2). split; congruence.
Qed.

Lemma sound_step o o' : sound o → steady o o' → sound o'.
Proof. intros Hs (_ & _ & _ & H). auto. Qed.

(** An update that leaves type, direction, names, ring and datagram queue
    alone and does not make the endpoint listen. *)
Lemma steady_intro o o' :
  socket_type_ o' = socket_type_ o →
  stream_dir_ o' = stream_dir_ o →
  abstract_name_ o' = abstract_name_ o →
  logd_name_ o' = logd_name_ o →
  buffer_ o' = buffer_ o →
  queue_ o' = queue_ o →
  (connect_state_ o' = SOCKET_LISTENING →
   connect_state_ o = SOCKET_LISTENING) →
  steady o o'.
Proof.
  intros Hty Hdir Ha Hl Hb Hq Hst. split_and!; try done.
  intros (Hcap & Hsize & Hqueue & Hlisten). unfold sound, named in *.
  rewrite Hty, Hdir, Ha, Hl, Hb, Hq. split_and!; auto.
Qed.

Lemma steady_bind o (name : string) :
  negb (str_empty (abstract_name_ o)) || negb (str_empty (logd_name_ o)) = false →
  steady o (set_logd_name_ name o) ∧ steady o (set_abstract_name_ name o).
Proof.
  intros Hguard. apply orb_false_iff in Hguard as [Ha Hl].
  apply negb_false_iff in Ha, Hl.
  assert (¬ named o) as Hn by (unfold named; by rewrite Ha, Hl).
  split; (split_and!; [done | done | done |]);
    intros (Hcap & Hsize & Hqueue & Hlisten); (split_and!; try done);
    intros Hst; by destruct (Hlisten Hst).
Qed.

Lemma steady_listen o backlog :
  socket_type_ o ≠ SOCK_DGRAM →
  str_empty (abstract_name_ o) && str_empty (logd_name_ o) = false →
  steady o (set_connection_backlog_ backlog
              (set_connect_state_ SOCKET_LISTENING o)).
Proof.
  intros Hty Hn. split_and!; try done.
  intros (Hcap & Hsize & Hqueue & Hlisten). by split_and!.
Qed.

Lemma LocalSocket_new_sound oflag ty dir getpid getuid :
  sound (LocalSocket_new oflag ty dir getpid getuid).
Proof.
  unfold sound, LocalSocket_new. simpl.
  case_bool_decide; (split_and!; [done | | done | done]);
    unfold RingBuffer.size; simpl; unfold kBufferSize; lia.
Qed.

Lemma steady_recv_data this msg : steady this (recv_data this msg).1.1.1.1.
Proof.
  unfold recv_data. case_bool_decide as Hty.
  - destruct (0 <? _); [|apply steady_refl].
    destruct (stream_read_loop_spec (rmsg_iov msg) (buffer_ this))
      as (outs & -> & _). simpl.
    split_and!; try done.
    intros (Hcap & Hsize & Hqueue & Hlisten). split_and!; try done.
    simpl. unfold RingBuffer.size in *. simpl. rewrite length_drop. lia.
  - destruct (queue_ this) as [|datagram rest]; [apply steady_refl|].
    destruct (datagram_copy_loop _ _). simpl.
    split_and!; try done.
    intros (Hcap & Hsize & Hqueue & Hlisten). by split_and!.
Qed.

Lemma steady_build_control controllen cred this tbl flags :
  steady this (build_control controllen cred this tbl flags).1.1.1.1.1.
Proof.
  destruct (build_control_spec controllen cred this tbl flags)
    as (? & ? & ? & ? & _ & -> & _). by apply steady_intro.
Qed.

Lemma steady_send_data this msg cred : steady this (send_data this msg cred).1.1.
Proof.
  destruct (decide (socket_type_ this = SOCK_STREAM)) as [Hty | Hty].
  - rewrite send_data_stream by done. simpl. split_and!; try done.
    intros (Hcap & Hsize & Hqueue & Hlisten). split_and!; try done.
    simpl. unfold RingBuffer.size in *. simpl.
    rewrite length_app, length_take. lia.
  - destruct (decide (smsg_iov msg = [])) as [Hiov | Hiov].
    + unfold send_data. rewrite Hiov. apply steady_refl.
    + rewrite send_data_datagram by done. simpl. split_and!; try done.
      intros (Hcap & Hsize & Hqueue & Hlisten). by split_and!.
Qed.

#[local] Instance steady_Reflexive : Reflexive steady := steady_refl.
#[local] Instance steady_Transitive : Transitive steady := steady_trans.

Lemma lasting_refl w : lasting w w.
Proof. apply evolves_refl, _. Qed.

Lemma lasting_put s o o' w w1 :
  lasting w w1 → get s w1 = Some o → steady o o' → lasting w (put s o' w1).
Proof.
  intros. eapply evolves_put_after; eauto using sound_step; apply _.
Qed.

Lemma lasting_emit es w w1 : lasting w w1 → lasting w (emit es w1).
Proof. apply evolves_emit; eauto using sound_step; apply _. Qed.

Lemma lasting_set_fd_table tbl w w1 :
  lasting w w1 → lasting w (set_fd_table tbl w1).
Proof. apply evolves_set_fd_table; eauto using sound_step; apply _. Qed.

Lemma lasting_set_abstract_ns ns w w1 :
  lasting w w1 → lasting w (set_abstract_ns ns w1).
Proof. apply evolves_set_abstract_ns; eauto using sound_step; apply _. Qed.

Lemma lasting_set_logd_ns ns w w1 :
  lasting w w1 → lasting w (set_logd_ns ns w1).
Proof. apply evolves_set_logd_ns; eauto using sound_step; apply _. Qed.

Lemma lasting_alloc obj w w1 :
  lasting w w1 → sound obj → lasting w (alloc obj w1).2.
Proof. apply evolves_alloc_after; eauto using sound_step; apply _. Qed.

#[local] Hint Resolve lasting_refl lasting_emit lasting_set_fd_table
  lasting_set_abstract_ns lasting_set_logd_ns : evolve.

Lemma socket_lasting oflag ty dir getpid getuid w :
  lasting w (socket oflag ty dir getpid getuid w).2.
Proof.
  unfold socket. apply lasting_alloc; [apply lasting_refl|].
  apply LocalSocket_new_sound.
Qed.

Lemma set_peer_lasting self peer w0 w w' :
  lasting w0 w → set_peer self peer w = Some w' → lasting w0 w'.
Proof.
  unfold set_peer. intros Hw0 H.
  destruct (get self w) as [this|] eqn:Hs; [simpl in H | done].
  destruct (get peer w) as [peer_obj|]; [simpl in H | done].
  injection H as <-.
  eapply lasting_put; [exact Hw0 | exact Hs | by apply steady_intro].
Qed.

Lemma pair_up_lasting a b w w' : pair_up a b w = Some w' → lasting w w'.
Proof.
  unfold pair_up. intros H.
  destruct (set_peer a b w) as [w1|] eqn:H1; [simpl in H | done].
  eapply set_peer_lasting; [|exact H].
  eapply set_peer_lasting; [|exact H1]. apply lasting_refl.
Qed.

Lemma OnLastFileRef_lasting self w0 w w' :
  lasting w0 w → OnLastFileRef self w = Some w' → lasting w0 w'.
Proof.
  unfold OnLastFileRef. intros Hw0 H.
  destruct (get self w) as [this|] eqn:Hs; [simpl in H | done].
  assert (∀ w1, lasting w0 w1 →
            lasting w0
              (if str_empty (logd_name_ this)
               then (if str_empty (abstract_name_ this) then w1
                     else set_abstract_ns
                            (NameRegistry.Bind (abstract_name_ this) None
                               (abstract_ns w1)).1 w1)
               else set_logd_ns
                      (NameRegistry.Bind (logd_name_ this) None
                         (logd_ns (if str_empty (abstract_name_ this) then w1
                                   else set_abstract_ns
                                          (NameRegistry.Bind (abstract_name_ this)
                                             None (abstract_ns w1)).1 w1))).1
                      (if str_empty (abstract_name_ this) then w1
                       else set_abstract_ns
                              (NameRegistry.Bind (abstract_name_ this) None
                                 (abstract_ns w1)).1 w1))) as Hns.
  { intros w1 H1.
    destruct (str_empty (logd_name_ this)), (str_empty (abstract_name_ this));
      eauto with evolve. }
  destruct (peer_ this) as [p|].
  - destruct (get p w) as [peer_obj|] eqn:Hp; [simpl in H | done].
    destruct (get self (put p (set_peer_ None peer_obj) w)) as [this'|] eqn:Hs';
      [simpl in H | done].
    injection H as <-. apply Hns. apply lasting_emit.
    eapply lasting_put; [|exact Hs' | by apply steady_intro].
    eapply lasting_put; [exact Hw0 | exact Hp | by apply steady_intro].
  - simpl in H. injection H as <-. by apply Hns.
Qed.

Lemma close_lasting self w w' : close self w = Some w' → lasting w w'.
Proof.
  unfold close. intros H.
  destruct (get self w) as [this|] eqn:Hs; [simpl in H | done].
  eapply OnLastFileRef_lasting; [|exact H].
  eapply lasting_put; [apply lasting_refl | exact Hs | by apply steady_intro].
Qed.

Lemma bind_lasting self addr addrlen w w' r :
  bind self addr addrlen w = Some (w', r) → lasting w w'.
Proof.
  unfold bind. intros H.
  destruct (get self w) as [this|] eqn:Hs; [simpl in H | done].
  destruct (ValidateSockaddr addr addrlen);
    [injection H as <- _; apply lasting_refl|].
  destruct (negb _ || negb _) eqn:Hguard;
    [injection H as <- _; apply lasting_refl|].
  destruct (ConvertSockaddrToName addr addrlen) as [name|].
  - destruct (NameRegistry.Bind name (Some self) (logd_ns w)) as [ns result].
    destruct result as [[]| |]; injection H as <- _; eauto with evolve.
    eapply lasting_put; [eauto with evolve | exact Hs |].
    apply (proj1 (steady_bind this name Hguard)).
  - destruct (ConvertSockaddrToAbstractName addr addrlen) as [name|];
      [|injection H as <- _; apply lasting_refl].
    destruct (NameRegistry.Bind name (Some self) (abstract_ns w)) as [ns result].
    destruct result as [[]| |]; injection H as <- _; eauto with evolve.
    eapply lasting_put; [eauto with evolve | exact Hs |].
    apply (proj2 (steady_bind this name Hguard)).
Qed.

Lemma listen_lasting self backlog w w' r :
  listen self backlog w = Some (w', r) → lasting w w'.
Proof.
  unfold listen. intros H.
  destruct (get self w) as [this|] eqn:Hs; [simpl in H | done].
  case_bool_decide as Hty; [injection H as <- _; apply lasting_refl|].
  destruct (_ && _) eqn:Hn; injection H as <- _; [apply lasting_refl|].
  eapply lasting_put; [apply lasting_refl | exact Hs |].
  by apply steady_listen.
Qed.

Lemma setsockopt_lasting self level optname optval optlen w w' r :
  setsockopt self level optname optval optlen w = Some (w', r) → lasting w w'.
Proof.
  unfold setsockopt. intros H.
  destruct (get self w) as [this|] eqn:Hs; [simpl in H | done].
  destruct (_ && _); [|injection H as <- _; apply lasting_refl].
  destruct (negb _); [injection H as <- _; apply lasting_refl|].
  destruct optval; simpl in H; [|done]. injection H as <- _.
  eapply lasting_put; [apply lasting_refl | exact Hs | by apply steady_intro].
Qed.

Lemma HandleConnectLocked_lasting self client w0 w w' ok :
  lasting w0 w → HandleConnectLocked self client w = Some (w', ok) →
  lasting w0 w'.
Proof.
  unfold HandleConnectLocked. intros Hw0 H.
  destruct (get self w) as [this|] eqn:Hs; [simpl in H | done].
  destruct (bool_decide _); [|by injection H as <- _].
  destruct (negb _); [by injection H as <- _|].
  destruct (_ =? _); [by injection H as <- _|].
  destruct (_ =? _)%nat; injection H as <- _; [apply lasting_emit|];
    (eapply lasting_put; [exact Hw0 | exact Hs | by apply steady_intro]).
Qed.

Lemma WaitForLocalSocketConnect_lasting self w0 w w' parked :
  lasting w0 w → WaitForLocalSocketConnect self w = Some (w', parked) →
  lasting w0 w'.
Proof.
  unfold WaitForLocalSocketConnect. intros Hw0 H.
  destruct (get self w) as [this|] eqn:Hs; [simpl in H | done].
  destruct (bool_decide _); injection H as <- _; [|done].
  eapply lasting_put; [exact Hw0 | exact Hs | by apply steady_intro].
Qed.

Lemma connect_lasting self addr addrlen w w' r :
  connect self addr addrlen w = Some (w', r) → lasting w w'.
Proof.
  unfold connect. intros H.
  destruct (get self w) as [this|] eqn:Hs; [simpl in H | done].
  destruct (bool_decide _); [injection H as <- _; apply lasting_refl|].
  destruct (negb _ && negb _); [injection H as <- _; apply lasting_refl|].
  destruct (ValidateSockaddr addr addrlen);
    [injection H as <- _; apply lasting_refl|].
  match type of H with
  | match ?found with _ => _ end = _ =>
      destruct found as [[logd_name [bound_socket|]]|]
  end; try (injection H as <- _; apply lasting_refl).
  destruct (get bound_socket w) as [bound|]; [simpl in H | done].
  destruct (negb _); [injection H as <- _; apply lasting_refl|].
  destruct (HandleConnectLocked bound_socket self w) as [[w1 ok]|] eqn:Hh;
    [simpl in H | done].
  assert (lasting w w1) as Hw1.
  { eapply HandleConnectLocked_lasting; [|exact Hh]. apply lasting_refl. }
  destruct ok; simpl in H; [|by injection H as <- _].
  destruct (get self w1) as [this1|] eqn:Hs1; [simpl in H | done].
  destruct (WaitForLocalSocketConnect self _) as [[w3 parked]|] eqn:Hwait;
    [simpl in H | done].
  injection H as <- _.
  eapply WaitForLocalSocketConnect_lasting; [|exact Hwait].
  eapply lasting_put; [exact Hw1 | exact Hs1 | by apply steady_intro].
Qed.

Lemma accept_paired_lasting self getpid getuid w0 w w' r :
  ids_below_next w → lasting w0 w →
  accept_paired self getpid getuid w = Some (w', r) → lasting w0 w'.
Proof.
  unfold accept_paired. intros Hwf Hw0 H.
  destruct (get self w) as [this|] eqn:Hs; [simpl in H | done].
  destruct (IsClosed this); [by injection H as <- _|].
  destruct (connection_queue_ this) as [|client rest]; [by injection H as <- _|].
  destruct (AddFileStreamLocked (fd_table w) (next_id w)) as [accept_fd tbl].
  destruct (accept_fd <? 0); [injection H as <- _; eauto with evolve|].
  assert (lasting w0
            (put self (set_connection_queue_ rest this)
               (alloc (LocalSocket_new (oflag_ this) (socket_type_ this)
                         READ_WRITE getpid getuid)
                  (set_fd_table tbl w)).2)) as Hw3.
  { eapply (lasting_put _ this); [| | by apply steady_intro].
    - apply lasting_alloc; eauto with evolve. apply LocalSocket_new_sound.
    - rewrite get_alloc. change (next_id (set_fd_table tbl w)) with (next_id w).
      rewrite decide_False; [exact Hs|].
      assert (is_Some (get self w)) as Hsome by eauto.
      specialize (Hwf _ Hsome). lia. }
  destruct (set_peer (next_id w) client _) as [w4|] eqn:H4; [simpl in H | done].
  destruct (set_peer client _ w4) as [w5|] eqn:H5; [simpl in H | done].
  injection H as <- _. apply lasting_emit.
  eapply set_peer_lasting; [|exact H5].
  eapply set_peer_lasting; [exact Hw3 | exact H4].
Qed.

Lemma accept_lasting self addr addrlen timed_out getpid getuid w w' r :
  accept self addr addrlen timed_out getpid getuid w = Some (w', r) →
  lasting w w'.
Proof.
  unfold accept. intros H.
  destruct (get self w) as [this|] eqn:Hs; [simpl in H | done].
  destruct (bool_decide _); [injection H as <- _; apply lasting_refl|].
  destruct (negb _); [injection H as <- _; apply lasting_refl|].
  destruct (negb _); [injection H as <- _; apply lasting_refl|].
  destruct (negb _); [injection H as <- _; apply lasting_refl|].
  unfold WaitForOpenedConnectToAccept in H. rewrite Hs in H; simpl in H.
  destruct (skip_closed (connection_queue_ this) w) as [q|]; [simpl in H | done].
  assert (lasting w (put self (set_connection_queue_ q this) w)) as Hw1.
  { eapply lasting_put; [apply lasting_refl | exact Hs | by apply steady_intro]. }
  assert (∀ parked,
            (if (parked : bool)
             then Some (put self (set_connection_queue_ q this) w, Suspended)
             else accept_paired self getpid getuid
                    (put self (set_connection_queue_ q this) w))
            = Some (w', r) → lasting w w') as Hrest.
  { intros [] Hp; [by injection Hp as <- _|].
    intros Hwf. eapply accept_paired_lasting; [| exact Hw1 | exact Hp | exact Hwf].
    by destruct (Hw1 Hwf). }
  destruct q; simpl in H; [by apply (Hrest (negb timed_out)) | by apply (Hrest false)].
Qed.

Lemma recvmsg_ready_lasting self msg w w' r out :
  recvmsg_ready self msg w = Some (w', r, out) → lasting w w'.
Proof.
  unfold recvmsg_ready. intros H.
  destruct (get self w) as [this|] eqn:Hs; [simpl in H | done].
  pose proof (steady_recv_data this msg) as Hdata.
  destruct (recv_data this msg) as [[[[this1 outs] bytes_read] flags1] cred].
  simpl in Hdata.
  assert (∀ this2 tbl log w1,
            steady this this2 →
            w1 = emit log (set_fd_table tbl (put self this2 w)) →
            lasting w w1
            ∧ lasting w (match peer_ this with
                         | Some p => emit [NotifyListeners p] w1
                         | None => w1
                         end)) as Hfin.
  { intros this2 tbl log w1 Hlink ->.
    assert (lasting w (emit log (set_fd_table tbl (put self this2 w)))).
    { apply lasting_emit, lasting_set_fd_table.
      eapply lasting_put; [apply lasting_refl | exact Hs | done]. }
    split; [done|]. destruct (peer_ this); [|done]. by apply lasting_emit. }
  destruct (bytes_read <=? 0).
  - destruct (Hfin this1 (fd_table w) [] _ Hdata eq_refl) as [H1 H2].
    destruct (0 <? bytes_read); [by injection H as <- _ _|].
    destruct (_ && _); by injection H as <- _ _.
  - pose proof (steady_build_control (rmsg_controllen msg) cred this1
                  (fd_table w) flags1) as Hctl.
    destruct (build_control _ _ _ _ _)
      as [[[[[this2 control] controllen] tbl] log] flags2].
    simpl in Hctl.
    destruct (Hfin this2 tbl log _ (steady_trans _ _ _ Hdata Hctl) eq_refl)
      as [H1 H2].
    destruct (0 <? bytes_read); [by injection H as <- _ _|].
    destruct (_ && _); by injection H as <- _ _.
Qed.

Lemma recvmsg_lasting self msg flags w w' r out :
  recvmsg self msg flags w = Some (w', r, out) → lasting w w'.
Proof.
  unfold recvmsg. intros H.
  destruct (get self w) as [this|]; [simpl in H | done].
  destruct (bool_decide _); [injection H as <- _ _; apply lasting_refl|].
  destruct (negb _ && negb _); [injection H as <- _ _; apply lasting_refl|].
  destruct (recvmsg_must_wait this flags w) as [[]|]; simpl in H;
    [injection H as <- _ _; apply lasting_refl | | done].
  by eapply recvmsg_ready_lasting.
Qed.

Lemma recvfrom_lasting self len flags addr addrlen w w' r bytes :
  recvfrom self len flags addr addrlen w = Some (w', r, bytes) → lasting w w'.
Proof.
  unfold recvfrom. intros H.
  destruct (addr || addrlen); [injection H as <- _ _; apply lasting_refl|].
  destruct (len =? 0)%nat; [injection H as <- _ _; apply lasting_refl|].
  destruct (recvmsg self _ 0 w) as [[[w1 r1] out]|] eqn:Hr; [simpl in H | done].
  injection H as <- _ _. by eapply recvmsg_lasting.
Qed.

Lemma HandleSendmsgLocked_lasting self msg cred w w' r :
  HandleSendmsgLocked self msg cred w = Some (w', r) → lasting w w'.
Proof.
  unfold HandleSendmsgLocked. intros H.
  destruct (get self w) as [this|] eqn:Hs; [simpl in H | done].
  pose proof (steady_send_data this msg cred) as Hdata.
  destruct (send_data this msg cred) as [[this1 attempted] sent].
  simpl in Hdata.
  assert (∀ this2 tbl log,
            steady this this2 →
            lasting w (if 0 <? sent
                       then emit [Broadcast; NotifyListeners self]
                              (emit log (set_fd_table tbl (put self this2 w)))
                       else emit log (set_fd_table tbl (put self this2 w))))
    as Hfin.
  { intros this2 tbl log Hlink.
    assert (lasting w (emit log (set_fd_table tbl (put self this2 w)))).
    { apply lasting_emit, lasting_set_fd_table.
      eapply lasting_put; [apply lasting_refl | exact Hs | done]. }
    destruct (0 <? sent); [|done]. by apply lasting_emit. }
  destruct (negb _ && (0 <? smsg_controllen msg)).
  - destruct (collect_rights _ _ _ _) as [[fds tbl] log].
    specialize (Hfin (set_cmsg_fd_queue_ (cmsg_fd_queue_ this1 ++ [fds]) this1)
                  tbl log).
    destruct ((sent =? 0) && _); injection H as <- _; apply Hfin;
      (eapply steady_trans; [exact Hdata | by apply steady_intro]).
  - specialize (Hfin this1 (fd_table w) [] Hdata).
    destruct ((sent =? 0) && _); by injection H as <- _.
Qed.

Lemma sendmsg_lasting self msg flags w w' r :
  sendmsg self msg flags w = Some (w', r) → lasting w w'.
Proof.
  unfold sendmsg. intros H.
  destruct (get self w) as [this|]; [simpl in H | done].
  destruct (bool_decide _); [injection H as <- _; apply lasting_refl|].
  destruct (negb _ && negb _); [injection H as <- _; apply lasting_refl|].
  destruct (peer_ this); [by eapply HandleSendmsgLocked_lasting|].
  destruct (bool_decide _); [|injection H as <- _; apply lasting_refl].
  match type of H with
  | match ?b with _ => _ end = _ => destruct b
  end; [by eapply HandleSendmsgLocked_lasting
       | injection H as <- _; apply lasting_refl].
Qed.

Lemma sendto_lasting self buf flags dest_addr addrlen w w' r :
  sendto self buf flags dest_addr addrlen w = Some (w', r) → lasting w w'.
Proof.
  unfold sendto. intros H.
  destruct (dest_addr || _); [injection H as <- _; apply lasting_refl|].
  destruct (_ =? 0)%nat; [injection H as <- _; apply lasting_refl|].
  by eapply sendmsg_lasting.
Qed.

Lemma step_lasting op w : lasting w (step op w).
Proof.
  destruct op; simpl.
  - apply socket_lasting.
  - destruct (pair_up a b w) eqn:H; simpl;
      [by eapply pair_up_lasting | apply lasting_refl].
  - destruct (close s w) eqn:H; simpl;
      [by eapply close_lasting | apply lasting_refl].
  - destruct (bind s addr addrlen w) as [[]|] eqn:H; simpl;
      [by eapply bind_lasting | apply lasting_refl].
  - destruct (listen s backlog w) as [[]|] eqn:H; simpl;
      [by eapply listen_lasting | apply lasting_refl].
  - destruct (connect s addr addrlen w) as [[]|] eqn:H; simpl;
      [by eapply connect_lasting | apply lasting_refl].
  - destruct (accept s addr addrlen timed_out getpid getuid w) as [[]|] eqn:H;
      simpl; [by eapply accept_lasting | apply lasting_refl].
  - destruct (recvmsg s msg flags w) as [[[]]|] eqn:H; simpl;
      [by eapply recvmsg_lasting | apply lasting_refl].
  - destruct (recvfrom s len flags addr addrlen w) as [[[]]|] eqn:H; simpl;
      [by eapply recvfrom_lasting | apply lasting_refl].
  - destruct (sendmsg s msg flags w) as [[]|] eqn:H; simpl;
      [by eapply sendmsg_lasting | apply lasting_refl].
  - destruct (sendto s buf flags dest_addr addrlen w) as [[]|] eqn:H; simpl;
      [by eapply sendto_lasting | apply lasting_refl].
  - destruct (setsockopt s level optname optval optlen w) as [[]|] eqn:H; simpl;
      [by eapply setsockopt_lasting | apply lasting_refl].
Qed.

Lemma run_lasting ops w : lasting w (run ops w).
Proof.
  revert w. induction ops as [|op ops IH]; intros w; [apply lasting_refl|].
  simpl. eapply evolves_trans; [apply _ | apply sound_step | apply step_lasting |].
  apply IH.
Qed.

(** X25.  Whatever the calls made from the empty store, an endpoint never holds
    more than [kBufferSize] bytes in its ring, holds none unless it is a
    stream endpoint that can be read from, holds no datagram if it is a
    stream endpoint, and listens only if it has a name and is not a
    datagram endpoint. *)
Theorem endpoint_shape w0 ops s o :
  sockets w0 = ∅ →
  get s (run ops w0) = Some o →
  0 ≤ RingBuffer.size (buffer_ o) ≤ kBufferSize
  ∧ (socket_type_ o ≠ SOCK_STREAM ∨ stream_dir_ o = WRITE_ONLY →
     RingBuffer.data (buffer_ o) = [])
  ∧ (socket_type_ o = SOCK_STREAM → queue_ o = [])
  ∧ (connect_state_ o = SOCKET_LISTENING →
     socket_type_ o ≠ SOCK_DGRAM ∧ named o).
Proof.
  intros Hempty Hs.
  destruct (run_lasting ops w0 (ids_below_next_empty _ Hempty))
    as (_ & _ & Hrun).
  specialize (Hrun s). rewrite Hs in Hrun.
  assert (get s w0 = None) as Hnone by (unfold get; by rewrite Hempty).
  rewrite Hnone in Hrun. destruct Hrun as (Hcap & Hsize & Hq & Hlisten).
  assert (0 ≤ RingBuffer.size (buffer_ o)) as Hpos
    by (unfold RingBuffer.size; lia).
  split_and!; try done.
  - rewrite Hcap in Hsize. case_bool_decide; unfold kBufferSize in *; lia.
  - intros Hkind. apply size_0_data. rewrite Hcap in Hsize.
    rewrite bool_decide_eq_false_2 in Hsize; [lia|].
    intros [Hty Hdir]. by destruct Hkind.
Qed.

(** X26.  Along any sequence of calls an endpoint keeps the type and the
    direction it was made with and, once it has a name, that name. *)
Theorem endpoint_for_life w ops s o o' :
  ids_below_next w →
  get s w = Some o →
  get s (run ops w) = Some o' →
  socket_type_ o' = socket_type_ o
  ∧ stream_dir_ o' = stream_dir_ o
  ∧ (named o →
     abstract_name_ o' = abstract_name_ o ∧ logd_name_ o' = logd_name_ o).
Proof.
  intros Hwf Hs Hs'. destruct (run_lasting ops w Hwf) as (_ & _ & Hrun).
  specialize (Hrun s). rewrite Hs, Hs' in Hrun.
  by destruct Hrun as (Hty & Hdir & Hname & _).
Qed.
End Steadiness.

(** * The properties on the concrete platform *)

Section OnLinux32.
Import Linux32 Scenarios.
#[local] Existing Instance layout.
#[local] Existing Instance vfs.
#[local] Existing Instance checks.

(** Name the endpoint stored under [s] in the concrete store [w]. *)
Ltac endpoint s w this H :=
  destruct (get s w) as [this|] eqn:H; [|by vm_compute in H];
  let Hv := fresh in
  pose proof H as Hv; vm_compute in Hv; injection Hv as <-.

(** ** C10 *)

(** C10 at work on the stream pair. *)
Lemma recvfrom_sendto_refuse_addresses_witness :
  recvfrom 1%nat 4 0 true false stream_pair
  = Some (stream_pair, Err EINVAL, [])
  ∧ sendto 0%nat (ascii_bytes "x") 0 false 16 stream_pair
    = Some (stream_pair, Err EINVAL).
Proof.
  split.
  - apply (proj1 (recvfrom_sendto_refuse_addresses 1%nat stream_pair)).
    by left.
  - apply (proj2 (recvfrom_sendto_refuse_addresses 0%nat stream_pair)).
    by right.
Defined.

(** ** C7 *)

(** C7 as written fails: after the write end of a pipe is closed, a
    sendmsg on the read end fails with EBADF, not ECONNRESET. *)
Lemma half_closed_pipe_counterexample :
  ¬ AsWritten.every_half_closed_endpoint_eofs_and_resets.
Proof.
  intros Hclaim. endpoint 0%nat pipe_writer_gone this Hget.
  destruct (Hclaim _ _ _ (mk_recv_msghdr [1%nat] 0 0) 0
              (mk_send_msghdr one_byte [] 0) 0 Hget)
    as [_ Hsend].
  - vm_compute. discriminate.
  - vm_compute. reflexivity.
  - vm_compute. reflexivity.
  - destruct Hsend as [w' Hsend]; [vm_compute; discriminate|].
    vm_compute in Hsend. discriminate.
Qed.

(** C7 at work on the socket left over from a stream pair: end of file
    on the empty ring and a reset on send; the reset also when the peer
    had written "abc" before it was closed and nobody has read it. *)
Lemma half_closed_eof_and_reset_witness :
  let unread :=
    run [OSendto 1%nat (ascii_bytes "abc") 0 false 0; OClose 1%nat]
      stream_pair in
  (∃ out, recvmsg 0%nat (mk_recv_msghdr [1%nat] 0 0) 0 stream_peer_gone
          = Some (stream_peer_gone, Ret 0, out))
  ∧ sendmsg 0%nat (mk_send_msghdr one_byte [] 0) 0 stream_peer_gone
    = Some (stream_peer_gone, Err ECONNRESET)
  ∧ sendmsg 0%nat (mk_send_msghdr one_byte [] 0) 0 unread
    = Some (unread, Err ECONNRESET).
Proof.
  intros unread. split_and!.
  - endpoint 0%nat stream_peer_gone this Hget.
    destruct (half_closed_eof_and_reset _ _ _ (mk_recv_msghdr [1%nat] 0 0) 0
                (mk_send_msghdr one_byte [] 0) 0 Hget)
      as [Hrecv _].
    + vm_compute. discriminate.
    + vm_compute. reflexivity.
    + vm_compute. reflexivity.
    + apply Hrecv. vm_compute. split; reflexivity.
  - endpoint 0%nat stream_peer_gone this Hget.
    destruct (half_closed_eof_and_reset _ _ _ (mk_recv_msghdr [1%nat] 0 0) 0
                (mk_send_msghdr one_byte [] 0) 0 Hget)
      as [_ Hsend].
    + vm_compute. discriminate.
    + vm_compute. reflexivity.
    + vm_compute. reflexivity.
    + exact Hsend.
  - endpoint 0%nat unread this Hget.
    destruct (half_closed_eof_and_reset _ _ _ (mk_recv_msghdr [1%nat] 0 0) 0
                (mk_send_msghdr one_byte [] 0) 0 Hget)
      as [_ Hsend].
    + vm_compute. discriminate.
    + vm_compute. reflexivity.
    + vm_compute. reflexivity.
    + exact Hsend.
Defined.

(** ** C3 *)

(** C3 as written fails: a recvmsg without any iovec capacity pops the
    queued datagram and fails with EAGAIN instead of returning 0. *)
Lemma datagram_recv_zero_capacity_counterexample :
  ¬ AsWritten.datagram_recv_returns_min.
Proof.
  intros Hclaim. endpoint 1%nat sent_datagram this Hget.
  destruct (Hclaim _ _ _ (mk_Datagram (mk_ucred 10 1000 1000) (ascii_bytes "abc"))
              [] (mk_recv_msghdr [] 0 0) 0 Hget)
    as (w' & out & Hrecv & _).
  - vm_compute. discriminate.
  - vm_compute. reflexivity.
  - vm_compute in Hrecv. discriminate.
Qed.

(** C3 at work: three bytes queued, two bytes of capacity. *)
Lemma datagram_recv_witness :
  ∃ w' out,
    recvmsg 1%nat (mk_recv_msghdr [2%nat] 0 0) 0 sent_datagram
    = Some (w', Ret 2, out)
    ∧ queue_ <$> get 1%nat w' = Some []
    ∧ concat (out_iov out) = ascii_bytes "ab"
    ∧ flag_set (out_flags out) MSG_TRUNC = true.
Proof.
  endpoint 1%nat sent_datagram this Hget.
  destruct (datagram_recv _ _ _
              (mk_Datagram (mk_ucred 10 1000 1000) (ascii_bytes "abc")) []
              (mk_recv_msghdr [2%nat] 0 0) 0 Hget)
    as (w' & r & out & Hrecv & Hq & Hc & _ & Hflag & Hret).
  - vm_compute. discriminate.
  - vm_compute. reflexivity.
  - left. vm_compute. reflexivity.
  - vm_compute. reflexivity.
  - exists w', out. rewrite Hret in Hrecv by (vm_compute; lia).
    split_and!; [exact Hrecv | exact Hq | exact Hc |].
    apply Hflag. vm_compute. lia.
Defined.

(** ** C2 *)

(** C2 as written fails: an entry without descriptors is popped into a
    control buffer of length zero; no SCM_RIGHTS header is placed, yet
    MSG_CTRUNC stays clear. *)
Lemma ctrunc_unfit_header_counterexample :
  ¬ AsWritten.ctrunc_iff_dropped_or_unfit.
Proof.
  intros Hclaim. endpoint 1%nat sent_no_fds this Hget.
  pose (msg := mk_recv_msghdr [1%nat] 0 0).
  destruct (Hclaim sent_no_fds 1%nat _ [] [] msg 0
              (step (ORecvmsg 1%nat msg 0) sent_no_fds) 1
              (recv_out 1%nat msg 0 sent_no_fds) Hget) as [_ Hflag].
  - vm_compute. reflexivity.
  - vm_compute. reflexivity.
  - done.
  - assert (flag_set (out_flags (recv_out 1%nat msg 0 sent_no_fds)) MSG_CTRUNC
            = true) as Hset.
    { apply Hflag. right. vm_compute. reflexivity. }
    vm_compute in Hset. discriminate.
Qed.

(** C2 at work: two descriptors queued, room for one. *)
Lemma ctrunc_iff_fd_dropped_witness :
  let msg := mk_recv_msghdr [1%nat] 28 0 in
  let out := recv_out 1%nat msg 0 sent_two_fds in
  ∃ kept dropped,
    [3; 4] = kept ++ dropped
    ∧ (flag_set (out_flags out) MSG_CTRUNC = true ↔ dropped ≠ [])
    ∧ delivered_rights out
      = (if existsb is_rights (out_control out) then kept else []).
Proof.
  intros msg out. endpoint 1%nat sent_two_fds this Hget.
  destruct (ctrunc_iff_fd_dropped sent_two_fds 1%nat _ [3; 4] [] msg 0
              (step (ORecvmsg 1%nat msg 0) sent_two_fds) 1 out Hget)
    as (kept & dropped & Hsplit & _ & Hflag & Hrights & _).
  - vm_compute. reflexivity.
  - vm_compute. reflexivity.
  - done.
  - exists kept, dropped. split_and!; [exact Hsplit | exact Hflag | exact Hrights].
Defined.

(** ** C1 *)

(** C1 as written fails: a message whose control buffer is not empty but
    holds no header at all, and so no SCM_RIGHTS data, still pushes an
    entry (an empty descriptor list) onto the receiver's FIFO. *)
Lemma short_control_enqueue_counterexample :
  ¬ AsWritten.rights_entry_iff_rights_sent.
Proof.
  intros Hclaim. endpoint 0%nat stream_pair this Hget.
  pose proof (Hclaim stream_pair 0%nat _ 1%nat [] msg_with_short_control 0
                (step (OSendmsg 0%nat msg_with_short_control 0) stream_pair)
                1 [[]] Hget) as Hqueue.
  vm_compute in Hqueue.
  specialize (Hqueue eq_refl eq_refl eq_refl eq_refl eq_refl).
  discriminate.
Qed.

(** C1 at work: one byte sent with SCM_RIGHTS [5; 6] to the peer. *)
Lemma rights_entry_iff_control_sent_witness :
  let w' := step (OSendmsg 0%nat msg_with_two_fds 0) stream_pair in
  ∃ fds,
    cmsg_fd_queue_ <$> get 1%nat w' = Some [fds]
    ∧ duplicates [5; 6] (fd_table stream_pair) fds (fd_table w').
Proof.
  intros w'. endpoint 0%nat stream_pair this Hget.
  destruct (rights_entry_iff_control_sent stream_pair 0%nat _
              msg_with_two_fds 0 w' 1 Hget)
    as (p & before & Hroute & Hbefore & _ & Hentry).
  - vm_compute. reflexivity.
  - done.
  - assert (p = 1%nat) as ->.
    { destruct Hroute as [Hp | (Hp & _)]; vm_compute in Hp;
        [by injection Hp as <- | discriminate]. }
    assert (before = []) as ->.
    { vm_compute in Hbefore. by injection Hbefore as <-. }
    assert ((0 <? smsg_controllen msg_with_two_fds) = true) as Hctl
      by (vm_compute; reflexivity).
    rewrite Hctl in Hentry. destruct Hentry as (fds & Hqueue & Hdups & _).
    exists fds. split; [exact Hqueue | exact Hdups].
Defined.

(** ** C9 *)

(** C9 as written fails: the client at the head of the queue has been
    closed while it waited; accept discards it before it finds the table
    full, so the queue is not what it was. *)
Lemma accept_emfile_skips_closed_counterexample :
  ¬ AsWritten.accept_emfile_leaves_queue.
Proof.
  intros Hclaim. endpoint 0%nat head_closed_table_full this Hget.
  pose proof (Hclaim head_closed_table_full 0%nat _ false None false 10 1000
                (step (OAccept 0%nat false None false 10 1000)
                   head_closed_table_full) Hget) as Hqueue.
  vm_compute in Hqueue. specialize (Hqueue eq_refl). discriminate.
Qed.

(** C9 at work: client 1 closed, client 2 waiting, table full. *)
Lemma accept_emfile_witness :
  ∃ w',
    accept 0%nat false None false 10 1000 head_closed_table_full
    = Some (w', Err EMFILE)
    ∧ connection_queue_ <$> get 0%nat w' = Some [2%nat]
    ∧ connect_state_ <$> get 2%nat w' = Some SOCKET_CONNECTING.
Proof.
  endpoint 0%nat head_closed_table_full this Hget.
  destruct (accept_emfile head_closed_table_full 0%nat _ false None false
              10 1000 2%nat [] (-1) (fd_table head_closed_table_full) Hget)
    as (Hacc & _ & Hkeep & _).
  - vm_compute. discriminate.
  - discriminate.
  - vm_compute. reflexivity.
  - vm_compute. reflexivity.
  - vm_compute. reflexivity.
  - vm_compute. reflexivity.
  - vm_compute. reflexivity.
  - done.
  - eexists. split_and!; [exact Hacc | by vm_compute | by vm_compute].
Defined.

(** ** C8 *)

(** C8 at work: a fresh endpoint; the client of an accepted connection
    after the server has written to it and has been closed; the server
    endpoint after the client has been closed. *)
Lemma so_peercred_witness :
  let accepted :=
    step (OAccept 0%nat false None false 20 2000) (two_pending 100) in
  let peercred s w := getsockopt s SOL_SOCKET SO_PEERCRED true (Some 12) w in
  peercred 0%nat (run [new_stream] (boot 100))
  = Some (OptDone (Ret 0)
            [x00; x00; x00; x00; xff; xff; xff; xff; xff; xff; xff; xff] 12)
  ∧ credentials_read
      (peercred 1%nat
         (run [OSendto 4%nat (ascii_bytes "hi") 0 false 0; OClose 4%nat]
            accepted))
    = Some (mk_ucred 20 2000 2000)
  ∧ credentials_read (peercred 4%nat (run [OClose 1%nat] accepted))
    = Some (mk_ucred 11 1001 1001).
Proof.
  intros accepted peercred.
  destruct (so_peercred (vfs := vfs) (layout := layout) (util := checks) 12
              ltac:(vm_compute; reflexivity) ltac:(done))
    as (Hnever & Hclient & Hserver & _ & _).
  split_and!.
  - apply (Hnever (boot 100) [new_stream] 0%nat).
    + reflexivity.
    + split; [|split; [|exact I]]; intros obj Hobj; vm_compute in Hobj.
      * discriminate.
      * by injection Hobj as <-.
    + vm_compute. eauto.
  - pose (later := [OSendto 4%nat (ascii_bytes "hi") 0 false 0; OClose 4%nat]).
    unfold accepted, two_pending.
    match goal with
    | |- context [run ?ops (boot 100)] =>
        assert (accept 0%nat false None false 20 2000 (run ops (boot 100))
                = Some (step (OAccept 0%nat false None false 20 2000)
                          (run ops (boot 100)), Ret 3)) as Hacc
          by (vm_compute; reflexivity);
        destruct (Hclient (boot 100) ops 0%nat false None false 20 2000
                    _ 3 later eq_refl Hacc)
          as (client & _ & Hlink & _ & Hcred)
    end.
    assert (client = 1%nat) as ->.
    { clear -Hlink. vm_compute in Hlink. by injection Hlink as <-. }
    apply Hcred. vm_compute. auto.
  - pose (before := [new_stream; OBind 0%nat svc.1 svc.2; OListen 0%nat 2]).
    pose (between := [OSocket 0 SOCK_STREAM READ_WRITE 12 1002;
                      OSocket 0 SOCK_STREAM READ_WRITE 13 1003;
                      OConnect 1%nat svc.1 svc.2; OConnect 2%nat svc.1 svc.2]).
    pose (created := socket 0 SOCK_STREAM READ_WRITE 11 1001
                       (run before (boot 100))).
    assert (accept 0%nat false None false 20 2000 (run between created.2)
            = Some (accepted, Ret 3)) as Hacc
      by (vm_compute; reflexivity).
    assert (peer_ <$> get (next_id (run between created.2)) accepted
            = Some (Some created.1)) as Hpeer
      by (vm_compute; reflexivity).
    assert (not_paired_anew (next_id (run between created.2)) [OClose 1%nat]
              accepted) as Hnot
      by (vm_compute; auto).
    pose proof (Hserver (boot 100) before 0 SOCK_STREAM READ_WRITE 11 1001
                  between 0%nat false None false 20 2000 accepted 3
                  [OClose 1%nat] eq_refl Hacc Hpeer Hnot) as Hcred.
    vm_compute in Hcred. vm_compute. exact Hcred.
Defined.

(** ** C4: a queue longer than the backlog *)

(** C4 fails on the code.  The listener lowered its backlog to 1 while two
    clients were pending.  The queue then holds more clients than the
    backlog allows, the equality test of HandleConnectLocked does not fire,
    and a third connect is enqueued instead of being refused. *)
Lemma connect_enqueues_beyond_backlog :
  connection_backlog_ <$> get 0%nat backlog_lowered = Some 1
  ∧ connection_queue_ <$> get 0%nat backlog_lowered = Some [1%nat; 2%nat]
  ∧ snd <$> connect 3%nat svc.1 svc.2 backlog_lowered = Some Suspended
  ∧ connection_queue_
    <$> get 0%nat (step (OConnect 3%nat svc.1 svc.2) backlog_lowered)
    = Some [1%nat; 2%nat; 3%nat].
Proof. vm_compute. auto. Qed.

(** ** C5: listen on a connected endpoint *)

(** C5 fails on the code.  A client that bound a name before it connected
    is CONNECTED after the accept; listen on it succeeds and moves it to
    LISTENING, its peer link still in place. *)
Lemma listen_leaves_connected :
  connect_state_ <$> get 1%nat bound_client_connected = Some SOCKET_CONNECTED
  ∧ snd <$> listen 1%nat 1 bound_client_connected = Some (Ret 0)
  ∧ (λ o, (connect_state_ o, peer_ o))
    <$> get 1%nat (step (OListen 1%nat 1) bound_client_connected)
    = Some (SOCKET_LISTENING, Some 2%nat).
Proof. vm_compute. auto. Qed.

(** ** C6: binding twice *)

(** C6 fails on the code.  An address of length [offsetof(sun_path) + 1]
    whose only path byte is NUL passes ValidateSockaddr and names the
    abstract name of length zero.  The bind succeeds and records the empty
    string, which the test for a name already bound reads as no name: a
    second bind succeeds too. *)
Lemma bind_twice_after_unnamed :
  unnamed = (mk_sockaddr AF_UNIX [Ascii.zero], 3)
  ∧ snd <$> bind 0%nat unnamed.1 unnamed.2 fresh_endpoint = Some (Ret 0)
  ∧ abstract_ns bound_unnamed !! EmptyString = Some 0%nat
  ∧ snd <$> bind 0%nat svc.1 svc.2 bound_unnamed = Some (Ret 0)
  ∧ abstract_ns (step (OBind 0%nat svc.1 svc.2) bound_unnamed) !! "svc"%string
    = Some 0%nat.
Proof. vm_compute. auto 10. Qed.
End OnLinux32.

(** * Further properties on the concrete platform *)

Section MoreOnLinux32.
Import Linux32 Scenarios MoreScenarios.
#[local] Existing Instance layout.
#[local] Existing Instance vfs.
#[local] Existing Instance checks.
#[local] Open Scope string_scope.

(** A closed fact about a scenario, by evaluation. *)
Ltac evaluated :=
  solve [ vm_compute; reflexivity
        | vm_compute; discriminate
        | vm_compute; lia
        | vm_compute; eauto ].

(** No endpoint of a scenario has a dangling peer. *)
Ltac peers_stored :=
  let p := fresh in let Hp := fresh in
  intros p Hp; vm_compute in Hp; first [discriminate | injection Hp as <-];
  evaluated.

(** X1: on the pathname of the log daemon. *)
Lemma ConvertSockaddrToName_c_string_witness :
  ConvertSockaddrToName logdw.1 logdw.2 = Some "/dev/socket/logdw"
  ∧ ConvertSockaddrToAbstractName logdw.1 logdw.2 = None.
Proof.
  pose proof (ConvertSockaddrToName_c_string AF_UNIX
                (list_ascii_of_string "/dev/socket/logdw") [Ascii.zero]
                logdw.2) as H.
  apply H.
  - evaluated.
  - discriminate.
  - repeat (constructor; [discriminate|]). constructor.
  - intros c Hc. by injection Hc as <-.
Defined.

(** X3: a second endpoint binds a name that is taken. *)
Lemma bind_outcomes_witness :
  bind 1%nat svc.1 svc.2 svc_bound = Some (svc_bound, Err EADDRINUSE).
Proof.
  assert (bind 1%nat svc.1 svc.2 svc_bound
          = Some (step (OBind 1%nat svc.1 svc.2) svc_bound, Err EADDRINUSE))
    as Hbind by (vm_compute; reflexivity).
  destruct (bind_outcomes _ _ _ _ _ _ Hbind) as [_ Hsame].
  rewrite Hbind, Hsame; [reflexivity | discriminate].
Defined.

(** X4: a connect that meets a full backlog. *)
Lemma connect_outcomes_witness :
  connect 3%nat svc.1 svc.2 (two_pending 100)
  = Some (two_pending 100, Err ECONNREFUSED).
Proof.
  assert (get 3%nat (two_pending 100) = Some (the 3%nat (two_pending 100)))
    as Hget by evaluated.
  assert (connect 3%nat svc.1 svc.2 (two_pending 100)
          = Some (step (OConnect 3%nat svc.1 svc.2) (two_pending 100),
                  Err ECONNREFUSED))
    as Hconnect by (vm_compute; reflexivity).
  destruct (connect_outcomes _ _ _ _ _ _ _ Hget Hconnect) as [Hsame _].
  rewrite Hconnect, Hsame. reflexivity.
Defined.

(** X5: three bytes sent where the ring has room for two. *)
Lemma sendmsg_stream_partial_witness :
  ∃ w',
    sendmsg 0%nat (text "xyz") 0 tight_ring = Some (w', Ret 2)
    ∧ buffer_ <$> get 1%nat w'
      = Some (RingBuffer.mk 4 (ascii_bytes "abxy")).
Proof.
  destruct (sendmsg_stream_partial tight_ring 0%nat (the 0%nat tight_ring)
              1%nat (the 1%nat tight_ring) (text "xyz") 0)
    as (w' & Hsend & Hbuf); [first [evaluated | peers_stored] ..|].
  exists w'. split; [exact Hsend | exact Hbuf].
Defined.


(** X7: two of three bytes received. *)
Lemma recvmsg_stream_witness :
  ∃ w' out,
    recvmsg 1%nat (mk_recv_msghdr [2%nat] 0 0) 0 sent_abc
    = Some (w', Ret 2, out)
    ∧ concat (out_iov out) = ascii_bytes "ab"
    ∧ RingBuffer.data <$> (buffer_ <$> get 1%nat w') = Some (ascii_bytes "c").
Proof.
  destruct (recvmsg_stream sent_abc 1%nat (the 1%nat sent_abc)
              (mk_recv_msghdr [2%nat] 0 0) 0)
    as (w' & out & Hrecv & Hcat & _ & Hbuf); [first [evaluated | peers_stored] ..|].
  exists w', out. split; [exact Hrecv|]. split; [exact Hcat|].
  rewrite Hbuf. reflexivity.
Defined.

(** X8: on the stream pair. *)
Lemma stream_round_trip_witness :
  ∃ w1 w2 out,
    sendmsg 0%nat (text "abc") 0 stream_pair = Some (w1, Ret 3)
    ∧ recvmsg 1%nat (mk_recv_msghdr [2%nat; 2%nat] 0 0) 0 w1
      = Some (w2, Ret 3, out)
    ∧ concat (out_iov out) = ascii_bytes "abc".
Proof.
  destruct (stream_round_trip stream_pair 0%nat (the 0%nat stream_pair)
              1%nat (the 1%nat stream_pair) (text "abc") 0
              (mk_recv_msghdr [2%nat; 2%nat] 0 0) 0)
    as (w1 & w2 & out & Hsend & Hrecv & Hcat & _); [first [evaluated | peers_stored] ..|].
  exists w1, w2, out. split; [exact Hsend|]. split; [exact Hrecv | exact Hcat].
Defined.

(** X9: on the datagram pair. *)
Lemma sendmsg_datagram_witness :
  ∃ w',
    sendmsg 0%nat (text "abc") 0 dgram_pair = Some (w', Ret 3)
    ∧ queue_ <$> get 1%nat w'
      = Some [mk_Datagram (mk_ucred 10 1000 1000) (ascii_bytes "abc")].
Proof.
  destruct (sendmsg_datagram dgram_pair 0%nat (the 0%nat dgram_pair)
              1%nat (the 1%nat dgram_pair) (text "abc") 0)
    as (w' & Hsend & Hq & _); [first [evaluated | peers_stored] ..|].
  exists w'. split; [exact Hsend | exact Hq].
Defined.

(** X10: on the datagram pair, with SO_PASSCRED set on the receiver. *)
Lemma datagram_round_trip_witness :
  ∃ w1 w2 out,
    sendmsg 0%nat (text "abc") 0 dgram_pair_passcred = Some (w1, Ret 3)
    ∧ recvmsg 1%nat (mk_recv_msghdr [8%nat] 24 0) 0 w1 = Some (w2, Ret 3, out)
    ∧ concat (out_iov out) = ascii_bytes "abc"
    ∧ out_control out
      = [mk_cmsghdr 24 SOL_SOCKET SCM_CREDENTIALS [10; 1000; 1000]].
Proof.
  destruct (datagram_round_trip dgram_pair_passcred
              0%nat (the 0%nat dgram_pair_passcred)
              1%nat (the 1%nat dgram_pair_passcred) (text "abc") 0
              (mk_recv_msghdr [8%nat] 24 0) 0)
    as (w1 & w2 & out & Hsend & Hrecv & Hcat & _ & Hctl & _);
    [first [evaluated | peers_stored] ..|].
  exists w1, w2, out. split; [exact Hsend|]. split; [exact Hrecv|].
  split; [exact Hcat | exact Hctl].
Defined.

(** X11: on the datagram pair. *)
Lemma zero_length_datagram_witness :
  ∃ w1 w2 out,
    sendmsg 0%nat (text "") 0 dgram_pair = Some (w1, Ret 0)
    ∧ effects w1 = effects dgram_pair
    ∧ recvmsg 1%nat (mk_recv_msghdr [8%nat] 0 0) 0 w1
      = Some (w2, Err EAGAIN, out)
    ∧ queue_ <$> get 1%nat w2 = Some [].
Proof.
  destruct (zero_length_datagram dgram_pair 0%nat (the 0%nat dgram_pair)
              1%nat (the 1%nat dgram_pair) (text "") 0
              (mk_recv_msghdr [8%nat] 0 0) 0)
    as (w1 & w2 & out & Hsend & _ & Heff & Hrecv & _ & Hq);
    [first [evaluated | peers_stored] ..|].
  exists w1, w2, out. split; [exact Hsend|]. split; [exact Heff|].
  split; [exact Hrecv | exact Hq].
Defined.


(** X13: on the stream pair, with MSG_DONTWAIT. *)
Lemma receive_on_empty_witness :
  (∃ out,
      recvmsg 1%nat (mk_recv_msghdr [8%nat] 0 0) MSG_DONTWAIT stream_pair
      = Some (stream_pair, Err EAGAIN, out))
  ∧ recv 1%nat 8 MSG_DONTWAIT stream_pair = Some (stream_pair, Suspended, []).
Proof.
  destruct (receive_on_empty stream_pair 1%nat (the 1%nat stream_pair)
              (mk_recv_msghdr [8%nat] 0 0) MSG_DONTWAIT 8)
    as [[out Hrecvmsg] Hrecv]; [first [evaluated | peers_stored] ..|].
  split; [exists out; exact Hrecvmsg | exact Hrecv].
Defined.

(** X14: three bytes wait on the stream pair. *)
Lemma ioctl_FIONREAD_next_receive_witness :
  ioctl 1%nat FIONREAD sent_abc = Some (IoctlDone (Ret 0) 3)
  ∧ ∃ w' out,
      recvmsg 1%nat (mk_recv_msghdr [8%nat] 0 0) 0 sent_abc
      = Some (w', Ret 3, out).
Proof.
  destruct (ioctl_FIONREAD_next_receive sent_abc 1%nat (the 1%nat sent_abc)
              (mk_recv_msghdr [8%nat] 0 0) 0)
    as [Hioctl Hrecv]; [first [evaluated | peers_stored] ..|].
  split; [exact Hioctl|]. apply Hrecv. vm_compute. split; [reflexivity | discriminate].
Defined.


(** X16: a client connects to a listener. *)
Lemma bind_listen_connect_witness :
  ∃ w3,
    connect 1%nat svc.1 svc.2
      (run [OBind 0%nat svc.1 svc.2; OListen 0%nat 1] two_streams)
    = Some (w3, Suspended)
    ∧ connection_queue_ <$> get 0%nat w3 = Some [1%nat]
    ∧ connect_state_ <$> get 1%nat w3 = Some SOCKET_CONNECTING.
Proof.
  destruct (bind_listen_connect two_streams 0%nat (the 0%nat two_streams)
              1%nat (the 1%nat two_streams) svc.1 svc.2 1
              (step (OBind 0%nat svc.1 svc.2) two_streams)
              (run [OBind 0%nat svc.1 svc.2; OListen 0%nat 1] two_streams))
    as (w3 & Hconnect & Hq & _ & Hstate); [evaluated ..|].
  exists w3. split; [exact Hconnect|]. split; [exact Hq | exact Hstate].
Defined.

(** X17: the listener of two parked clients accepts. *)
Lemma accept_success_witness :
  let accepted :=
    step (OAccept 0%nat false None false 20 2000) (two_pending 100) in
  connection_queue_ <$> get 0%nat accepted = Some [2%nat]
  ∧ connect_wakeup 1%nat accepted = Some (accepted, Ret 0)
  ∧ socket_type_ <$> get 4%nat accepted = Some SOCK_STREAM.
Proof.
  intros accepted.
  assert (ids_below_next (two_pending 100)) as Hwf.
  { apply run_ids_below_next, ids_below_next_empty. reflexivity. }
  destruct (accept_success (two_pending 100) 0%nat (the 0%nat (two_pending 100))
              false None false 20 2000 accepted 3 Hwf)
    as (skipped & client & client_obj & rest & server_obj & Hq & _ & _ & _ & _
        & Hq' & _ & _ & _ & Hserver & Hty & _ & _ & Hwake & _); [evaluated ..|].
  assert (rest = [2%nat]) as ->.
  { clear -Hq'. vm_compute in Hq'. by injection Hq' as <-. }
  assert (client = 1%nat) as ->.
  { clear -Hq. vm_compute in Hq.
    destruct skipped as [|s1 [|s2 [|s3 skipped]]]; vm_compute in Hq;
      [|discriminate..].
    by injection Hq as <-. }
  split; [exact Hq'|]. split; [exact Hwake|].
  assert (next_id (two_pending 100) = 4%nat) as Hid by evaluated.
  rewrite Hid in Hserver. rewrite Hserver. simpl. rewrite Hty. evaluated.
Defined.

(** X18: the listener is closed. *)
Lemma close_releases_witness :
  NameRegistry.GetByName "svc" (abstract_ns listener_closed) = None
  ∧ get 1%nat listener_closed = get 1%nat (two_pending 100).
Proof.
  destruct (close_releases (two_pending 100) 0%nat
              (the 0%nat (two_pending 100)) listener_closed)
    as (_ & _ & Hrest & Hname & _); [evaluated ..|].
  split.
  - apply Hname. reflexivity.
  - apply Hrest; [lia | discriminate].
Defined.

(** X19: a connect to the name of the listener that was closed. *)
Lemma connect_after_close_witness :
  connect 3%nat svc.1 svc.2 listener_closed
  = Some (listener_closed, Err ECONNREFUSED).
Proof.
  apply (connect_after_close (two_pending 100) 0%nat
           (the 0%nat (two_pending 100)) listener_closed
           3%nat (the 3%nat listener_closed)); [evaluated ..|].
  right. split; evaluated.
Defined.


(** X23: a client of the log daemon, before and after the daemon has
    closed its endpoint. *)
Lemma datagram_connect_then_send_witness :
  let connected := step (OConnect 1%nat logdw.1 logdw.2) logd_bound in
  let daemon_gone := step (OClose 0%nat) connected in
  (∃ w1, connect 1%nat logdw.1 logdw.2 logd_bound = Some (w1, Ret 0))
  ∧ (∃ w2,
        sendmsg 1%nat (text "log") 0 connected = Some (w2, Ret 3)
        ∧ queue_ <$> get 0%nat w2
          = Some [mk_Datagram (mk_ucred 10 1000 1000) (ascii_bytes "log")])
  ∧ sendmsg 1%nat (text "log") 0 daemon_gone
    = Some (daemon_gone, Err ECONNREFUSED).
Proof.
  intros connected daemon_gone.
  destruct (datagram_connect_then_send logd_bound 1%nat (the 1%nat logd_bound)
              logdw.1 logdw.2 "/dev/socket/logdw" 0%nat
              (the 0%nat logd_bound))
    as (w1 & Hconnect & _ & _ & _ & Hsends); [evaluated ..|].
  split; [by exists w1|]. split.
  - destruct (Hsends connected (the 1%nat connected) (text "log") 0)
      as [_ Hbound]; [evaluated ..|].
    destruct (Hbound 0%nat (the 0%nat connected)) as (w2 & Hsend & Hq);
      [evaluated ..|].
    exists w2. split; [exact Hsend|]. etrans; [exact Hq | evaluated].
  - destruct (Hsends daemon_gone (the 1%nat daemon_gone) (text "log") 0)
      as [Hunbound _]; [evaluated ..|].
    apply Hunbound. evaluated.
Defined.

(** X24: a datagram endpoint bound to an abstract name. *)
Lemma datagram_connect_abstract_then_send_witness :
  ∃ w1,
    connect 1%nat svc.1 svc.2 svc_dgram_bound = Some (w1, Ret 0)
    ∧ sendmsg 1%nat (text "log") 0 w1 = Some (w1, Err ECONNREFUSED).
Proof.
  destruct (datagram_connect_abstract_then_send svc_dgram_bound
              1%nat (the 1%nat svc_dgram_bound) svc.1 svc.2 "svc" 0%nat
              (the 0%nat svc_dgram_bound) (text "log") 0)
    as (w1 & Hconnect & Hsend); [evaluated ..|].
  exists w1. split; [exact Hconnect | exact Hsend].
Defined.

(** X25: after a write on the stream pair. *)
Lemma endpoint_shape_witness :
  (RingBuffer.size (buffer_ (the 1%nat sent_abc)) ≤ kBufferSize)%Z
  ∧ queue_ (the 1%nat sent_abc) = [].
Proof.
  destruct (endpoint_shape (boot 100)
              [new_stream; new_stream; OPairUp 0%nat 1%nat;
               OSendto 0%nat (ascii_bytes "abc") 0 false 0]
              1%nat (the 1%nat sent_abc))
    as ([_ Hsize] & _ & Hq & _); [evaluated ..|].
  split; [exact Hsize | apply Hq; evaluated].
Defined.

(** X26: a bound endpoint binds again and listens. *)
Lemma endpoint_for_life_witness :
  abstract_name_
    (the 0%nat (run [OBind 0%nat cli.1 cli.2; OListen 0%nat 1] svc_bound))
  = "svc".
Proof.
  assert (ids_below_next svc_bound) as Hwf.
  { apply (run_ids_below_next
             [new_stream; OSocket 0 SOCK_STREAM READ_WRITE 11 1001;
              OBind 0%nat svc.1 svc.2] (boot 100)).
    apply ids_below_next_empty. reflexivity. }
  destruct (endpoint_for_life svc_bound
              [OBind 0%nat cli.1 cli.2; OListen 0%nat 1]
              0%nat (the 0%nat svc_bound)
              (the 0%nat
                 (run [OBind 0%nat cli.1 cli.2; OListen 0%nat 1] svc_bound))
              Hwf)
    as (_ & _ & Hname); [evaluated ..|].
  destruct Hname as [Ha _]; [evaluated|].
  etrans; [exact Ha | evaluated].
Defined.

(** X21: both parked clients were closed. *)
Lemma accept_without_client_witness :
  ∃ w',
    accept 0%nat false None true 10 1000 clients_closed
    = Some (w', Err EAGAIN)
    ∧ connection_queue_ <$> get 0%nat w' = Some [].
Proof.
  pose proof (accept_without_client clients_closed 0%nat
                (the 0%nat clients_closed) false None true 10 1000) as H.
  eexists. split.
  - apply H; [evaluated | evaluated | discriminate | evaluated ..|].
    assert (connection_queue_ (the 0%nat clients_closed) = [1%nat; 2%nat])
      as -> by evaluated.
    repeat constructor; eexists; split; evaluated.
  - evaluated.
Defined.

(** X22: one end of the stream pair is closed. *)
Lemma close_hangs_up_peer_witness :
  ∃ o' events,
    get 0%nat stream_peer_gone = Some o'
    ∧ GetPollEvents o' stream_peer_gone = Some events
    ∧ flag_set events POLLHUP = true
    ∧ IsSelectReadReady o' stream_peer_gone = Some true.
Proof.
  destruct (close_hangs_up_peer stream_pair 1%nat (the 1%nat stream_pair)
              0%nat (the 0%nat stream_pair) stream_peer_gone)
    as (o' & events & Hget & _ & Hev & Hflag & Hready & _); [evaluated ..|].
  exists o', events. split; [exact Hget|]. split; [exact Hev|].
  split; [exact Hflag | exact Hready].
Defined.
End MoreOnLinux32.
